(** * Historical Timeline backend (Code.gs): a shallow embedding

    The multi-timeline backend keeps dated events in one spreadsheet
    sheet ("TimelineData") and offers a grouped read plus add, update and
    delete.  This development embeds the script in Rocq and proves its
    documented properties.

    Conventions of the embedding.
    - JavaScript values are the primitives that reach the script
      (undefined, null, booleans, numbers, strings).  Numbers are
      integers ([Z]); [NaN] is the [None] of an [option Z]; fractional
      numbers and infinities are outside the model, and negative zero
      is not told apart from zero.  A
      JavaScript number is a double: the integers of the model are those
      of the runtime on the safe integers ([Js.safe], absolute value
      below 2^53), which [String] prints in plain decimal digits and
      [parseInt] reads back exactly.  Properties that give a parsed or
      printed number in closed form carry this bound.
    - Strings are byte strings; the white space class and upper-casing
      of [Js] are the ASCII ones, which are those of the runtime on
      ASCII text ([Js.is_ascii]).  Properties that give the result of
      trimming, splitting or upper-casing in closed form carry this
      restriction, or are proved over [Text] for any alphabet, white
      space class and upper-casing.
    - The spreadsheet service is modelled by a grid of cells with the
      behaviour the script relies on (content-based last row and last
      column, blank cells read as the empty string), threaded through a
      state and exception monad; a fault plan decides which service
      calls fail. *)

From Stdlib Require Import ZArith Lia Ascii String List Bool Permutation Sorted.
From stdpp Require Import base tactics option list gmap strings pretty sorting.

Local Open Scope string_scope.
Local Open Scope list_scope.
Local Open Scope nat_scope.

(** ** JavaScript values *)

Inductive value : Type :=
| VUndef
| VNull
| VBool (b : bool)
| VNum (n : Z)
| VStr (s : string).

Global Instance value_eq_dec : EqDecision value.
Proof. solve_decision. Defined.

Global Instance value_inhabited : Inhabited value := populate VUndef.

Module Js.
Local Open Scope Z_scope.

(** ToBoolean: [undefined], [null], [false], [0] and [""] are falsy. *)
Definition truthy (v : value) : bool :=
  match v with
  | VUndef | VNull => false
  | VBool b => b
  | VNum n => negb (n =? 0)
  | VStr s => negb (String.eqb s "")
  end.

(** [a || b] *)
Definition or (a b : value) : value := if truthy a then a else b.

(** [a ?? b] *)
Definition nullish (a b : value) : value :=
  match a with
  | VUndef | VNull => b
  | _ => a
  end.

(** The integers that a JavaScript number holds exactly: the safe
    integers.  On them [String] prints the decimal digits, with a minus
    sign in front of a negative number (from 10^21 on the runtime
    switches to the exponent notation, and above 2^53 a double no longer
    holds every integer). *)
Definition safe (n : Z) : bool := Z.abs n <? 2 ^ 53.

(** A value whose conversion to a string is the runtime's: every value
    but a number that is not a safe integer. *)
Definition exact (v : value) : bool :=
  match v with
  | VNum n => safe n
  | _ => true
  end.

(** Text of ASCII characters only. *)
Definition is_ascii (s : string) : bool :=
  forallb (λ c, (nat_of_ascii c <? 128)%nat) (list_ascii_of_string s).

(** A value on which the primitives below are the runtime's: a safe
    integer, an ASCII text, a boolean, [null] or [undefined]. *)
Definition plain (v : value) : bool :=
  match v with
  | VNum n => safe n
  | VStr s => is_ascii s
  | _ => true
  end.

(** [String(v)]; also [v.toString()], which the script only applies to
    values that are neither [undefined] nor [null].  A number is printed
    in decimal digits, as the runtime prints a safe integer. *)
Definition toStr (v : value) : string :=
  match v with
  | VUndef => "undefined"
  | VNull => "null"
  | VBool true => "true"
  | VBool false => "false"
  | VNum n => pretty n
  | VStr s => s
  end.

(** [a === b] on primitives. *)
Definition strict_eq (a b : value) : bool := bool_decide (a = b).

(** The white space of [trim] and of the regular expression class
    [\s] among the ASCII characters: tab, line feed, vertical tab, form
    feed, carriage return, space.  The runtime's class has further
    members outside ASCII (the no-break space and the other Unicode
    space separators, the line and paragraph separators, the byte order
    mark), which the byte strings of the model do not have as
    characters. *)
Definition is_space (c : ascii) : bool :=
  let n := nat_of_ascii c in
  ((9 <=? n)%nat && (n <=? 13)%nat) || (n =? 32)%nat.

Fixpoint trimStart (s : string) : string :=
  match s with
  | EmptyString => EmptyString
  | String c s' => if is_space c then trimStart s' else s
  end.

(** [trimEnd] keeps a character when it is not white space or when
    something remains after it. *)
Fixpoint trimEnd (s : string) : string :=
  match s with
  | EmptyString => EmptyString
  | String c s' =>
      match trimEnd s' with
      | EmptyString => if is_space c then EmptyString else String c EmptyString
      | t => String c t
      end
  end.

Definition trim (s : string) : string := trimEnd (trimStart s).

(** [s.split(/\s+/)]: [tok] is the token being read, [skipping] tells
    that the previous character was white space already closed by a
    split point.  Leading and trailing white space yield empty tokens,
    and the empty string yields one empty token, as in JavaScript. *)
Fixpoint split_ws_go (tok : string) (skipping : bool) (s : string) : list string :=
  match s with
  | EmptyString => [tok]
  | String c s' =>
      if is_space c then
        if skipping then split_ws_go tok true s'
        else tok :: split_ws_go EmptyString true s'
      else split_ws_go (tok +:+ String c EmptyString) false s'
  end.

Definition split_ws (s : string) : list string := split_ws_go EmptyString false s.

(** [c.toUpperCase()] on one ASCII character: a lower-case letter
    becomes its capital, every other character stays.  Outside ASCII the
    runtime follows the Unicode case mapping, under which one character
    may become several; [Text] covers that case. *)
Definition toUpperCase (c : ascii) : ascii :=
  let n := nat_of_ascii c in
  if ((97 <=? n)%nat && (n <=? 122)%nat) then ascii_of_nat (n - 32) else c.

(** [arr.join("")] *)
Definition join (l : list string) : string := fold_right String.append EmptyString l.

Definition digit_val (c : ascii) : option Z :=
  let n := nat_of_ascii c in
  if ((48 <=? n)%nat && (n <=? 57)%nat) then Some (Z.of_nat (n - 48)) else None.

(** The longest prefix of decimal digits, read left to right with the
    value accumulated so far; [None] when there is no digit at all. *)
Fixpoint digits_go (acc : option Z) (s : string) : option Z :=
  match s with
  | EmptyString => acc
  | String c s' =>
      match digit_val c with
      | Some d => digits_go (Some (10 * default 0 acc + d)) s'
      | None => acc
      end
  end.

(** [parseInt(s, 10)] on a string: skip leading white space, read an
    optional sign, then the longest run of digits; [None] is [NaN].  The
    result is the integer that the digits denote, which is the runtime's
    number when it is a safe integer (a longer run of digits is rounded
    to a double there). *)
Definition parseInt_string (s : string) : option Z :=
  match trimStart s with
  | String "-" r => Z.opp <$> digits_go None r
  | String "+" r => digits_go None r
  | r => digits_go None r
  end.

(** [parseInt(v, 10)]: the argument is first converted to a string, so
    that a number comes back unchanged when it is a safe integer. *)
Definition parseInt (v : value) : option Z := parseInt_string (toStr v).

(** ToNumber, for the subtraction in the sort comparator.  A string is
    a number when, trimmed, it is empty (0) or a signed run of digits;
    any other string is [NaN] here: the decimal fractions, exponents,
    radix prefixes and [Infinity] that the runtime also reads denote no
    integer or are outside the model. *)
Fixpoint all_digits (s : string) : bool :=
  match s with
  | EmptyString => true
  | String c s' => match digit_val c with Some _ => all_digits s' | None => false end
  end.

Definition toNumber_string (s : string) : option Z :=
  match trim s with
  | EmptyString => Some 0
  | String "-" r => if all_digits r then Z.opp <$> digits_go None r else None
  | String "+" r => if all_digits r then digits_go None r else None
  | r => if all_digits r then digits_go None r else None
  end.

Definition toNumber (v : value) : option Z :=
  match v with
  | VUndef => None
  | VNull => Some 0
  | VBool b => Some (if b then 1 else 0)
  | VNum n => Some n
  | VStr s => toNumber_string s
  end.

(** [a - b]: [NaN] as soon as one side is. *)
Definition sub (a b : value) : option Z :=
  match toNumber a, toNumber b with
  | Some x, Some y => Some (x - y)
  | _, _ => None
  end.

End Js.

(** ** Pure helpers of the script *)

(** [w[0] ? w[0].toUpperCase() : ""] *)
Definition initial (w : string) : string :=
  match w with
  | EmptyString => EmptyString
  | String c _ => String (Js.toUpperCase c) EmptyString
  end.

(** [makeAbbreviation(name)], with the white space class and the
    upper-casing of [Js]: the function of the script on ASCII names.
    [Text.makeAbbreviation] below is the same function over any
    alphabet. *)
Definition makeAbbreviation (name : value) : string :=
  if negb (Js.truthy name) then ""
  else Js.join (map initial (Js.split_ws (Js.trim (Js.toStr name)))).

(** [computeNumericYear(year, era)]: the value of the script whenever
    [year] is a plain value and the parsed year a safe integer. *)
Definition computeNumericYear (year era : value) : Z :=
  match Js.parseInt year with
  | None => 0
  | Some y => if Js.strict_eq era (VStr "BC") then - Z.abs y else Z.abs y
  end%Z.

(** ** The string helpers over any alphabet

    A JavaScript string is a sequence of UTF-16 code units.  The helpers
    of [makeAbbreviation] are given here once more, for characters of
    any type [char]: the white space class of the runtime ([trim] and
    the class [\s] of regular expressions share it) and its upper-casing
    of a one-character string, which may yield several characters, are
    parameters.  [Js.trim], [Js.split_ws] and [makeAbbreviation] are
    these functions on the characters of the model. *)

Module Text.

Section Text.

Context {char : Type}.
Variable is_space : char → bool.
Variable toUpperCase : char → list char.

Fixpoint trimStart (s : list char) : list char :=
  match s with
  | [] => []
  | c :: s' => if is_space c then trimStart s' else s
  end.

Fixpoint trimEnd (s : list char) : list char :=
  match s with
  | [] => []
  | c :: s' =>
      match trimEnd s' with
      | [] => if is_space c then [] else [c]
      | t => c :: t
      end
  end.

Definition trim (s : list char) : list char := trimEnd (trimStart s).

(** [s.split(/\s+/)], with the token read so far and the flag of
    [Js.split_ws_go]. *)
Fixpoint split_ws_go (tok : list char) (skipping : bool) (s : list char)
  : list (list char) :=
  match s with
  | [] => [tok]
  | c :: s' =>
      if is_space c then
        if skipping then split_ws_go tok true s'
        else tok :: split_ws_go [] true s'
      else split_ws_go (tok ++ [c]) false s'
  end.

Definition split_ws (s : list char) : list (list char) :=
  split_ws_go [] false s.

(** [w[0] ? w[0].toUpperCase() : ""] *)
Definition initial (w : list char) : list char :=
  match w with
  | [] => []
  | c :: _ => toUpperCase c
  end.

(** [makeAbbreviation(name)] on a string; the empty string is the one
    falsy string. *)
Definition makeAbbreviation (name : list char) : list char :=
  match name with
  | [] => []
  | _ => concat (initial <$> split_ws (trim name))
  end.

End Text.

End Text.

(** ** The spreadsheet service

    A sheet is a grid of cells, row by row; rows and cells that the
    lists do not reach are blank.  [getLastRow] and [getLastColumn] are
    content-based, as in the Spreadsheet service: the position of the
    last row (column) that holds a non-blank cell. *)

Abbreviation grid := (list (list value)).

Module Sheet.

Definition blank : value := VStr "".

Definition is_blank (v : value) : bool :=
  match v with
  | VStr s => String.eqb s ""
  | VUndef | VNull => true
  | VBool _ | VNum _ => false
  end.

(** One plus the index of the last element that is not blank, 0 when
    all are. *)
Fixpoint extent {A} (blankp : A → bool) (l : list A) : nat :=
  match l with
  | [] => 0
  | x :: l' =>
      match extent blankp l' with
      | O => if blankp x then 0 else 1
      | S n => S (S n)
      end
  end.

Definition blank_row (row : list value) : bool := forallb is_blank row.

Definition lastRow (g : grid) : nat := extent blank_row g.

Definition lastColumn (g : grid) : nat :=
  foldr (λ row m, extent is_blank row `max` m) 0 g.

(** Rows and cells by index from 0; what the lists do not reach is
    blank. *)
Definition rowAt (g : grid) (i : nat) : list value := default [] (g !! i).

Definition cellAt (row : list value) (j : nat) : value :=
  default blank (row !! j).

Definition cell0 (g : grid) (i j : nat) : value := cellAt (rowAt g i) j.

(** The cell in row [r], column [c], both counted from 1 as in the
    service. *)
Definition cell (g : grid) (r c : nat) : value := cell0 g (pred r) (pred c).

(** The first [width] cells of row [r]. *)
Definition row (g : grid) (r width : nat) : list value :=
  resize width blank (rowAt g (pred r)).

Record Range := mkRange {
  rg_row : nat; rg_col : nat; rg_rows : nat; rg_cols : nat
}.

(** The values of a rectangle: [nr] rows from row [r], [nc] cells of
    each from column [c], blanks where the grid ends. *)
Definition read (g : grid) (rg : Range) : grid :=
  (λ cells, resize (rg_cols rg) blank (drop (pred (rg_col rg)) cells))
    <$> resize (rg_rows rg) [] (drop (pred (rg_row rg)) g).

(** Overwrite [new] over [old] from index [k] on, padding with [d]. *)
Definition splice {A} (d : A) (k : nat) (new old : list A) : list A :=
  resize k d old ++ new ++ drop (k + length new) old.

Definition write_row (c0 : nat) (vs row : list value) : list value :=
  splice blank c0 vs row.

(** Write the rows [vss] with their first cell at row [r], column [c]. *)
Definition write (g : grid) (r c : nat) (vss : grid) : grid :=
  splice [] (pred r)
    (imap (λ i vs, write_row (pred c) vs (rowAt g (pred r + i))) vss)
    g.

Definition insertColumn (c : nat) (g : grid) : grid :=
  (λ row, take (pred c) row ++ blank :: drop (pred c) row) <$> g.

Definition deleteRow (r : nat) (g : grid) : grid := delete (pred r) g.

Definition shape_ok (rg : Range) (vss : grid) : bool :=
  (length vss =? rg_rows rg)%nat
  && forallb (λ vs, (length vs =? rg_cols rg)%nat) vss.

End Sheet.

Global Arguments Sheet.lastRow : simpl never.
Global Arguments Sheet.lastColumn : simpl never.
Global Arguments Sheet.read : simpl never.
Global Arguments Sheet.write : simpl never.
Global Arguments Sheet.insertColumn : simpl never.
Global Arguments Sheet.deleteRow : simpl never.

(** ** The state and exception monad of the script

    The world holds the "TimelineData" sheet, if it exists, and a fault
    plan: every call into the spreadsheet service takes the next entry of
    the plan and fails with its message when there is one.  An exhausted
    plan means no further failure. *)

Record World := mkWorld {
  sheet : option grid;
  faults : list (option string)
}.

Inductive Outcome (A : Type) : Type :=
| Ok (a : A) (w : World)
| Throw (msg : string) (w : World).
Global Arguments Ok {A} a w.
Global Arguments Throw {A} msg w.

Definition M (A : Type) : Type := World → Outcome A.

Definition pure {A} (a : A) : M A := λ w, Ok a w.

Definition bind {A B} (m : M A) (k : A → M B) : M B := λ w,
  match m w with
  | Ok a w' => k a w'
  | Throw msg w' => Throw msg w'
  end.

Declare Scope script_scope.
Delimit Scope script_scope with script.
Notation "x <- y ; z" := (bind y (λ x, z))
  (at level 20, y at level 100, z at level 200, only parsing) : script_scope.
Notation "y ;; z" := (bind y (λ _, z))
  (at level 100, z at level 200, only parsing, right associativity) : script_scope.
Local Open Scope script_scope.

Definition throw {A} (msg : string) : M A := λ w, Throw msg w.

(** [try { body } catch (e) { handler(e.message) }] *)
Definition try_catch {A} (body : M A) (handler : string → M A) : M A := λ w,
  match body w with
  | Ok a w' => Ok a w'
  | Throw msg w' => handler msg w'
  end.

(** Entering the spreadsheet service. *)
Definition tick : M unit := λ w,
  match faults w with
  | [] => Ok tt w
  | None :: fs => Ok tt (mkWorld (sheet w) fs)
  | Some msg :: fs => Throw msg (mkWorld (sheet w) fs)
  end.

(** A service call that reads or changes the sheet; [inl] is an error
    raised by the service itself. *)
Definition call {A} (f : grid → string + A * grid) : M A :=
  tick;;
  ((λ w,
     match f (default [] (sheet w)) with
     | inl msg => Throw msg w
     | inr (a, g') => Ok a (mkWorld (Some g') (faults w))
     end) : M A).

Module Service.

Definition getActiveSpreadsheet : M unit := tick.

(** [ss.getSheetByName(SHEET_NAME)]: whether the sheet exists. *)
Definition getSheetByName : M bool :=
  tick;; ((λ w, Ok (bool_decide (is_Some (sheet w))) w) : M bool).

Definition insertSheet : M unit :=
  tick;;
  ((λ w,
     match sheet w with
     | Some _ => Throw "A sheet with the name TimelineData already exists." w
     | None => Ok tt (mkWorld (Some []) (faults w))
     end) : M unit).

Definition getLastRow : M nat := call (λ g, inr (Sheet.lastRow g, g)).

Definition getLastColumn : M nat := call (λ g, inr (Sheet.lastColumn g, g)).

Definition getRange (r c nr nc : nat) : M Sheet.Range :=
  call (λ g,
    if (r =? 0)%nat || (c =? 0)%nat then
      inl "The starting row or column of the range is too small."
    else if (nr =? 0)%nat || (nc =? 0)%nat then
      inl "The number of rows and columns in the range must be at least 1."
    else inr (Sheet.mkRange r c nr nc, g)).

Definition getValues (rg : Sheet.Range) : M grid :=
  call (λ g, inr (Sheet.read g rg, g)).

Definition setValues (rg : Sheet.Range) (vss : grid) : M unit :=
  call (λ g,
    if Sheet.shape_ok rg vss then
      inr (tt, Sheet.write g (Sheet.rg_row rg) (Sheet.rg_col rg) vss)
    else inl "The data does not match the dimensions of the range.").

(** [range.setValue(v)] fills the whole range with [v]. *)
Definition setValue (rg : Sheet.Range) (v : value) : M unit :=
  call (λ g,
    inr (tt, Sheet.write g (Sheet.rg_row rg) (Sheet.rg_col rg)
               (replicate (Sheet.rg_rows rg) (replicate (Sheet.rg_cols rg) v)))).

Definition insertColumnBefore (c : nat) : M unit :=
  call (λ g,
    if (c =? 0)%nat then inl "The column index is out of bounds."
    else inr (tt, Sheet.insertColumn c g)).

Definition appendRow (vs : list value) : M unit :=
  call (λ g, inr (tt, Sheet.write g (S (Sheet.lastRow g)) 1 [vs])).

Definition deleteRow (r : nat) : M unit :=
  call (λ g,
    if (r =? 0)%nat then inl "The row index is out of bounds."
    else inr (tt, Sheet.deleteRow r g)).

End Service.

(** ** The script *)

Definition SHEET_NAME : string := "TimelineData".

Definition REQUIRED_HEADERS : list string :=
  ["TimelineName"; "EventName"; "Year"; "Era"; "NumericYear"; "Abbreviation";
   "Description"].

Definition OLD_HEADERS : list string :=
  ["EventName"; "Year"; "Era"; "NumericYear"; "Abbreviation"; "Description"].

(** [arr.map(h => (h || "").toString().trim())] *)
Definition normalized (arr : list value) : list string :=
  (λ h, Js.trim (Js.toStr (Js.or h (VStr "")))) <$> arr.

(** [h[i] === OLD_HEADERS[i]] for [i] from 0 to 5. *)
Definition isOld (h : list string) : bool :=
  forallb (λ i, bool_decide (h !! i = OLD_HEADERS !! i)) (seq 0 6).

(** [REQUIRED_HEADERS.some((val, i) => val !== (h[i] || ""))] *)
Definition headersDiffer (h : list string) : bool :=
  existsb (λ '(i, val), negb (String.eqb val (default "" (h !! i))))
    (imap pair REQUIRED_HEADERS).

(** [getSheet()]; the handle it returns is the sheet of the world. *)
Definition getSheet : M unit :=
  Service.getActiveSpreadsheet;;
  found <- Service.getSheetByName;
  (if found then pure tt else Service.insertSheet);;
  lastRow <- Service.getLastRow;
  lastCol <- Service.getLastColumn;
  if (lastRow =? 0)%nat then
    rg <- Service.getRange 1 1 1 (length REQUIRED_HEADERS);
    Service.setValues rg [VStr <$> REQUIRED_HEADERS]
  else
    rg <- Service.getRange 1 1 1 (lastCol `max` length REQUIRED_HEADERS);
    vals <- Service.getValues rg;
    let headers := take (length REQUIRED_HEADERS) (default [] (vals !! 0%nat)) in
    let h := normalized headers in
    if isOld h then
      Service.insertColumnBefore 1;;
      rg <- Service.getRange 1 1 1 (length REQUIRED_HEADERS);
      Service.setValues rg [VStr <$> REQUIRED_HEADERS];;
      lastRow' <- Service.getLastRow;
      let dataRows := (lastRow' - 1)%nat in
      if (0 <? dataRows)%nat then
        rg <- Service.getRange 2 1 dataRows 1;
        Service.setValue rg (VStr "Timeline 1")
      else pure tt
    else
      needRewrite <-
        (if headersDiffer h then pure true
         else lastCol' <- Service.getLastColumn;
              pure (lastCol' <? length REQUIRED_HEADERS)%nat);
      if needRewrite : bool then
        rg <- Service.getRange 1 1 1 (length REQUIRED_HEADERS);
        Service.setValues rg [VStr <$> REQUIRED_HEADERS]
      else pure tt.

(** *** Reading: [getEventsGrouped] *)

Record Event := mkEvent {
  ev_name : value;
  ev_year : value;
  ev_era : value;
  ev_numericYear : value;
  ev_abbreviation : value;
  ev_description : value;
  ev_timelineName : string
}.

Record Timeline := mkTimeline {
  tl_name : string;
  tl_events : list Event
}.

Record Grouped := mkGrouped {
  timelines : list Timeline;
  timelineNames : list string
}.

(** [row[i]] *)
Definition at_index (row : list value) (i : nat) : value :=
  default VUndef (row !! i).

(** [x !== "" && x !== null] *)
Definition present (x : value) : bool :=
  negb (Js.strict_eq x (VStr "")) && negb (Js.strict_eq x VNull).

(** The body of [data.forEach(row => ...)] up to the event object. *)
Definition decodeRow (row : list value) : Event :=
  let timelineName := Js.toStr (Js.or (at_index row 0) (VStr "Untitled")) in
  let name := Js.or (at_index row 1) (VStr "") in
  let year := if present (at_index row 2) then at_index row 2 else VStr "" in
  let era := Js.or (at_index row 3) (VStr "") in
  let numericYear :=
    if present (at_index row 4) then at_index row 4
    else VNum (computeNumericYear year era) in
  let abbreviation := Js.or (at_index row 5) (VStr (makeAbbreviation name)) in
  let description := Js.or (at_index row 6) (VStr "") in
  mkEvent name year era numericYear abbreviation description timelineName.

(** The properties every object literal inherits from [Object.prototype]:
    [map[key]] is truthy for them although [map] has no such group. *)
Definition inheritedKeys : list string :=
  ["constructor"; "__defineGetter__"; "__defineSetter__"; "hasOwnProperty";
   "__lookupGetter__"; "__lookupSetter__"; "isPrototypeOf";
   "propertyIsEnumerable"; "toString"; "valueOf"; "__proto__";
   "toLocaleString"].

(** [if (!map[timelineName]) map[timelineName] = [];
     map[timelineName].push(ev);]  For an inherited key the test finds a
    truthy value that has no [push], and the call raises a TypeError. *)
Definition pushEvent (map : gmap string (list Event)) (ev : Event)
  : string + gmap string (list Event) :=
  let k := ev_timelineName ev in
  match map !! k with
  | Some evs => inr (<[k := evs ++ [ev]]> map)
  | None =>
      if bool_decide (k ∈ inheritedKeys)
      then inl "map[timelineName].push is not a function"
      else inr (<[k := [ev]]> map)
  end.

Fixpoint groupRows (map : gmap string (list Event)) (data : grid)
  : string + gmap string (list Event) :=
  match data with
  | [] => inr map
  | row :: data' =>
      match pushEvent map (decodeRow row) with
      | inl msg => inl msg
      | inr map' => groupRows map' data'
      end
  end.

(** [Array.prototype.sort], as a stable insertion sort: [lt y x] tells
    that the comparator puts [y] strictly before [x].  With a consistent
    comparator every stable sort yields this very list, and the
    runtime's sort is stable.  With a comparator that is not consistent
    (a numeric year that is no number compares as [NaN] with every other
    year) the language leaves the order to the implementation: the model
    then fixes the one of the insertion sort. *)
Fixpoint insert_by {A} (lt : A → A → bool) (x : A) (l : list A) : list A :=
  match l with
  | [] => [x]
  | y :: l' => if lt y x then y :: insert_by lt x l' else x :: l
  end.

Definition sort_by {A} (lt : A → A → bool) (l : list A) : list A :=
  foldr (insert_by lt) [] l.

(** [(a, b) => (a.numericYear || 0) - (b.numericYear || 0)] *)
Definition compareEvents (a b : Event) : option Z :=
  Js.sub (Js.or (ev_numericYear a) (VNum 0)) (Js.or (ev_numericYear b) (VNum 0)).

(** A comparator result below zero; [NaN] counts as zero. *)
Definition before (a b : Event) : bool :=
  match compareEvents a b with
  | Some z => (z <? 0)%Z
  | None => false
  end.

(** [Object.keys(map).sort()]: the keys are distinct strings and the
    default order on strings is total, so the order in which
    [Object.keys] lists them does not show in the result.  The order is
    the one of the character codes, which on the byte strings of the
    model is the runtime's for ASCII names. *)
Definition sortedKeys (map : gmap string (list Event)) : list string :=
  sort_by String.ltb (map_to_list map).*1.

Definition buildTimelines (map : gmap string (list Event)) : list Timeline :=
  (λ name, mkTimeline name (sort_by before (default [] (map !! name))))
    <$> sortedKeys map.

Definition getEventsGrouped : M Grouped :=
  getSheet;;
  lastRow <- Service.getLastRow;
  if (lastRow <? 2)%nat then pure (mkGrouped [] [])
  else
    rg <- Service.getRange 2 1 (lastRow - 1) (length REQUIRED_HEADERS);
    data <- Service.getValues rg;
    match groupRows ∅ data with
    | inl msg => throw msg
    | inr map =>
        let timelines := buildTimelines map in
        pure (mkGrouped timelines (tl_name <$> timelines))
    end.

(** [getTimelineNames()]; an array is never falsy, so [|| []] is idle. *)
Definition getTimelineNames : M (list string) :=
  grouped <- getEventsGrouped;
  pure (timelineNames grouped).

(** *** Writing: [addEvent], [updateEvent], [deleteEvent] *)

Record Result := mkResult {
  success : bool;
  message : string
}.

(** The fields of the object passed to [addEvent]; an absent field is
    [VUndef]. *)
Record EventData := mkEventData {
  ed_timelineName : value;
  ed_name : value;
  ed_year : value;
  ed_era : value;
  ed_description : value
}.

(** The composite key [{ timelineName, name, year, era }]. *)
Record Key := mkKey {
  k_timelineName : value;
  k_name : value;
  k_year : value;
  k_era : value
}.

(** The object passed to [updateEvent]; [original] is [None] when the
    property is missing or falsy. *)
Record UpdateData := mkUpdateData {
  original : option Key;
  up_timelineName : value;
  up_name : value;
  up_year : value;
  up_era : value;
  up_description : value
}.

Definition addEvent_try (eventData : option EventData) : M Result :=
  match eventData with
  | None => pure (mkResult false "No event data.")
  | Some ed =>
      let timelineName := Js.toStr (Js.or (ed_timelineName ed) (VStr "Timeline 1")) in
      let name := Js.trim (Js.toStr (Js.or (ed_name ed) (VStr ""))) in
      let yearNum := Js.parseInt (ed_year ed) in
      let era := Js.toStr (Js.or (ed_era ed) (VStr "CE")) in
      let description := Js.toStr (Js.or (ed_description ed) (VStr "")) in
      if negb (Js.truthy (VStr name)) then pure (mkResult false "Missing event name.")
      else
        match yearNum with
        | None => pure (mkResult false "Year must be a number.")
        | Some y =>
            let numericYear := computeNumericYear (VNum y) (VStr era) in
            let abbreviation := makeAbbreviation (VStr name) in
            getSheet;;
            Service.appendRow
              [VStr timelineName; VStr name; VNum y; VStr era; VNum numericYear;
               VStr abbreviation; VStr description];;
            pure (mkResult true
                    ("Event '" +:+ name +:+ "' added to '" +:+ timelineName +:+ "'."))
        end
  end.

Definition addEvent (eventData : option EventData) : M Result :=
  try_catch (addEvent_try eventData)
    (λ msg, pure (mkResult false ("Error adding event: " +:+ msg))).

(** The predicate of [data.findIndex(row => ...)]. *)
Definition matchesKey (o : Key) (row : list value) : bool :=
  String.eqb (Js.toStr (at_index row 0)) (Js.toStr (k_timelineName o))
  && String.eqb (Js.toStr (at_index row 1)) (Js.toStr (k_name o))
  && String.eqb (Js.toStr (at_index row 2)) (Js.toStr (k_year o))
  && String.eqb (Js.toStr (at_index row 3)) (Js.toStr (k_era o)).

(** [data.findIndex(p)]; [None] stands for -1. *)
Definition findIndex (o : Key) (data : grid) : option nat :=
  fst <$> list_find (λ row, Is_true (matchesKey o row)) data.

(** [// Prepare new values, falling back to old where missing]: the
    cells written over the matched row [row], or [None] when the new
    year is [NaN]. *)
Definition newValues (event : UpdateData) (row : list value) : option (list value) :=
  let newTimeline :=
    Js.or (Js.or (up_timelineName event) (at_index row 0)) (VStr "Timeline 1") in
  let newName :=
    Js.toStr (Js.or (Js.or (up_name event) (at_index row 1)) (VStr "")) in
  match Js.parseInt (Js.nullish (up_year event) (at_index row 2)) with
  | None => None
  | Some newYearNum =>
      let newEra :=
        Js.toStr (Js.or (Js.or (up_era event) (at_index row 3)) (VStr "CE")) in
      let newNumeric := computeNumericYear (VNum newYearNum) (VStr newEra) in
      let newAbbrev := makeAbbreviation (VStr newName) in
      let newDesc :=
        Js.toStr (Js.nullish (Js.nullish (up_description event) (at_index row 6))
                    (VStr "")) in
      Some [newTimeline; VStr newName; VNum newYearNum; VStr newEra;
            VNum newNumeric; VStr newAbbrev; VStr newDesc]
  end.

Definition updateEvent_try (event : option UpdateData) : M Result :=
  match event with
  | None => pure (mkResult false "Missing original identifiers.")
  | Some event =>
      match original event with
      | None => pure (mkResult false "Missing original identifiers.")
      | Some o =>
          getSheet;;
          lastRow <- Service.getLastRow;
          if (lastRow <? 2)%nat then pure (mkResult false "No events to update.")
          else
            rg <- Service.getRange 2 1 (lastRow - 1) (length REQUIRED_HEADERS);
            data <- Service.getValues rg;
            match findIndex o data with
            | None => pure (mkResult false "Event not found for update.")
            | Some matchRowIndex =>
                match newValues event (default [] (data !! matchRowIndex)) with
                | None => pure (mkResult false "Year must be a number.")
                | Some cells =>
                    let targetRow := matchRowIndex + 2 in
                    rg <- Service.getRange targetRow 1 1 (length REQUIRED_HEADERS);
                    Service.setValues rg [cells];;
                    pure (mkResult true "Event updated successfully.")
                end
            end
      end
  end.

Definition updateEvent (event : option UpdateData) : M Result :=
  try_catch (updateEvent_try event)
    (λ msg, pure (mkResult false ("Error updating event: " +:+ msg))).

Definition deleteEvent_try (params : option Key) : M Result :=
  match params with
  | None => pure (mkResult false "No delete parameters.")
  | Some o =>
      getSheet;;
      lastRow <- Service.getLastRow;
      if (lastRow <? 2)%nat then pure (mkResult false "No events to delete.")
      else
        rg <- Service.getRange 2 1 (lastRow - 1) (length REQUIRED_HEADERS);
        data <- Service.getValues rg;
        match findIndex o data with
        | None => pure (mkResult false "Event not found.")
        | Some idx =>
            Service.deleteRow (idx + 2);;
            pure (mkResult true "Event deleted.")
        end
  end.

Definition deleteEvent (params : option Key) : M Result :=
  try_catch (deleteEvent_try params)
    (λ msg, pure (mkResult false ("Error deleting event: " +:+ msg))).

(** ** Notions used to state the properties *)

(** The world with sheet [g] and no fault planned. *)
Definition quiet (g : grid) : World := mkWorld (Some g) [].

(** The header row of the sheet over the required width. *)
Definition headerRow (g : grid) : list value :=
  Sheet.row g 1 (length REQUIRED_HEADERS).

Definition requiredCells : list value := VStr <$> REQUIRED_HEADERS.

(** The cells of a migrated sheet: the required header over the old
    one, the placeholder in front of the [n] data rows, every old cell
    one column to the right. *)
Definition migratedCell (g : grid) (n i j : nat) : value :=
  match i, j with
  | 0, _ =>
      if decide (j < 7) then default Sheet.blank (requiredCells !! j)
      else Sheet.cell0 g 0 (pred j)
  | S _, 0 => if decide (i ≤ n) then VStr "Timeline 1" else Sheet.blank
  | S _, S j' => Sheet.cell0 g i j'
  end.

(** The sheet that [getSheet] leaves when the service does not fail: a
    header written on an empty sheet, a legacy sheet migrated, a wrong or
    short header rewritten, any other sheet as it is. *)
Definition ensureSchema (g : grid) : grid :=
  if Sheet.lastRow g =? 0 then Sheet.write g 1 1 [requiredCells]
  else
    let h := normalized (headerRow g) in
    if isOld h then
      let g2 := Sheet.write (Sheet.insertColumn 1 g) 1 1 [requiredCells] in
      if 0 <? Sheet.lastRow g2 - 1 then
        Sheet.write g2 2 1 (replicate (Sheet.lastRow g2 - 1) [VStr "Timeline 1"])
      else g2
    else if headersDiffer h || (Sheet.lastColumn g <? length REQUIRED_HEADERS) then
      Sheet.write g 1 1 [requiredCells]
    else g.

(** The abbreviation as the specification words it: the trimmed name is
    split on runs of white space into its tokens, the words (maximal runs
    of characters that are not white space, so none is empty), and the
    upper-cased first characters of the words are put together with no
    separator. *)
Definition flush (tok : string) : list string :=
  match tok with
  | EmptyString => []
  | _ => [tok]
  end.

Fixpoint words_go (tok : string) (s : string) : list string :=
  match s with
  | EmptyString => flush tok
  | String c s' =>
      if Js.is_space c then flush tok ++ words_go EmptyString s'
      else words_go (tok +:+ String c EmptyString) s'
  end.

Definition words (s : string) : list string := words_go EmptyString s.

Definition firstUpper (w : string) : string :=
  match w with
  | EmptyString => EmptyString
  | String c _ => String (Js.toUpperCase c) EmptyString
  end.

Definition abbreviation_spec (name : string) : string :=
  Js.join (firstUpper <$> words (Js.trim name)).

(** The words of a text over any alphabet, for a white space class
    [is_space]. *)
Module Words.

Section Words.

Context {char : Type}.
Variable is_space : char → bool.

Definition flush (tok : list char) : list (list char) :=
  match tok with
  | [] => []
  | _ => [tok]
  end.

Fixpoint words_go (tok : list char) (s : list char) : list (list char) :=
  match s with
  | [] => flush tok
  | c :: s' =>
      if is_space c then flush tok ++ words_go [] s'
      else words_go (tok ++ [c]) s'
  end.

Definition words (s : list char) : list (list char) := words_go [] s.

(** A word: not empty, and free of white space. *)
Definition word (w : list char) : Prop :=
  w ≠ [] ∧ Forall (λ c, is_space c = false) w.

End Words.

End Words.

(** Texts in front of and behind a numeral: white space only, and no
    digit at the head. *)
Definition blank (s : string) : bool :=
  forallb Js.is_space (list_ascii_of_string s).

Definition digit_head (s : string) : bool :=
  match s with
  | EmptyString => false
  | String c _ => bool_decide (is_Some (Js.digit_val c))
  end.

(** The seven cells of sheet row [r], and the rows the script reads as
    data: rows 2 to the last row. *)
Definition dataRow (g : grid) (r : nat) : list value :=
  Sheet.row g r (length REQUIRED_HEADERS).

Definition dataRows (g : grid) : grid :=
  Sheet.read g (Sheet.mkRange 2 1 (Sheet.lastRow g - 1) (length REQUIRED_HEADERS)).

(** Sheet row [r] is the topmost data row that matches the key [o]. *)
Definition firstMatch (o : Key) (g : grid) (r : nat) : Prop :=
  2 ≤ r ≤ Sheet.lastRow g
  ∧ matchesKey o (dataRow g r) = true
  ∧ ∀ r', 2 ≤ r' < r → matchesKey o (dataRow g r') = false.

(** No data row matches the key [o]. *)
Definition noMatch (o : Key) (g : grid) : Prop :=
  ∀ r, 2 ≤ r ≤ Sheet.lastRow g → matchesKey o (dataRow g r) = false.

(** An update request with one of its new values replaced. *)
Definition with_timelineName (event : UpdateData) (v : value) : UpdateData :=
  mkUpdateData (original event) v (up_name event) (up_year event) (up_era event)
    (up_description event).

Definition with_name (event : UpdateData) (v : value) : UpdateData :=
  mkUpdateData (original event) (up_timelineName event) v (up_year event)
    (up_era event) (up_description event).

Definition with_year (event : UpdateData) (v : value) : UpdateData :=
  mkUpdateData (original event) (up_timelineName event) (up_name event) v
    (up_era event) (up_description event).

Definition with_era (event : UpdateData) (v : value) : UpdateData :=
  mkUpdateData (original event) (up_timelineName event) (up_name event)
    (up_year event) v (up_description event).

(** The events decoded from the data rows, in row order. *)
Definition decodedRows (g : grid) : list Event := decodeRow <$> dataRows g.

(** The year an event is sorted by: the operand of the comparator,
    [a.numericYear || 0], as a number, with [NaN] read as 0. *)
Definition yearKey (ev : Event) : Z :=
  default 0%Z (Js.toNumber (Js.or (ev_numericYear ev) (VNum 0))).

(** A numericYear cell that holds a number or nothing. *)
Definition numericOrAbsent (v : value) : bool :=
  match v with
  | VNum _ | VNull => true
  | VStr s => String.eqb s ""
  | VUndef | VBool _ => false
  end.

(** A group of the map, extended by the events [l] pushed to it. *)
Definition pushed (o : option (list Event)) (l : list Event) : option (list Event) :=
  match o, l with
  | None, [] => None
  | _, _ => Some (default [] o ++ l)
  end.

(** The part of the fault plan used between two worlds. *)
Definition used (w w' : World) (l : list (option string)) : Prop :=
  faults w = l ++ faults w'.

Definition no_failure (l : list (option string)) : Prop := Forall (eq None) l.

(** A computation lets service failures through: it returns only when no
    service call failed, and the first failing call ends it at once with
    the service's own message.  It may also raise an error of its own
    while no service call has failed. *)
Definition propagates {A} (m : M A) : Prop :=
  ∀ w,
    match m w with
    | Ok _ w' => ∃ l, used w w' l ∧ no_failure l
    | Throw msg w' =>
        ∃ l, no_failure l ∧ (used w w' (l ++ [Some msg]) ∨ used w w' l)
    end.

(** An entry point catches everything: it always returns a result, and
    when a service call failed with [msg] the result is the failure whose
    message is [prefix] followed by [msg]. *)
Definition catches (prefix : string) (m : M Result) : Prop :=
  ∀ w,
    ∃ r w', m w = Ok r w'
            ∧ ∃ l, no_failure l
                   ∧ (used w w' l
                      ∨ ∃ msg, used w w' (l ++ [Some msg])
                               ∧ r = mkResult false (prefix +:+ msg)).

(** *** Notions of the further properties *)

(** The values [addEvent] derives from its request. *)
Definition requestTimeline (ed : EventData) : string :=
  Js.toStr (Js.or (ed_timelineName ed) (VStr "Timeline 1")).

Definition requestName (ed : EventData) : string :=
  Js.trim (Js.toStr (Js.or (ed_name ed) (VStr ""))).

Definition requestEra (ed : EventData) : string :=
  Js.toStr (Js.or (ed_era ed) (VStr "CE")).

Definition requestDescription (ed : EventData) : string :=
  Js.toStr (Js.or (ed_description ed) (VStr "")).

(** A request on which the conversions of [addEvent] are the
    runtime's: no field that is converted to a string holds a number
    that is not a safe integer, and the name is ASCII text. *)
Definition plainRequest (ed : EventData) : bool :=
  Js.exact (ed_timelineName ed) && Js.exact (ed_name ed)
  && Js.exact (ed_era ed) && Js.exact (ed_description ed)
  && Js.is_ascii (requestName ed).

(** The row [addEvent] appends for a request whose year parses as [y]. *)
Definition appendedRow (ed : EventData) (y : Z) : list value :=
  [VStr (requestTimeline ed); VStr (requestName ed); VNum y;
   VStr (requestEra ed);
   VNum (if decide (requestEra ed = "BC") then - Z.abs y else Z.abs y)%Z;
   VStr (makeAbbreviation (VStr (requestName ed)));
   VStr (requestDescription ed)].

(** The cells of a data row that are derived from others hold what the
    script would derive: the numeric year from year and era, the
    abbreviation from the name. *)
Definition derivedCells (cells : list value) : Prop :=
  at_index cells 4
  = VNum (computeNumericYear (at_index cells 2) (at_index cells 3))
  ∧ at_index cells 5 = VStr (makeAbbreviation (at_index cells 1)).

(** The identifiers under which the event of an [addEvent] request is
    stored. *)
Definition requestKey (ed : EventData) (y : Z) : Key :=
  mkKey (VStr (requestTimeline ed)) (VStr (requestName ed)) (VNum y)
    (VStr (requestEra ed)).

(** The event that the grouped read decodes from the row appended by
    [addEvent]. *)
Definition requestEvent (ed : EventData) (y : Z) : Event :=
  mkEvent (VStr (requestName ed)) (VNum y) (VStr (requestEra ed))
    (VNum (if decide (requestEra ed = "BC") then - Z.abs y else Z.abs y)%Z)
    (VStr (makeAbbreviation (VStr (requestName ed))))
    (VStr (requestDescription ed)) (requestTimeline ed).

(** The world in which an outcome leaves the script. *)
Definition outcomeWorld {A} (o : Outcome A) : World :=
  match o with
  | Ok _ w | Throw _ w => w
  end.

(** [m], started on sheet [g] under any fault plan, either returns a
    value and a sheet that satisfy [Q], or throws with the sheet still
    [g]. *)
Definition keeps {A} (g : grid) (m : M A) (Q : A → option grid → Prop) : Prop :=
  ∀ fs,
    match m (mkWorld (Some g) fs) with
    | Ok a w' => Q a (sheet w')
    | Throw _ w' => sheet w' = Some g
    end.

(** A failed result means that the sheet still is [g]. *)
Definition unchangedOnFailure (g : grid) (res : Result) (s : option grid) : Prop :=
  success res = false → s = Some g.

(** ** Facts about the JavaScript primitives *)

Section ParseInt.
Local Open Scope Z_scope.

Lemma digit_val_pretty_char (d : N) :
  (d < 10)%N → Js.digit_val (pretty_N_char d) = Some (Z.of_N d).
Proof.
  intros Hd.
  assert (d = 0 ∨ d = 1 ∨ d = 2 ∨ d = 3 ∨ d = 4 ∨ d = 5 ∨ d = 6
          ∨ d = 7 ∨ d = 8 ∨ d = 9)%N as Hcases by lia.
  repeat (destruct Hcases as [-> | Hcases]; [reflexivity |]).
  subst d. reflexivity.
Qed.

Lemma pretty_char_plain (d : N) :
  (d < 10)%N →
  Js.is_space (pretty_N_char d) = false
  ∧ pretty_N_char d ≠ "-"%char ∧ pretty_N_char d ≠ "+"%char.
Proof.
  intros Hd.
  assert (d = 0 ∨ d = 1 ∨ d = 2 ∨ d = 3 ∨ d = 4 ∨ d = 5 ∨ d = 6
          ∨ d = 7 ∨ d = 8 ∨ d = 9)%N as Hcases by lia.
  repeat (destruct Hcases as [-> | Hcases]; [by repeat split |]).
  subst d. by repeat split.
Qed.

(** Reading back the digits printed for a positive number: the
    accumulator is shifted by a power of ten and the number added. *)
Lemma digits_go_pretty (x : N) :
  (0 < x)%N →
  ∃ p : Z, ∀ acc s,
    Js.digits_go acc (pretty_N_go x s)
    = Js.digits_go (Some (p * default 0 acc + Z.of_N x)) s.
Proof.
  induction (N.lt_wf_0 x) as [x _ IH]; intros Hx.
  assert (x `mod` 10 < 10)%N as Hm by (apply N.mod_lt; lia).
  pose proof (N.div_mod x 10 ltac:(lia)) as Hdm.
  destruct (decide (x `div` 10 = 0)%N) as [Hq | Hq].
  - exists 10. intros acc s.
    rewrite pretty_N_go_step, Hq, pretty_N_go_0 by done. simpl.
    rewrite digit_val_pretty_char by done.
    do 2 f_equal. lia.
  - destruct (IH (x `div` 10)%N) as [p Hp].
    { apply N.div_lt; lia. }
    { lia. }
    exists (10 * p). intros acc s.
    rewrite pretty_N_go_step, Hp by done. simpl.
    rewrite digit_val_pretty_char by done.
    do 2 f_equal. lia.
Qed.

Lemma pretty_go_head (x : N) (s : string) :
  (0 < x)%N →
  ∃ d rest, (d < 10)%N ∧ pretty_N_go x s = String (pretty_N_char d) rest.
Proof.
  revert s. induction (N.lt_wf_0 x) as [x _ IH]; intros s Hx.
  rewrite pretty_N_go_step by done.
  destruct (decide (x `div` 10 = 0)%N) as [Hq | Hq].
  - rewrite Hq, pretty_N_go_0. eexists _, _. split; [| done].
    apply N.mod_lt; lia.
  - apply IH; [apply N.div_lt; lia | by apply N.neq_0_lt_0].
Qed.

(** A string that starts with a digit is parsed from its first
    character on; behind a minus sign the result is negated. *)
Lemma parseInt_string_plain (c : ascii) (rest : string) :
  Js.is_space c = false → c ≠ "-"%char → c ≠ "+"%char →
  Js.parseInt_string (String c rest) = Js.digits_go None (String c rest)
  ∧ Js.parseInt_string (String "-" (String c rest))
    = Z.opp <$> Js.digits_go None (String c rest).
Proof.
  intros Hsp Hminus Hplus. unfold Js.parseInt_string.
  cbn [Js.trimStart]. rewrite Hsp. split; [| reflexivity].
  destruct c as [[] [] [] [] [] [] [] []]; done.
Qed.

Lemma parseInt_string_pos (x : positive) :
  Js.parseInt_string (pretty (Npos x)) = Some (Zpos x)
  ∧ Js.parseInt_string ("-" +:+ pretty (Npos x)) = Some (Zneg x).
Proof.
  unfold pretty, pretty_N. rewrite decide_False by done.
  destruct (pretty_go_head (Npos x) "" ltac:(lia)) as (d & rest & Hd & Heq).
  destruct (pretty_char_plain d Hd) as (Hsp & Hminus & Hplus).
  destruct (digits_go_pretty (Npos x) ltac:(lia)) as [p Hp].
  specialize (Hp None ""). simpl in Hp.
  destruct (parseInt_string_plain _ rest Hsp Hminus Hplus) as [H1 H2].
  rewrite Heq in *. change ("-" +:+ ?s) with (String "-" s).
  rewrite H1, H2, Hp. replace (p * 0 + Z.pos x) with (Z.pos x) by lia.
  done.
Qed.

(** An integer passed to [parseInt] comes back unchanged. *)
Lemma parseInt_num (n : Z) : Js.parseInt (VNum n) = Some n.
Proof.
  unfold Js.parseInt. simpl. destruct n as [| x | x].
  - reflexivity.
  - apply parseInt_string_pos.
  - apply parseInt_string_pos.
Qed.

Lemma parseInt_bool (b : bool) : Js.parseInt (VBool b) = None.
Proof. by destruct b. Qed.

End ParseInt.

(** ** Facts about the grid *)

Section Grid.

Import Sheet.

Lemma extent_le {A} (p : A → bool) (l : list A) (n : nat) :
  extent p l ≤ n ↔ ∀ i x, l !! i = Some x → n ≤ i → p x = true.
Proof.
  revert n. induction l as [| y l IH]; intros n; simpl.
  - split; [intros _ i x Hi; by rewrite lookup_nil in Hi | lia].
  - destruct (extent p l) as [| k] eqn:Hk.
    + split.
      * intros Hn [| i] x Hi Hle; simplify_eq/=.
        { destruct (p x); [done | lia]. }
        apply (proj1 (IH 0) ltac:(lia) i x Hi). lia.
      * intros H. destruct (p y) eqn:Hy; [lia |].
        destruct n; [| lia]. by rewrite (H 0 y) in Hy.
    + split.
      * intros Hn [| i] x Hi Hle; simplify_eq/=; [lia |].
        apply (proj1 (IH (pred n)) ltac:(lia) i x Hi). lia.
      * intros H. destruct n as [| n].
        { assert (S k ≤ 0); [| lia].
          apply IH. intros i x Hi _. apply (H (S i) x Hi). lia. }
        assert (S k ≤ n); [| lia].
        apply IH. intros i x Hi Hle. apply (H (S i) x Hi). lia.
Qed.

Lemma extent_witness {A} (p : A → bool) (l : list A) (n : nat) :
  extent p l = S n → ∃ x, l !! n = Some x ∧ p x = false.
Proof.
  revert n. induction l as [| y l IH]; intros n; simpl; [done |].
  destruct (extent p l) as [| k] eqn:Hk.
  - destruct (p y) eqn:Hy; [done |]. intros [= <-]. eauto.
  - intros [= <-]. destruct (IH k eq_refl) as (x & Hx & Hp). eauto.
Qed.

Lemma is_blank_cellAt_nil j : is_blank (cellAt [] j) = true.
Proof. done. Qed.

Lemma blank_row_spec (cells : list value) :
  blank_row cells = true ↔ ∀ j, is_blank (cellAt cells j) = true.
Proof.
  unfold blank_row, cellAt. rewrite forallb_forall. split.
  - intros H j. destruct (cells !! j) as [x |] eqn:Hj; [| done].
    apply H, list_elem_of_In, list_elem_of_lookup. eauto.
  - intros H x [j Hj]%list_elem_of_In%list_elem_of_lookup.
    specialize (H j). by rewrite Hj in H.
Qed.

Lemma lastRow_le (g : grid) (n : nat) :
  lastRow g ≤ n ↔ ∀ i j, n ≤ i → is_blank (cell0 g i j) = true.
Proof.
  unfold lastRow, cell0, rowAt. rewrite extent_le. split.
  - intros H i j Hle. destruct (g !! i) as [cells |] eqn:Hi; [| done].
    by apply blank_row_spec, (H i).
  - intros H i cells Hi Hle. apply blank_row_spec. intros j.
    specialize (H i j Hle). by rewrite Hi in H.
Qed.

Lemma lastRow_witness (g : grid) (n : nat) :
  lastRow g = S n → ∃ j, is_blank (cell0 g n j) = false.
Proof.
  intros (cells & Hn & Hb)%extent_witness.
  unfold cell0, rowAt. rewrite Hn. simpl. clear Hn.
  unfold blank_row in Hb.
  induction cells as [| x cells IH]; simpl in Hb; [done |].
  destruct (is_blank x) eqn:Hx.
  - destruct (IH Hb) as [j Hj]. by exists (S j).
  - by exists 0.
Qed.
Lemma lastRow_eq (g : grid) (n : nat) :
  (∀ i j, n ≤ i → is_blank (cell0 g i j) = true) →
  (n = 0 ∨ ∃ j, is_blank (cell0 g (pred n) j) = false) →
  lastRow g = n.
Proof.
  intros Hle%lastRow_le Hex. destruct Hex as [-> | [j Hj]]; [lia |].
  destruct (decide (lastRow g ≤ pred n)) as [Hlt | ?]; [| lia].
  rewrite lastRow_le in Hlt. rewrite Hlt in Hj; [done | lia].
Qed.

Lemma lastRow_gt (g : grid) (i j : nat) :
  is_blank (cell0 g i j) = false → i < lastRow g.
Proof.
  intros Hj. destruct (decide (lastRow g ≤ i)) as [Hle | ?]; [| lia].
  rewrite lastRow_le in Hle. rewrite Hle in Hj; [done | lia].
Qed.

Lemma cell0_cons_0 (cells : list value) (g : grid) j :
  cell0 (cells :: g) 0 j = cellAt cells j.
Proof. done. Qed.

Lemma cell0_cons_S (cells : list value) (g : grid) i j :
  cell0 (cells :: g) (S i) j = cell0 g i j.
Proof. done. Qed.

Lemma lastColumn_le (g : grid) (m : nat) :
  lastColumn g ≤ m ↔ ∀ i j, m ≤ j → is_blank (cell0 g i j) = true.
Proof.
  unfold lastColumn. induction g as [| cells g IH]; simpl.
  - split; [done | lia].
  - rewrite Nat.max_lub_iff, IH, extent_le. split.
    + intros [Hrow Hg] [| i] j Hle; [| by apply Hg].
      rewrite cell0_cons_0. unfold cellAt.
      destruct (cells !! j) eqn:Hj; [by eapply Hrow | done].
    + intros H. split.
      * intros j x Hj Hle. specialize (H 0 j Hle).
        rewrite cell0_cons_0 in H. unfold cellAt in H. by rewrite Hj in H.
      * intros i j Hle. by apply (H (S i)).
Qed.

Lemma lastColumn_witness (g : grid) (m : nat) :
  lastColumn g = S m → ∃ i, is_blank (cell0 g i m) = false.
Proof.
  unfold lastColumn. induction g as [| cells g IH]; simpl; [done |].
  intros Hmax.
  destruct (Nat.max_dec (extent is_blank cells)
              (foldr (λ c m0, extent is_blank c `max` m0) 0 g)) as [He | He];
    rewrite He in Hmax.
  - apply extent_witness in Hmax as (x & Hx & Hb).
    exists 0. rewrite cell0_cons_0. unfold cellAt. by rewrite Hx.
  - destruct (IH Hmax) as [i Hi]. by exists (S i).
Qed.

Lemma lastColumn_eq (g : grid) (m : nat) :
  (∀ i j, m ≤ j → is_blank (cell0 g i j) = true) →
  (m = 0 ∨ ∃ i, is_blank (cell0 g i (pred m)) = false) →
  lastColumn g = m.
Proof.
  intros Hle%lastColumn_le Hex. destruct Hex as [-> | [i Hi]]; [lia |].
  destruct (decide (lastColumn g ≤ pred m)) as [Hlt | ?]; [| lia].
  rewrite lastColumn_le in Hlt. rewrite Hlt in Hi; [done | lia].
Qed.

(** Reading a spliced list. *)
Lemma splice_lookup {A} (d : A) (k : nat) (new old : list A) (i : nat) :
  default d (splice d k new old !! i)
  = if decide (i < k) then default d (old !! i)
    else default (default d (old !! i)) (new !! (i - k)).
Proof.
  unfold splice. case_decide as Hlt.
  - rewrite lookup_app_l by (rewrite length_resize; lia).
    destruct (decide (i < length old)).
    + by rewrite lookup_resize by lia.
    + rewrite lookup_resize_new by lia.
      by rewrite (lookup_ge_None_2 old) by lia.
  - rewrite lookup_app_r by (rewrite length_resize; lia).
    rewrite length_resize.
    destruct (decide (i - k < length new)).
    + rewrite lookup_app_l by lia.
      by destruct (lookup_lt_is_Some_2 new (i - k) ltac:(lia)) as [x ->].
    + rewrite lookup_app_r by lia.
      rewrite (lookup_ge_None_2 new) by lia. simpl.
      rewrite lookup_drop. do 2 f_equal. lia.
Qed.

Lemma rowAt_write (g : grid) (r c : nat) (vss : grid) (i : nat) :
  rowAt (write g r c vss) i
  = if decide (pred r ≤ i) then
      match vss !! (i - pred r) with
      | Some vs => write_row (pred c) vs (rowAt g i)
      | None => rowAt g i
      end
    else rowAt g i.
Proof.
  unfold write, rowAt at 1. rewrite splice_lookup.
  case_decide; case_decide; try lia; [done |].
  rewrite list_lookup_imap.
  destruct (vss !! (i - pred r)); simpl; [| done].
  do 2 f_equal. lia.
Qed.

Lemma cell0_write (g : grid) (r c : nat) (vss : grid) (i j : nat) :
  cell0 (write g r c vss) i j
  = if decide (pred r ≤ i ∧ pred c ≤ j) then
      default (cell0 g i j) (vss !! (i - pred r) ≫= λ vs, vs !! (j - pred c))
    else cell0 g i j.
Proof.
  unfold cell0. rewrite rowAt_write.
  destruct (decide (pred r ≤ i)); [| by rewrite decide_False by lia].
  destruct (vss !! (i - pred r)) as [vs |]; simpl.
  - unfold write_row, cellAt at 1. rewrite splice_lookup.
    repeat case_decide; done || lia.
  - by case_decide.
Qed.

Lemma cell0_insertColumn (g : grid) (i j : nat) :
  cell0 (insertColumn 1 g) i j
  = match j with 0 => blank | S j' => cell0 g i j' end.
Proof.
  unfold cell0, rowAt, insertColumn. rewrite list_lookup_fmap.
  destruct (g !! i); simpl; by destruct j.
Qed.

Lemma cell0_deleteRow (g : grid) (r i j : nat) :
  cell0 (deleteRow r g) i j
  = if decide (i < pred r) then cell0 g i j else cell0 g (S i) j.
Proof.
  unfold cell0, rowAt, deleteRow. case_decide.
  - by rewrite list_lookup_delete_lt.
  - by rewrite list_lookup_delete_ge by lia.
Qed.

Lemma length_read (g : grid) (rg : Range) :
  length (read g rg) = rg_rows rg.
Proof. unfold read. by rewrite length_fmap, length_resize. Qed.

Lemma read_lookup (g : grid) (r c nr nc i : nat) :
  i < nr →
  read g (mkRange r c nr nc) !! i
  = Some (resize nc blank (drop (pred c) (rowAt g (pred r + i)))).
Proof.
  intros Hi. unfold read, rowAt. simpl. rewrite list_lookup_fmap.
  destruct (decide (i < length (drop (pred r) g))) as [Hlt | Hge].
  - rewrite lookup_resize by lia. rewrite lookup_drop.
    rewrite length_drop in Hlt.
    by destruct (lookup_lt_is_Some_2 g (pred r + i) ltac:(lia)) as [x ->].
  - rewrite lookup_resize_new by lia. rewrite length_drop in Hge.
    by rewrite (lookup_ge_None_2 g) by lia.
Qed.

(** A range that starts in column 1 reads whole row prefixes. *)
Lemma read_rows (g : grid) (r nr nc : nat) :
  0 < r →
  read g (mkRange r 1 nr nc) = (λ i, row g (r + i) nc) <$> seq 0 nr.
Proof.
  intros Hr. apply list_eq. intros i. rewrite list_lookup_fmap.
  destruct (decide (i < nr)) as [Hi | Hi].
  - rewrite read_lookup by done. rewrite lookup_seq_lt by done. simpl.
    unfold row. rewrite drop_0. do 3 f_equal. lia.
  - rewrite lookup_seq_ge by lia.
    apply lookup_ge_None_2. rewrite length_read. simpl. lia.
Qed.

Lemma cellAt_row (g : grid) (r width j : nat) :
  cellAt (row g r width) j
  = if decide (j < width) then cell g r (S j) else blank.
Proof.
  unfold row, cell, cell0, cellAt. simpl. case_decide.
  - destruct (decide (j < length (rowAt g (pred r)))).
    + by rewrite lookup_resize by lia.
    + rewrite lookup_resize_new by lia.
      by rewrite (lookup_ge_None_2 (rowAt _ _)) by lia.
  - by rewrite lookup_resize_old by lia.
Qed.

Lemma length_row (g : grid) (r width : nat) : length (row g r width) = width.
Proof. apply length_resize. Qed.

End Grid.

(** ** Running the script when the service does not fail *)

Global Arguments Service.getActiveSpreadsheet : simpl never.
Global Arguments Service.getSheetByName : simpl never.
Global Arguments Service.insertSheet : simpl never.
Global Arguments Service.getLastRow : simpl never.
Global Arguments Service.getLastColumn : simpl never.
Global Arguments Service.getRange : simpl never.
Global Arguments Service.getValues : simpl never.
Global Arguments Service.setValues : simpl never.
Global Arguments Service.setValue : simpl never.
Global Arguments Service.insertColumnBefore : simpl never.
Global Arguments Service.appendRow : simpl never.
Global Arguments Service.deleteRow : simpl never.

Section Run.

Lemma bind_unfold {A B} (m : M A) (k : A → M B) (w : World) :
  bind m k w
  = match m w with Ok a w' => k a w' | Throw msg w' => Throw msg w' end.
Proof. reflexivity. Qed.

Lemma bind_ok {A B} (m : M A) (k : A → M B) (w w' : World) (a : A) :
  m w = Ok a w' → bind m k w = k a w'.
Proof. intros H. by rewrite bind_unfold, H. Qed.

Lemma run_pure {A} (a : A) (w : World) : pure a w = Ok a w.
Proof. reflexivity. Qed.

Lemma run_call {A} (f : grid → string + A * grid) (g : grid) :
  call f (quiet g)
  = match f g with
    | inl msg => Throw msg (quiet g)
    | inr (a, g') => Ok a (quiet g')
    end.
Proof. reflexivity. Qed.

Lemma run_getActiveSpreadsheet g :
  Service.getActiveSpreadsheet (quiet g) = Ok tt (quiet g).
Proof. reflexivity. Qed.

Lemma run_getSheetByName g :
  Service.getSheetByName (quiet g) = Ok true (quiet g).
Proof. reflexivity. Qed.

Lemma run_getLastRow g :
  Service.getLastRow (quiet g) = Ok (Sheet.lastRow g) (quiet g).
Proof. reflexivity. Qed.

Lemma run_getLastColumn g :
  Service.getLastColumn (quiet g) = Ok (Sheet.lastColumn g) (quiet g).
Proof. reflexivity. Qed.

Lemma run_getRange g r c nr nc :
  0 < r → 0 < c → 0 < nr → 0 < nc →
  Service.getRange r c nr nc (quiet g) = Ok (Sheet.mkRange r c nr nc) (quiet g).
Proof.
  intros. unfold Service.getRange. rewrite run_call.
  destruct r, c, nr, nc; done || lia.
Qed.

Lemma run_getValues g rg :
  Service.getValues rg (quiet g) = Ok (Sheet.read g rg) (quiet g).
Proof. reflexivity. Qed.

Lemma run_setValues g rg vss :
  Sheet.shape_ok rg vss = true →
  Service.setValues rg vss (quiet g)
  = Ok tt (quiet (Sheet.write g (Sheet.rg_row rg) (Sheet.rg_col rg) vss)).
Proof. intros H. unfold Service.setValues. by rewrite run_call, H. Qed.

Lemma run_setValue g rg v :
  Service.setValue rg v (quiet g)
  = Ok tt (quiet (Sheet.write g (Sheet.rg_row rg) (Sheet.rg_col rg)
                    (replicate (Sheet.rg_rows rg)
                       (replicate (Sheet.rg_cols rg) v)))).
Proof. reflexivity. Qed.

Lemma run_insertColumnBefore g c :
  0 < c →
  Service.insertColumnBefore c (quiet g) = Ok tt (quiet (Sheet.insertColumn c g)).
Proof.
  intros. unfold Service.insertColumnBefore. rewrite run_call. by destruct c; [lia |].
Qed.

Lemma run_appendRow g vs :
  Service.appendRow vs (quiet g)
  = Ok tt (quiet (Sheet.write g (S (Sheet.lastRow g)) 1 [vs])).
Proof. reflexivity. Qed.

Lemma run_deleteRow g r :
  0 < r → Service.deleteRow r (quiet g) = Ok tt (quiet (Sheet.deleteRow r g)).
Proof.
  intros. unfold Service.deleteRow. rewrite run_call. by destruct r; [lia |].
Qed.

End Run.

(** One step of a run: the first service call of the script is replaced
    by its result. *)
Ltac run_step :=
  rewrite ?bind_unfold;
  first
    [ rewrite run_pure
    | rewrite run_getActiveSpreadsheet
    | rewrite run_getSheetByName
    | rewrite run_getLastRow
    | rewrite run_getLastColumn
    | rewrite run_getValues
    | rewrite run_setValue
    | rewrite run_appendRow
    | rewrite run_getRange by (simpl; lia)
    | rewrite run_insertColumnBefore by lia
    | rewrite run_deleteRow by lia
    | rewrite run_setValues by done ];
  cbv beta iota.

(** ** The schema manager: [getSheet] *)

Section Schema.

Import Sheet.

Lemma headers_read (g : grid) (n : nat) :
  length REQUIRED_HEADERS ≤ n →
  take (length REQUIRED_HEADERS) (default [] (read g (mkRange 1 1 1 n) !! 0))
  = headerRow g.
Proof.
  intros Hn. rewrite read_rows by lia. simpl.
  unfold headerRow, row. by rewrite take_resize_le.
Qed.

Lemma cell_of_row (g : grid) (r width j : nat) (v : value) :
  row g r width !! j = Some v → cell g r (S j) = v.
Proof.
  intros Hj. pose proof (cellAt_row g r width j) as Hc.
  unfold cellAt at 1 in Hc. rewrite Hj in Hc. simpl in Hc.
  apply lookup_lt_Some in Hj. rewrite length_row in Hj.
  by rewrite decide_True in Hc by done.
Qed.

Lemma lastColumn_gt (g : grid) (i j : nat) :
  is_blank (cell0 g i j) = false → j < lastColumn g.
Proof.
  intros Hj. destruct (decide (lastColumn g ≤ j)) as [Hle | ?]; [| lia].
  rewrite lastColumn_le in Hle. rewrite Hle in Hj; [done | lia].
Qed.

(** A sheet under the required header is left as it is. *)
Lemma getSheet_required (g : grid) :
  headerRow g = VStr <$> REQUIRED_HEADERS →
  getSheet (quiet g) = Ok tt (quiet g).
Proof.
  intros Hh. unfold getSheet.
  assert (row g 1 7 = VStr <$> REQUIRED_HEADERS) as Hh' by exact Hh.
  assert (0 < lastRow g) as Hrow.
  { apply (lastRow_gt g 0 0). change (cell0 g 0 0) with (cell g 1 1).
    by rewrite (cell_of_row g 1 7 0 (VStr "TimelineName")) by by rewrite Hh'. }
  assert (6 < lastColumn g) as Hcol.
  { apply (lastColumn_gt g 0 6). change (cell0 g 0 6) with (cell g 1 7).
    by rewrite (cell_of_row g 1 7 6 (VStr "Description")) by by rewrite Hh'. }
  do 4 run_step. run_step.
  destruct (Nat.eqb_spec (lastRow g) 0) as [? | _]; [lia |].
  do 2 run_step.
  rewrite headers_read by lia. rewrite Hh.
  change (isOld (normalized (VStr <$> REQUIRED_HEADERS))) with false.
  change (headersDiffer (normalized (VStr <$> REQUIRED_HEADERS))) with false.
  cbv beta iota. do 2 run_step.
  destruct (Nat.ltb_spec (lastColumn g) (length REQUIRED_HEADERS)) as [Hlt | _].
  { simpl in Hlt. lia. }
  reflexivity.
Qed.

Lemma cell0_write_header (g : grid) (i j : nat) :
  cell0 (write g 1 1 [requiredCells]) i j
  = if decide (i = 0 ∧ j < 7) then default blank (requiredCells !! j)
    else cell0 g i j.
Proof.
  rewrite cell0_write. change (pred 1) with 0.
  rewrite decide_True by lia. rewrite !Nat.sub_0_r.
  case_decide as Hd.
  - destruct Hd as [-> Hj].
    by destruct (lookup_lt_is_Some_2 requiredCells j Hj) as [v Hv]; simpl; rewrite Hv.
  - destruct i as [| i]; [| done]. simpl.
    by rewrite (lookup_ge_None_2 requiredCells) by (simpl; lia).
Qed.

Lemma cell0_fill_column (g : grid) (n : nat) (v : value) (i j : nat) :
  cell0 (write g 2 1 (replicate n [v])) i j
  = if decide (1 ≤ i ≤ n ∧ j = 0) then v else cell0 g i j.
Proof.
  rewrite cell0_write. change (pred 1) with 0. change (pred 2) with 1.
  rewrite Nat.sub_0_r.
  destruct (decide (1 ≤ i ≤ n)) as [Hi | Hi].
  - rewrite decide_True by lia.
    rewrite lookup_replicate_2 by lia.
    destruct j; [by rewrite decide_True by lia |].
    by rewrite decide_False by lia.
  - rewrite (decide_False (P := 1 ≤ i ≤ n ∧ _)) by lia.
    case_decide; [| done].
    by rewrite (lookup_ge_None_2 (replicate n [v])) by (rewrite length_replicate; lia).
Qed.

Lemma row_ext (g : grid) (r width : nat) (cells : list value) :
  length cells = width →
  (∀ j v, cells !! j = Some v → cell g r (S j) = v) →
  row g r width = cells.
Proof.
  intros Hlen Hcells. apply list_eq_same_length with width;
    [done | apply length_row |].
  intros j x y Hj Hx Hy. apply cell_of_row in Hx.
  apply Hcells in Hy. congruence.
Qed.

Lemma legacy_header (g : grid) :
  row g 1 6 = VStr <$> OLD_HEADERS →
  ∃ x, headerRow g = (VStr <$> OLD_HEADERS) ++ [x].
Proof.
  intros Hold. unfold headerRow.
  rewrite <- (take_drop 6 (row g 1 (length REQUIRED_HEADERS))).
  unfold row at 1. rewrite take_resize_le by (simpl; lia).
  fold (row g 1 6). rewrite Hold.
  pose proof (length_drop (row g 1 (length REQUIRED_HEADERS)) 6) as Hlen.
  rewrite length_row in Hlen. simpl in Hlen.
  destruct (drop 6 _) as [| x [| ? ?]]; simplify_eq/=. by exists x.
Qed.

Lemma lastRow_migrating (g : grid) (n : nat) :
  lastRow g = S n →
  lastRow (write (insertColumn 1 g) 1 1 [requiredCells]) = S n.
Proof.
  intros Hlast. apply lastRow_eq.
  - intros i j Hi. rewrite cell0_write_header, decide_False by lia.
    rewrite cell0_insertColumn. destruct j; [done |].
    apply lastRow_le with (S n); lia.
  - right. simpl. destruct n as [| n].
    + exists 0. by rewrite cell0_write_header.
    + destruct (lastRow_witness g (S n) Hlast) as [j Hj].
      exists (S j). rewrite cell0_write_header, decide_False by lia.
      by rewrite cell0_insertColumn.
Qed.

Lemma getSheet_legacy (g : grid) (n : nat) :
  row g 1 6 = VStr <$> OLD_HEADERS →
  lastRow g = S n →
  ∃ g', getSheet (quiet g) = Ok tt (quiet g')
        ∧ ∀ i j, cell0 g' i j = migratedCell g n i j.
Proof.
  intros Hold Hlast. unfold getSheet.
  destruct (legacy_header g Hold) as [x Hh].
  do 4 run_step. run_step. rewrite Hlast.
  change (S n =? 0) with false. cbv iota.
  do 2 run_step. rewrite headers_read by lia. rewrite Hh.
  assert (isOld (normalized ((VStr <$> OLD_HEADERS) ++ [x])) = true) as ->
    by reflexivity.
  do 3 run_step. simpl rg_row. simpl rg_col. run_step.
  fold requiredCells. rewrite (lastRow_migrating g n Hlast).
  replace (S n - 1) with n by lia.
  destruct n as [| n].
  - change (0 <? 0) with false. cbv iota. eexists. split; [reflexivity |].
    intros i j. rewrite cell0_write_header, cell0_insertColumn.
    unfold migratedCell. destruct i as [| i].
    + case_decide as Hd; case_decide; try lia; [done |].
      destruct j; [lia | done].
    + rewrite decide_False by lia. destruct j; [| done].
      by rewrite decide_False by lia.
  - change (0 <? S n) with true. cbv iota. run_step. rewrite run_setValue.
    eexists. split; [reflexivity |].
    intros i j. simpl rg_row. simpl rg_col. simpl rg_rows. simpl rg_cols.
    change (replicate 1 ?v) with [v].
    rewrite cell0_fill_column, cell0_write_header, cell0_insertColumn.
    unfold migratedCell. destruct i as [| i].
    + rewrite decide_False by lia.
      case_decide as Hd; case_decide; try lia; [done |].
      destruct j; [lia | done].
    + rewrite (decide_False (P := S i = 0 ∧ _)) by lia. destruct j.
      * case_decide; case_decide; done || lia.
      * by rewrite decide_False by lia.
Qed.

Lemma migrated_header (g g' : grid) (n : nat) :
  (∀ i j, cell0 g' i j = migratedCell g n i j) →
  headerRow g' = VStr <$> REQUIRED_HEADERS.
Proof.
  intros Hcell. apply row_ext; [done |]. intros j v Hj.
  unfold cell. simpl. rewrite Hcell. unfold migratedCell.
  pose proof (lookup_lt_Some _ _ _ Hj) as Hlt. simpl in Hlt.
  fold requiredCells in Hj. by rewrite decide_True, Hj by done.
Qed.

(** The migration runs once: the sheet it leaves is under the required
    header, and the next call changes nothing. *)
Lemma migration_runs_once (g : grid) (n : nat) :
  row g 1 6 = VStr <$> OLD_HEADERS →
  lastRow g = S n →
  ∃ g', getSheet (quiet g) = Ok tt (quiet g')
        ∧ getSheet (quiet g') = Ok tt (quiet g').
Proof.
  intros Hold Hlast.
  destruct (getSheet_legacy g n Hold Hlast) as (g' & Hrun & Hcell).
  exists g'. split; [done |].
  apply getSheet_required. by eapply migrated_header.
Qed.

(** [getSheet] on any sheet, when the service does not fail. *)
Lemma run_getSheet (g : grid) :
  getSheet (quiet g) = Ok tt (quiet (ensureSchema g)).
Proof.
  unfold getSheet, ensureSchema. do 4 run_step. run_step.
  destruct (lastRow g =? 0) eqn:Hrow.
  - run_step. by rewrite run_setValues.
  - do 2 run_step. rewrite headers_read by lia.
    destruct (isOld (normalized (headerRow g))).
    + do 3 run_step. simpl rg_row. simpl rg_col. run_step.
      fold requiredCells.
      destruct (0 <? lastRow (write (insertColumn 1 g) 1 1 [requiredCells]) - 1)
        eqn:Hdata; [| reflexivity].
      apply Nat.ltb_lt in Hdata. run_step. rewrite run_setValue. reflexivity.
    + destruct (headersDiffer (normalized (headerRow g))); cbn [orb].
      * do 2 run_step. by rewrite run_setValues.
      * do 2 run_step.
        destruct (lastColumn g <? length REQUIRED_HEADERS); [| reflexivity].
        run_step. by rewrite run_setValues.
Qed.

Lemma header_written (g : grid) :
  headerRow (write g 1 1 [requiredCells]) = VStr <$> REQUIRED_HEADERS.
Proof.
  apply row_ext; [done |]. intros j v Hj.
  pose proof (lookup_lt_Some _ _ _ Hj) as Hlt. simpl in Hlt.
  unfold cell. simpl. rewrite cell0_write_header, decide_True by lia.
  fold requiredCells in Hj. by rewrite Hj.
Qed.

Lemma lastRow_header_written (g : grid) :
  lastRow (write g 1 1 [requiredCells]) = 1 `max` lastRow g.
Proof.
  apply lastRow_eq.
  - intros i j Hi. rewrite cell0_write_header, decide_False by lia.
    apply (lastRow_le g (lastRow g)); lia.
  - right. destruct (lastRow g) as [| [| n]] eqn:Hlast.
    + exists 0. by rewrite cell0_write_header.
    + exists 0. by rewrite cell0_write_header.
    + destruct (lastRow_witness g (S n) Hlast) as [j Hj]. exists j.
      replace (pred (1 `max` S (S n))) with (S n) by lia.
      by rewrite cell0_write_header, decide_False by lia.
Qed.

Lemma lastRow_column_filled (g : grid) (n : nat) (v : value) :
  lastRow g = S (S n) → is_blank v = false →
  lastRow (write g 2 1 (replicate (S n) [v])) = S (S n).
Proof.
  intros Hlast Hv. apply lastRow_eq.
  - intros i j Hi. rewrite cell0_fill_column, decide_False by lia.
    apply (lastRow_le g (S (S n))); lia.
  - right. exists 0. change (pred (S (S n))) with (S n).
    by rewrite cell0_fill_column, decide_True by lia.
Qed.

(** The schema check keeps the number of rows, and leaves a header row
    on an empty sheet. *)
Lemma lastRow_ensureSchema (g : grid) :
  lastRow (ensureSchema g) = 1 `max` lastRow g.
Proof.
  unfold ensureSchema. destruct (Nat.eqb_spec (lastRow g) 0) as [Hz | Hnz].
  - apply lastRow_header_written.
  - destruct (lastRow g) as [| n] eqn:Hlast; [done |].
    destruct (isOld _).
    + rewrite (lastRow_migrating g n Hlast). replace (S n - 1) with n by lia.
      destruct n as [| n].
      * change (0 <? 0) with false. cbv iota.
        apply (lastRow_migrating g 0 Hlast).
      * change (0 <? S n) with true. cbv iota.
        rewrite (lastRow_column_filled _ n); [lia | | done].
        apply (lastRow_migrating g (S n) Hlast).
    + destruct (_ || _).
      * rewrite lastRow_header_written, Hlast. lia.
      * lia.
Qed.

(** Calling [getSheet] twice in a row: the second call changes nothing,
    whatever the sheet was. *)
Lemma getSheet_idempotent (g : grid) :
  getSheet (quiet (ensureSchema g)) = Ok tt (quiet (ensureSchema g)).
Proof.
  unfold ensureSchema.
  destruct (lastRow g =? 0) eqn:Hrow.
  { apply getSheet_required, header_written. }
  destruct (isOld (normalized (headerRow g))) eqn:Hold.
  - destruct (0 <? _) eqn:Hdata.
    + apply getSheet_required. apply row_ext; [done |]. intros j v Hj.
      pose proof (lookup_lt_Some _ _ _ Hj) as Hlt. simpl in Hlt.
      unfold cell. simpl.
      rewrite cell0_fill_column, decide_False by lia.
      rewrite cell0_write_header, decide_True by lia.
      fold requiredCells in Hj. by rewrite Hj.
    + apply getSheet_required, header_written.
  - destruct (_ || _) eqn:Hneed.
    + apply getSheet_required, header_written.
    + rewrite run_getSheet. unfold ensureSchema. by rewrite Hrow, Hold, Hneed.
Qed.

(** Under the required header the schema check is the identity. *)
Lemma ensureSchema_required (g : grid) :
  headerRow g = VStr <$> REQUIRED_HEADERS → ensureSchema g = g.
Proof.
  intros Hh. pose proof (run_getSheet g) as Hrun.
  rewrite (getSheet_required g Hh) in Hrun. unfold quiet in Hrun.
  by simplify_eq.
Qed.

Example getSheet_creates :
  getSheet (mkWorld None []) = Ok tt (quiet [VStr <$> REQUIRED_HEADERS]).
Proof. by vm_compute. Qed.

End Schema.

Example abbr_ex1 : makeAbbreviation (VStr "  the  second temple ") = "TST".
Proof. vm_compute. reflexivity. Qed.

Example parse_ex1 : Js.parseInt (VStr "  -42abc") = Some (-42)%Z.
Proof. vm_compute. reflexivity. Qed.

Example parse_ex2 : Js.parseInt (VNum (-1205)) = Some (-1205)%Z.
Proof. vm_compute. reflexivity. Qed.

Example string_ex1 : Js.toStr (VNum (-1205)) = "-1205".
Proof. vm_compute. reflexivity. Qed.

(** * Properties of the script *)

(** ** Schema management *)

(** C7: on a table whose header row already is the required seven-column
    header, [getSheet] changes nothing; the sheet after the call (header,
    data rows, numbers of rows and columns) is the sheet before it. *)
Theorem C7_getSheet_idempotent (g : grid) :
  headerRow g = VStr <$> REQUIRED_HEADERS →
  getSheet (quiet g) = Ok tt (quiet g).
Proof. apply getSheet_required. Qed.

Lemma C7_getSheet_idempotent_witness :
  let g := [VStr <$> REQUIRED_HEADERS;
            [VStr "Kings"; VStr "First Temple"; VNum 960; VStr "BC";
             VNum (-960); VStr "FT"; VStr "built"]] in
  headerRow g = VStr <$> REQUIRED_HEADERS
  ∧ getSheet (quiet g) = Ok tt (quiet g).
Proof.
  split; [reflexivity |].
  apply C7_getSheet_idempotent. reflexivity.
Defined.

(** C1: a table in the legacy layout (the six legacy labels in its header
    row, six columns) with [N] data rows is migrated by one call of
    [getSheet]: it then has seven columns, the required header, the
    placeholder "Timeline 1" in the first cell of each of the [N] data
    rows, and still [N] data rows; every old data cell has moved one
    column to the right. *)
Theorem C1_legacy_migration (g : grid) (N : nat) :
  Sheet.row g 1 6 = VStr <$> OLD_HEADERS →
  Sheet.lastColumn g = 6 →
  Sheet.lastRow g = S N →
  ∃ g', getSheet (quiet g) = Ok tt (quiet g')
        ∧ Sheet.lastColumn g' = 7
        ∧ headerRow g' = VStr <$> REQUIRED_HEADERS
        ∧ (∀ r, 2 ≤ r ≤ S N → Sheet.cell g' r 1 = VStr "Timeline 1")
        ∧ Sheet.lastRow g' = S N
        ∧ (∀ r c, 2 ≤ r → 1 ≤ c → Sheet.cell g' r (S c) = Sheet.cell g r c).
Proof.
  intros Hold Hcols Hrows.
  destruct (getSheet_legacy g N Hold Hrows) as (g' & Hrun & Hcell).
  exists g'. split; [done |]. repeat split.
  - apply lastColumn_eq.
    + intros i j Hj. rewrite Hcell. unfold migratedCell.
      destruct i as [| i].
      * rewrite decide_False by lia. apply lastColumn_le with 6; lia.
      * destruct j as [| j]; [lia |]. apply lastColumn_le with 6; lia.
    + right. exists 0. by rewrite Hcell.
  - by eapply migrated_header.
  - intros r Hr. unfold Sheet.cell. rewrite Hcell.
    destruct r as [| [| r]]; [lia | lia |]. simpl.
    by rewrite decide_True by lia.
  - apply lastRow_eq.
    + intros i j Hi. rewrite Hcell. unfold migratedCell.
      destruct i as [| i]; [lia |]. destruct j as [| j].
      * by rewrite decide_False by lia.
      * apply lastRow_le with (S N); lia.
    + right. simpl. exists 0. rewrite Hcell. destruct N as [| n]; [done |].
      simpl. by rewrite decide_True by lia.
  - intros r c Hr Hc. unfold Sheet.cell. rewrite Hcell.
    destruct r as [| [| r]]; [lia | lia |]. by destruct c; [lia |].
Qed.

Lemma C1_legacy_migration_witness :
  let g := [VStr <$> OLD_HEADERS;
            [VStr "Exodus"; VNum 1446; VStr "BC"; VNum (-1446); VStr "E";
             VStr "left Egypt"];
            [VStr "First Temple"; VNum 960; VStr "BC"; VNum (-960);
             VStr "FT"]] in
  ∃ g', getSheet (quiet g) = Ok tt (quiet g')
        ∧ Sheet.lastColumn g' = 7
        ∧ headerRow g' = VStr <$> REQUIRED_HEADERS
        ∧ (∀ r, 2 ≤ r ≤ 3 → Sheet.cell g' r 1 = VStr "Timeline 1")
        ∧ Sheet.lastRow g' = 3
        ∧ (∀ r c, 2 ≤ r → 1 ≤ c → Sheet.cell g' r (S c) = Sheet.cell g r c).
Proof.
  apply (C1_legacy_migration _ 2); reflexivity.
Defined.

(** ** The record codec *)

Section Abbreviation.

Lemma join_initial_flush (tok : string) (l : list string) :
  Js.join (initial <$> (tok :: l)) = Js.join (firstUpper <$> (flush tok ++ l)).
Proof. by destruct tok. Qed.

Lemma join_initial_firstUpper (l : list string) :
  Js.join (initial <$> l) = Js.join (firstUpper <$> l).
Proof. reflexivity. Qed.

Lemma append_assoc (s1 s2 s3 : string) :
  (s1 +:+ s2) +:+ s3 = s1 +:+ (s2 +:+ s3).
Proof.
  induction s1 as [| c s1 IH]; [done |].
  change (String c ((s1 +:+ s2) +:+ s3) = String c (s1 +:+ (s2 +:+ s3))).
  by rewrite IH.
Qed.

Lemma join_app (l1 l2 : list string) :
  Js.join (l1 ++ l2) = Js.join l1 +:+ Js.join l2.
Proof.
  induction l1 as [| w l1 IH]; [done |].
  change (w +:+ Js.join (l1 ++ l2) = (w +:+ Js.join l1) +:+ Js.join l2).
  by rewrite IH, append_assoc.
Qed.

(** The tokens of [split] give the initials of the words. *)
Lemma split_ws_go_words (tok : string) (skipping : bool) (s : string) :
  (skipping = true → tok = EmptyString) →
  Js.join (initial <$> Js.split_ws_go tok skipping s)
  = Js.join (firstUpper <$> words_go tok s).
Proof.
  revert tok skipping. induction s as [| c s IH]; intros tok skipping Hskip.
  - simpl. by destruct tok.
  - simpl. destruct (Js.is_space c).
    + destruct skipping.
      * rewrite (Hskip eq_refl). simpl. by apply IH.
      * rewrite join_initial_flush. rewrite !fmap_app, !join_app.
        f_equal. rewrite <- (IH EmptyString true) by done.
        apply join_initial_firstUpper.
    + by apply IH.
Qed.

Lemma words_go_trimStart (s : string) :
  words_go EmptyString (Js.trimStart s) = words_go EmptyString s.
Proof.
  induction s as [| c s IH]; [done |]. simpl.
  destruct (Js.is_space c) eqn:Hc; [done |]. simpl. by rewrite Hc.
Qed.

Lemma words_go_trimEnd (tok s : string) :
  words_go tok (Js.trimEnd s) = words_go tok s.
Proof.
  revert tok. induction s as [| c s IH]; intros tok; [done |]. simpl.
  destruct (Js.trimEnd s) as [| c' t] eqn:Ht.
  - destruct (Js.is_space c) eqn:Hc; simpl.
    + rewrite <- IH. simpl. by rewrite app_nil_r.
    + rewrite Hc. by rewrite <- IH.
  - simpl. destruct (Js.is_space c) eqn:Hc.
    + by rewrite <- IH.
    + by rewrite <- IH.
Qed.

Lemma words_trim (s : string) : words (Js.trim s) = words s.
Proof.
  unfold words, Js.trim. by rewrite words_go_trimEnd, words_go_trimStart.
Qed.

End Abbreviation.

(** The abbreviation over any alphabet. *)

Section Text_facts.

Context {char : Type}.
Variable is_space : char → bool.
Variable toUpperCase : char → list char.

Lemma text_concat_flush (tok : list char) (l : list (list char)) :
  concat (Text.initial toUpperCase <$> (tok :: l))
  = concat (Text.initial toUpperCase <$> (Words.flush tok ++ l)).
Proof. by destruct tok. Qed.

(** The tokens of the split and the words differ in empty tokens only,
    which contribute no initial. *)
Lemma text_split_words (tok : list char) (skipping : bool) (s : list char) :
  (skipping = true → tok = []) →
  concat (Text.initial toUpperCase <$> Text.split_ws_go is_space tok skipping s)
  = concat (Text.initial toUpperCase <$> Words.words_go is_space tok s).
Proof.
  revert tok skipping. induction s as [| c s IH]; intros tok skipping Hskip.
  - simpl. by destruct tok.
  - simpl. destruct (is_space c).
    + destruct skipping.
      * rewrite (Hskip eq_refl). simpl. by apply IH.
      * rewrite text_concat_flush, !fmap_app, !concat_app.
        f_equal. by apply (IH [] true).
    + by apply IH.
Qed.

Lemma text_words_trimStart (s : list char) :
  Words.words_go is_space [] (Text.trimStart is_space s)
  = Words.words_go is_space [] s.
Proof.
  induction s as [| c s IH]; [done |]. simpl.
  destruct (is_space c) eqn:Hc; [done |]. simpl. by rewrite Hc.
Qed.

Lemma text_words_trimEnd (tok s : list char) :
  Words.words_go is_space tok (Text.trimEnd is_space s)
  = Words.words_go is_space tok s.
Proof.
  revert tok. induction s as [| c s IH]; intros tok; [done |]. simpl.
  destruct (Text.trimEnd is_space s) as [| c' t] eqn:Ht.
  - destruct (is_space c) eqn:Hc; simpl.
    + rewrite <- IH. simpl. by rewrite app_nil_r.
    + rewrite Hc. by rewrite <- IH.
  - simpl. destruct (is_space c) eqn:Hc; by rewrite <- IH.
Qed.

Lemma text_words_trim (s : list char) :
  Words.words is_space (Text.trim is_space s) = Words.words is_space s.
Proof.
  unfold Words.words, Text.trim.
  by rewrite text_words_trimEnd, text_words_trimStart.
Qed.

Lemma text_makeAbbreviation (name : list char) :
  Text.makeAbbreviation is_space toUpperCase name
  = concat (Text.initial toUpperCase
              <$> Words.words is_space (Text.trim is_space name)).
Proof.
  unfold Text.makeAbbreviation.
  destruct name as [| c name]; [done |].
  unfold Text.split_ws. by rewrite text_split_words.
Qed.

Lemma text_flush_word (tok : list char) :
  Forall (λ c, is_space c = false) tok →
  Forall (Words.word is_space) (Words.flush tok).
Proof.
  intros Htok. destruct tok as [| c tok]; [constructor |].
  by apply Forall_singleton.
Qed.

Lemma text_words_go_word (tok s : list char) :
  Forall (λ c, is_space c = false) tok →
  Forall (Words.word is_space) (Words.words_go is_space tok s).
Proof.
  revert tok. induction s as [| c s IH]; intros tok Htok; simpl.
  - by apply text_flush_word.
  - destruct (is_space c) eqn:Hc.
    + apply Forall_app. split; [by apply text_flush_word | by apply IH].
    + apply IH, Forall_app. split; [done | by apply Forall_singleton].
Qed.

(** The text is its words in order, between runs of white space. *)
Lemma text_words_go_filter (tok s : list char) :
  Forall (λ c, is_space c = false) tok →
  concat (Words.words_go is_space tok s)
  = tok ++ filter (λ c, is_space c = false) s.
Proof.
  revert tok. induction s as [| c s IH]; intros tok Htok; simpl.
  - destruct tok; simpl; by rewrite ?app_nil_r.
  - destruct (is_space c) eqn:Hc.
    + rewrite concat_app, IH by done. rewrite filter_cons_False by congruence.
      destruct tok; simpl; by rewrite ?app_nil_r.
    + rewrite IH by (apply Forall_app; split; [done | by apply Forall_singleton]).
      rewrite filter_cons_True by done. by rewrite <- app_assoc.
Qed.

End Text_facts.

(** The helpers of the script are those of [Text] on the characters of
    the model. *)
Section Text_link.

Lemma chars_append (s t : string) :
  list_ascii_of_string (s +:+ t) = list_ascii_of_string s ++ list_ascii_of_string t.
Proof. induction s as [| c s IH]; [done |]. simpl. by rewrite <- IH. Qed.

Lemma link_trimStart (s : string) :
  list_ascii_of_string (Js.trimStart s)
  = Text.trimStart Js.is_space (list_ascii_of_string s).
Proof.
  induction s as [| c s IH]; [done |]. simpl. by destruct (Js.is_space c).
Qed.

Lemma link_trimEnd (s : string) :
  list_ascii_of_string (Js.trimEnd s)
  = Text.trimEnd Js.is_space (list_ascii_of_string s).
Proof.
  induction s as [| c s IH]; [done |]. simpl. rewrite <- IH.
  destruct (Js.trimEnd s); simpl; [by destruct (Js.is_space c) | done].
Qed.

Lemma link_trim (s : string) :
  list_ascii_of_string (Js.trim s) = Text.trim Js.is_space (list_ascii_of_string s).
Proof. unfold Js.trim, Text.trim. by rewrite link_trimEnd, link_trimStart. Qed.

Lemma link_split (tok : string) (skipping : bool) (s : string) :
  list_ascii_of_string <$> Js.split_ws_go tok skipping s
  = Text.split_ws_go Js.is_space (list_ascii_of_string tok) skipping
      (list_ascii_of_string s).
Proof.
  revert tok skipping. induction s as [| c s IH]; intros tok skipping; [done |].
  simpl. destruct (Js.is_space c).
  - destruct skipping; [apply IH |]. rewrite fmap_cons. f_equal. apply (IH "").
  - rewrite IH. by rewrite chars_append.
Qed.

Lemma link_join (l : list string) :
  list_ascii_of_string (Js.join l) = concat (list_ascii_of_string <$> l).
Proof.
  induction l as [| w l IH]; [done |]. rewrite fmap_cons. simpl.
  by rewrite <- IH, <- chars_append.
Qed.

Lemma link_initial (w : string) :
  list_ascii_of_string (initial w)
  = Text.initial (λ c, [Js.toUpperCase c]) (list_ascii_of_string w).
Proof. by destruct w. Qed.

Lemma link_makeAbbreviation (name : string) :
  makeAbbreviation (VStr name)
  = string_of_list_ascii
      (Text.makeAbbreviation Js.is_space (λ c, [Js.toUpperCase c])
         (list_ascii_of_string name)).
Proof.
  rewrite <- (string_of_list_ascii_of_string (makeAbbreviation (VStr name))).
  f_equal. destruct name as [| c name]; [done |].
  unfold makeAbbreviation, Text.makeAbbreviation.
  change (negb (Js.truthy (VStr (String c name)))) with false.
  cbv iota. change (Js.toStr (VStr ?s)) with s.
  change (list_ascii_of_string (String c name)) with (c :: list_ascii_of_string name).
  cbv iota.
  change (c :: list_ascii_of_string name) with (list_ascii_of_string (String c name)).
  rewrite link_join, <- link_trim.
  unfold Text.split_ws, Js.split_ws.
  assert (Text.split_ws_go Js.is_space [] false
            (list_ascii_of_string (Js.trim (String c name)))
          = list_ascii_of_string <$> Js.split_ws_go "" false (Js.trim (String c name)))
    as -> by (symmetry; apply (link_split "")).
  change map with (@fmap list _). rewrite <- !list_fmap_compose.
  f_equal. apply list_fmap_ext. intros i w _. simpl. apply link_initial.
Qed.

End Text_link.

(** C8: for every alphabet, white space class and upper-casing,
    [makeAbbreviation] on a string yields the upper-cased first
    characters of the words of the trimmed name, put together with no
    separator.  The words are those of the untrimmed name as well; each
    is non-empty and free of white space, and together they hold the
    characters of the name that are not white space, in order.  The
    empty name gives the empty abbreviation.  [makeAbbreviation] of the
    model is this function with the ASCII white space and upper-casing;
    on a name in ASCII text it is the abbreviation of the specification
    with the words of [Js], and the three documented values hold. *)
Theorem C8_makeAbbreviation {char : Type} (is_space : char → bool)
    (toUpperCase : char → list char) (name : list char) :
  Text.makeAbbreviation is_space toUpperCase name
  = concat (Text.initial toUpperCase
              <$> Words.words is_space (Text.trim is_space name))
  ∧ Words.words is_space (Text.trim is_space name) = Words.words is_space name
  ∧ Forall (Words.word is_space) (Words.words is_space name)
  ∧ concat (Words.words is_space name) = filter (λ c, is_space c = false) name
  ∧ Text.makeAbbreviation is_space toUpperCase [] = []
  ∧ (∀ s : string,
       makeAbbreviation (VStr s)
       = string_of_list_ascii
           (Text.makeAbbreviation Js.is_space (λ c, [Js.toUpperCase c])
              (list_ascii_of_string s)))
  ∧ (∀ s : string,
       Js.is_ascii s = true →
       makeAbbreviation (VStr s) = abbreviation_spec s
       ∧ abbreviation_spec s = Js.join (firstUpper <$> words s))
  ∧ makeAbbreviation (VStr "First Temple") = "FT"
  ∧ makeAbbreviation (VStr "") = ""
  ∧ makeAbbreviation (VStr "robert") = "R".
Proof.
  split_and!; try reflexivity.
  - apply text_makeAbbreviation.
  - apply text_words_trim.
  - by apply text_words_go_word.
  - by apply (text_words_go_filter is_space []).
  - apply link_makeAbbreviation.
  - intros s _. split.
    + unfold makeAbbreviation, abbreviation_spec. simpl.
      destruct (String.eqb_spec s "") as [-> | _]; [done |]. simpl.
      unfold Js.split_ws. rewrite split_ws_go_words by done. done.
    + unfold abbreviation_spec. by rewrite words_trim.
Qed.

(** With code units for characters, the no-break space (160) in the
    white space class and an upper-casing that turns the sharp s (223)
    into two letters: the name of two words, the first starting with a
    sharp s, is abbreviated to three characters. *)
Example abbr_units :
  Text.makeAbbreviation
    (λ u : N, bool_decide (u ∈ [9; 10; 11; 12; 13; 32; 160]%N))
    (λ u : N, if decide (u = 223%N) then [83; 83]%N
              else if decide (97 ≤ u ≤ 122)%N then [(u - 32)%N] else [u])
    [223; 116; 160; 160; 97; 98]%N
  = [83; 83; 65]%N.
Proof. reflexivity. Qed.

Lemma computeNumericYear_unfold (year era : value) :
  computeNumericYear year era
  = match Js.parseInt year with
    | Some y => if decide (era = VStr "BC") then (- Z.abs y)%Z else Z.abs y
    | None => 0%Z
    end.
Proof.
  unfold computeNumericYear, Js.strict_eq.
  destruct (Js.parseInt year); [| done]. by case_bool_decide; case_decide.
Qed.

(** What [parseInt] reads. *)

Section ParseInt_text.
Local Open Scope Z_scope.

Lemma trimStart_blank (ws t : string) :
  blank ws = true → Js.trimStart (ws +:+ t) = Js.trimStart t.
Proof.
  induction ws as [| c ws IH]; [done |]. unfold blank. simpl.
  intros [Hc Hws]%andb_prop. rewrite Hc. by apply IH.
Qed.

Lemma pretty_N_go_append (x : N) (s : string) :
  pretty_N_go x s = pretty_N_go x "" +:+ s.
Proof.
  revert s. induction (N.lt_wf_0 x) as [x _ IH]; intros s.
  destruct (decide (x = 0)%N) as [-> | Hx].
  - by rewrite !pretty_N_go_0.
  - rewrite !(pretty_N_go_step x) by lia.
    rewrite (IH (x `div` 10)%N) by (apply N.div_lt; lia).
    rewrite (IH (x `div` 10)%N ltac:(apply N.div_lt; lia) (String _ "")).
    by rewrite append_assoc.
Qed.

Lemma digits_go_stop (acc : option Z) (rest : string) :
  digit_head rest = false → Js.digits_go acc rest = acc.
Proof.
  destruct rest as [| c rest]; [done |]. simpl.
  destruct (Js.digit_val c); [| done].
  intros Hd. apply bool_decide_eq_false in Hd. by destruct Hd.
Qed.

(** The decimal digits of a positive number, with anything but a digit
    behind them, are read back as the number. *)
Lemma parseInt_string_digits (x : positive) (rest : string) :
  digit_head rest = false →
  Js.parseInt_string (pretty (Npos x) +:+ rest) = Some (Zpos x)
  ∧ Js.parseInt_string ("-" +:+ pretty (Npos x) +:+ rest) = Some (Zneg x).
Proof.
  intros Hrest. unfold pretty, pretty_N. rewrite decide_False by done.
  rewrite <- pretty_N_go_append.
  destruct (pretty_go_head (Npos x) rest ltac:(lia)) as (d & r & Hd & Heq).
  destruct (pretty_char_plain d Hd) as (Hsp & Hminus & Hplus).
  destruct (digits_go_pretty (Npos x) ltac:(lia)) as [p Hp].
  specialize (Hp None rest). simpl in Hp.
  destruct (parseInt_string_plain _ r Hsp Hminus Hplus) as [H1 H2].
  rewrite Heq in *. change ("-" +:+ ?s) with (String "-" s).
  rewrite H1, H2, Hp, (digits_go_stop _ _ Hrest).
  replace (p * 0 + Z.pos x) with (Z.pos x) by lia. done.
Qed.

Lemma trimStart_pretty (n : Z) (rest : string) :
  Js.trimStart (pretty n +:+ rest) = pretty n +:+ rest.
Proof.
  destruct n as [| x | x]; [done | |].
  - change (pretty (Z.pos x)) with (pretty (N.pos x)).
    unfold pretty, pretty_N. rewrite decide_False by done.
    rewrite <- pretty_N_go_append.
    destruct (pretty_go_head (Npos x) rest ltac:(lia)) as (d & r & Hd & Heq).
    destruct (pretty_char_plain d Hd) as (Hsp & _). rewrite Heq. simpl.
    by rewrite Hsp.
  - done.
Qed.

(** [parseInt] reads a numeral in decimal digits, behind white space and
    in front of anything but a digit, as its number. *)
Lemma parseInt_string_numeral (n : Z) (ws rest : string) :
  blank ws = true → digit_head rest = false →
  Js.parseInt_string (ws +:+ pretty n +:+ rest) = Some n.
Proof.
  intros Hws Hrest. unfold Js.parseInt_string.
  rewrite (trimStart_blank _ _ Hws), trimStart_pretty.
  pose proof (λ s, trimStart_pretty n s) as Htrim.
  destruct n as [| x | x].
  - change (pretty 0 +:+ rest) with (String "0" rest). simpl.
    by rewrite (digits_go_stop _ _ Hrest).
  - destruct (parseInt_string_digits x rest Hrest) as [H _].
    unfold Js.parseInt_string in H.
    change (pretty (Z.pos x)) with (pretty (N.pos x)).
    change (pretty (Z.pos x)) with (pretty (N.pos x)) in Htrim.
    by rewrite Htrim in H.
  - destruct (parseInt_string_digits x rest Hrest) as [_ H].
    unfold Js.parseInt_string in H.
    change (pretty (Z.neg x)) with ("-" +:+ pretty (N.pos x)).
    by rewrite <- append_assoc in H.
Qed.

(** A text that, behind its white space, starts with neither a sign nor
    a digit is no number. *)
Lemma parseInt_string_other (s : string) (c : ascii) (r : string) :
  Js.trimStart s = String c r → c ≠ "-"%char → c ≠ "+"%char →
  Js.digit_val c = None → Js.parseInt_string s = None.
Proof.
  intros Hs Hminus Hplus Hd. unfold Js.parseInt_string. rewrite Hs.
  assert (Js.digits_go None (String c r) = None) as Hgo by (simpl; by rewrite Hd).
  destruct c as [[] [] [] [] [] [] [] []]; done.
Qed.

End ParseInt_text.

(** C2: for a plain year (a safe integer, ASCII text, a boolean, null
    or undefined) and a safe integer [y], the numeric year is minus the
    absolute value of [y] when the year parses as [y] and the era is
    exactly the string "BC", the absolute value of [y] for any other
    era, and 0 when the year does not parse.  The year parses as [y]
    when it is the number [y], or a text that holds the decimal digits
    of [y] behind white space and in front of anything but a digit; it
    does not parse when it is undefined, null, a boolean, or an ASCII
    text that is blank or starts, behind its white space, with neither
    a sign nor a digit. *)
Theorem C2_computeNumericYear (year era : value) (y : Z) :
  Js.plain year = true →
  Js.safe y = true →
  (Js.parseInt year = Some y →
   computeNumericYear year era
   = if decide (era = VStr "BC") then (- Z.abs y)%Z else Z.abs y)
  ∧ (Js.parseInt year = None → computeNumericYear year era = 0%Z)
  ∧ computeNumericYear (VNum y) era
    = (if decide (era = VStr "BC") then (- Z.abs y)%Z else Z.abs y)
  ∧ (∀ ws rest : string,
       blank ws = true → digit_head rest = false →
       computeNumericYear (VStr (ws +:+ pretty y +:+ rest)) era
       = if decide (era = VStr "BC") then (- Z.abs y)%Z else Z.abs y)
  ∧ computeNumericYear VUndef era = 0%Z
  ∧ computeNumericYear VNull era = 0%Z
  ∧ (∀ b : bool, computeNumericYear (VBool b) era = 0%Z)
  ∧ (∀ s : string,
       Js.is_ascii s = true → Js.trimStart s = "" →
       computeNumericYear (VStr s) era = 0%Z)
  ∧ (∀ (s : string) (c : ascii) (r : string),
       Js.is_ascii s = true → Js.trimStart s = String c r →
       c ≠ "-"%char → c ≠ "+"%char → Js.digit_val c = None →
       computeNumericYear (VStr s) era = 0%Z).
Proof.
  intros _ _. split_and!.
  - intros Hy. by rewrite computeNumericYear_unfold, Hy.
  - intros Hy. by rewrite computeNumericYear_unfold, Hy.
  - by rewrite computeNumericYear_unfold, parseInt_num.
  - intros ws rest Hws Hrest. rewrite computeNumericYear_unfold.
    unfold Js.parseInt. simpl. by rewrite parseInt_string_numeral.
  - done.
  - done.
  - by intros [].
  - intros s _ Hs. rewrite computeNumericYear_unfold.
    unfold Js.parseInt, Js.parseInt_string. simpl. by rewrite Hs.
  - intros s c r _ Hs Hminus Hplus Hd. rewrite computeNumericYear_unfold.
    unfold Js.parseInt. simpl. by rewrite (parseInt_string_other s c r).
Qed.

Lemma C2_computeNumericYear_witness :
  computeNumericYear (VStr " 586 or so") (VStr "BC") = (-586)%Z
  ∧ computeNumericYear (VNum 586) (VStr "BC") = (-586)%Z
  ∧ computeNumericYear (VStr "about 586") (VStr "BC") = 0%Z.
Proof.
  split_and!.
  - refine (proj1 (C2_computeNumericYear (VStr " 586 or so") (VStr "BC") 586 _ _) _);
      reflexivity.
  - exact (proj1 (proj2 (proj2
             (C2_computeNumericYear (VStr " 586 or so") (VStr "BC") 586 eq_refl eq_refl)))).
  - refine (proj1 (proj2 (C2_computeNumericYear (VStr "about 586") (VStr "BC") 586 _ _)) _);
      reflexivity.
Defined.

Example numericYear_ex1 :
  computeNumericYear (VStr "100") (VStr "BC") = (-100)%Z
  ∧ computeNumericYear (VNum (-44)) (VStr "CE") = 44%Z
  ∧ computeNumericYear (VStr "12th") (VStr "bc") = 12%Z
  ∧ computeNumericYear (VStr "unknown") (VStr "BC") = 0%Z
  ∧ computeNumericYear (VStr "") VUndef = 0%Z.
Proof. by vm_compute. Qed.

(** C4, as the code has it: a row whose timeline cell is the empty
    string or null is decoded into an event of the timeline "Untitled". *)
Theorem C4_decode_absent_timeline (row : list value) :
  at_index row 0 = VStr "" ∨ at_index row 0 = VNull →
  ev_timelineName (decodeRow row) = "Untitled".
Proof. intros [H | H]; unfold decodeRow; by rewrite H. Qed.

Lemma C4_decode_absent_timeline_witness :
  let row := [VStr ""; VStr "Exodus"; VNum 1446; VStr "BC"; VNum (-1446);
              VStr "E"; VStr ""] in
  ev_timelineName (decodeRow row) = "Untitled".
Proof.
  apply C4_decode_absent_timeline. left. reflexivity.
Defined.

(** The claim names the placeholder "Timeline 1" instead: it fails on a
    row with an empty timeline cell, both for the decoded event and for
    the grouped result that [getEventsGrouped] returns. *)
Lemma C4_counterexample :
  let row := [VStr ""; VStr "Exodus"; VNum 1446; VStr "BC"; VNum (-1446);
              VStr "E"; VStr ""] in
  at_index row 0 = VStr ""
  ∧ ev_timelineName (decodeRow row) ≠ "Timeline 1"
  ∧ ∃ r, getEventsGrouped (quiet [VStr <$> REQUIRED_HEADERS; row])
         = Ok r (quiet [VStr <$> REQUIRED_HEADERS; row])
         ∧ timelineNames r = ["Untitled"].
Proof.
  split; [reflexivity |]. split; [by vm_compute |].
  eexists. split; [by vm_compute | reflexivity].
Qed.

(** ** Error handling *)

Section Failures.

Lemma propagates_pure {A} (a : A) : propagates (pure a).
Proof. intros w. exists []. by split; [| constructor]. Qed.

Lemma propagates_throw {A} (msg : string) : propagates (@throw A msg).
Proof. intros w. exists []. split; [constructor | by right]. Qed.

Lemma propagates_tick : propagates tick.
Proof.
  intros [g fs]. unfold tick. simpl. destruct fs as [| [msg |] fs].
  - exists []. by split; [| constructor].
  - exists []. split; [constructor | by left].
  - exists [None]. split; [done | by repeat constructor].
Qed.

Lemma propagates_bind {A B} (m : M A) (k : A → M B) :
  propagates m → (∀ a, propagates (k a)) → propagates (bind m k).
Proof.
  intros Hm Hk w. unfold bind. specialize (Hm w).
  destruct (m w) as [a w1 | msg w1].
  - destruct Hm as (l1 & Hu1 & Hn1). specialize (Hk a w1).
    destruct (k a w1) as [b w2 | msg w2].
    + destruct Hk as (l2 & Hu2 & Hn2). exists (l1 ++ l2).
      unfold used, no_failure in *. rewrite Hu1, Hu2, Forall_app.
      by rewrite (assoc_L app).
    + destruct Hk as (l2 & Hn2 & [Hu2 | Hu2]); exists (l1 ++ l2);
        unfold used, no_failure in *; rewrite Hu1, Hu2, Forall_app;
        (split; [done |]); [left | right]; by rewrite <- ?(assoc_L app).
  - done.
Qed.

(** A step that does not enter the service. *)
Lemma propagates_local {A} (f : World → Outcome A) :
  (∀ w, match f w with
        | Ok _ w' | Throw _ w' => faults w' = faults w
        end) →
  propagates f.
Proof.
  intros Hf w. specialize (Hf w). destruct (f w) as [a w' | msg w'].
  - exists []. unfold used. by split; [| constructor].
  - exists []. unfold used. split; [constructor | by right].
Qed.

Lemma propagates_call {A} (f : grid → string + A * grid) : propagates (call f).
Proof.
  unfold call. apply propagates_bind; [apply propagates_tick |].
  intros _. apply propagates_local. intros w.
  by destruct (f (default [] (sheet w))) as [msg | [a g']].
Qed.

Lemma propagates_getSheetByName : propagates Service.getSheetByName.
Proof.
  unfold Service.getSheetByName. apply propagates_bind; [apply propagates_tick |].
  intros _. by apply propagates_local.
Qed.

Lemma propagates_insertSheet : propagates Service.insertSheet.
Proof.
  unfold Service.insertSheet. apply propagates_bind; [apply propagates_tick |].
  intros _. apply propagates_local. intros w. by destruct (sheet w).
Qed.

End Failures.

(** Breaks a script into its service calls. *)
Ltac propagate :=
  repeat first
    [ apply propagates_pure
    | apply propagates_throw
    | apply propagates_tick
    | apply propagates_call
    | apply propagates_getSheetByName
    | apply propagates_insertSheet
    | apply propagates_bind; [| intros ?]
    | match goal with
      | |- propagates (if ?b then _ else _) => destruct b
      | |- propagates (match ?x with _ => _ end) => destruct x
      end ].

Section Failures_script.

Lemma propagates_getSheet : propagates getSheet.
Proof. unfold getSheet, Service.getActiveSpreadsheet. propagate. Qed.

Lemma propagates_getEventsGrouped : propagates getEventsGrouped.
Proof.
  unfold getEventsGrouped.
  apply propagates_bind; [apply propagates_getSheet | intros _]. propagate.
Qed.

Lemma propagates_getTimelineNames : propagates getTimelineNames.
Proof.
  unfold getTimelineNames.
  apply propagates_bind; [apply propagates_getEventsGrouped | intros ?]. propagate.
Qed.

Lemma propagates_addEvent_try ed : propagates (addEvent_try ed).
Proof.
  unfold addEvent_try. destruct ed as [ed |]; [| propagate].
  destruct (negb _); [propagate |]. destruct (Js.parseInt _); [| propagate].
  apply propagates_bind; [apply propagates_getSheet | intros _]. propagate.
Qed.

Lemma propagates_updateEvent_try ev : propagates (updateEvent_try ev).
Proof.
  unfold updateEvent_try. destruct ev as [ev |]; [| propagate].
  destruct (original ev); [| propagate].
  apply propagates_bind; [apply propagates_getSheet | intros _]. propagate.
Qed.

Lemma propagates_deleteEvent_try o : propagates (deleteEvent_try o).
Proof.
  unfold deleteEvent_try. destruct o; [| propagate].
  apply propagates_bind; [apply propagates_getSheet | intros _]. propagate.
Qed.

Lemma catches_try_catch (prefix : string) (body : M Result) :
  propagates body →
  catches prefix (try_catch body (λ msg, pure (mkResult false (prefix +:+ msg)))).
Proof.
  intros Hbody w. specialize (Hbody w). unfold try_catch.
  destruct (body w) as [r w' | msg w'].
  - destruct Hbody as (l & Hu & Hn). exists r, w'. split; [done |].
    exists l. by split; [| left].
  - destruct Hbody as (l & Hn & [Hu | Hu]); eexists _, w';
      (split; [reflexivity |]); exists l; (split; [done |]).
    + right. by exists msg.
    + by left.
Qed.

End Failures_script.

(** C9: [addEvent], [updateEvent] and [deleteEvent] always return a
    result, and a failure of the spreadsheet service inside them comes
    back as [{success: false}] with the service's message behind the
    entry point's prefix; [getEventsGrouped] and [getTimelineNames] have
    no handler, a service failure inside them ends them with the
    service's own message. *)
Theorem C9_error_handling :
  (∀ eventData, catches "Error adding event: " (addEvent eventData))
  ∧ (∀ event, catches "Error updating event: " (updateEvent event))
  ∧ (∀ params, catches "Error deleting event: " (deleteEvent params))
  ∧ propagates getEventsGrouped
  ∧ propagates getTimelineNames.
Proof.
  repeat split.
  - intros ed. apply catches_try_catch, propagates_addEvent_try.
  - intros ev. apply catches_try_catch, propagates_updateEvent_try.
  - intros o. apply catches_try_catch, propagates_deleteEvent_try.
  - apply propagates_getEventsGrouped.
  - apply propagates_getTimelineNames.
Qed.

(** ** Update and delete on a quiet sheet *)

Section Mutations.

Import Sheet.

Lemma try_catch_ok {A} (body : M A) (handler : string → M A) w w' a :
  body w = Ok a w' → try_catch body handler w = Ok a w'.
Proof. intros H. unfold try_catch. by rewrite H. Qed.

Lemma dataRows_rows (g : grid) :
  dataRows g = (λ i, dataRow g (2 + i)) <$> seq 0 (lastRow g - 1).
Proof. unfold dataRows. by rewrite read_rows by lia. Qed.

Lemma dataRows_lookup (g : grid) (i : nat) :
  i < lastRow g - 1 → dataRows g !! i = Some (dataRow g (i + 2)).
Proof.
  intros Hi. rewrite dataRows_rows, list_lookup_fmap, lookup_seq_lt by done.
  simpl. do 2 f_equal. lia.
Qed.

Lemma dataRows_lookup_Some (g : grid) (i : nat) (cells : list value) :
  dataRows g !! i = Some cells → i < lastRow g - 1 ∧ cells = dataRow g (i + 2).
Proof.
  intros Hi. pose proof (lookup_lt_Some _ _ _ Hi) as Hlt.
  unfold dataRows in Hlt. rewrite length_read in Hlt. simpl in Hlt.
  rewrite dataRows_lookup in Hi by done. by simplify_eq.
Qed.

Lemma findIndex_firstMatch (o : Key) (g : grid) (r : nat) :
  firstMatch o g r → findIndex o (dataRows g) = Some (r - 2).
Proof.
  intros (Hr & Hm & Hfirst). unfold findIndex.
  assert (list_find (λ cells, Is_true (matchesKey o cells)) (dataRows g)
          = Some (r - 2, dataRow g r)) as ->; [| done].
  apply list_find_Some. split_and!.
  - rewrite dataRows_lookup by lia. do 2 f_equal. lia.
  - by rewrite Hm.
  - intros j cells [Hj ->]%dataRows_lookup_Some Hlt.
    rewrite (Hfirst (j + 2)) by lia. by intros [].
Qed.

Lemma findIndex_noMatch (o : Key) (g : grid) :
  noMatch o g → findIndex o (dataRows g) = None.
Proof.
  intros Hno. unfold findIndex.
  assert (list_find (λ cells, Is_true (matchesKey o cells)) (dataRows g) = None)
    as ->; [| done].
  apply list_find_None, Forall_lookup.
  intros i cells [Hi ->]%dataRows_lookup_Some.
  rewrite (Hno (i + 2)) by lia. by intros [].
Qed.

Lemma findIndex_Some (o : Key) (g : grid) (idx : nat) :
  findIndex o (dataRows g) = Some idx → firstMatch o g (idx + 2).
Proof.
  unfold findIndex. intros Hfind.
  destruct (list_find _ _) as [[i cells] |] eqn:Hlf; simplify_eq/=.
  apply list_find_Some in Hlf as (Hi & Hm & Hfirst).
  apply dataRows_lookup_Some in Hi as [Hi ->].
  split_and!; try lia.
  - by apply Is_true_true.
  - intros r' Hr'. apply not_true_is_false. intros Hm'.
    apply (Hfirst (r' - 2) (dataRow g r')); [| lia | by rewrite Hm'].
    rewrite dataRows_lookup by lia. do 2 f_equal. lia.
Qed.

(** A key that matches some data row has a topmost matching row. *)
Lemma firstMatch_exists (o : Key) (g : grid) (r0 : nat) :
  2 ≤ r0 ≤ lastRow g → matchesKey o (dataRow g r0) = true →
  ∃ r, r ≤ r0 ∧ firstMatch o g r.
Proof.
  intros Hr0 Hm0. destruct (findIndex o (dataRows g)) as [idx |] eqn:Hfind.
  - apply findIndex_Some in Hfind. exists (idx + 2). split; [| done].
    destruct Hfind as (_ & _ & Hfirst).
    destruct (decide (idx + 2 ≤ r0)) as [? | Hgt]; [done |].
    rewrite Hfirst in Hm0 by lia. done.
  - unfold findIndex in Hfind.
    destruct (list_find _ _) as [[i cells] |] eqn:Hlf; [done |].
    apply list_find_None in Hlf.
    pose proof (proj1 (Forall_lookup _ _) Hlf (r0 - 2) (dataRow g r0)) as Hno.
    destruct Hno.
    + rewrite dataRows_lookup by lia. do 2 f_equal. lia.
    + by rewrite Hm0.
Qed.

Lemma newValues_length (ev : UpdateData) (cells new : list value) :
  newValues ev cells = Some new → length new = 7.
Proof.
  unfold newValues. destruct (Js.parseInt _); intros; by simplify_eq.
Qed.

Lemma run_updateEvent (g : grid) (ev : UpdateData) (o : Key) (r : nat) :
  original ev = Some o →
  firstMatch o (ensureSchema g) r →
  updateEvent (Some ev) (quiet g)
  = match newValues ev (dataRow (ensureSchema g) r) with
    | None =>
        Ok (mkResult false "Year must be a number.") (quiet (ensureSchema g))
    | Some new =>
        Ok (mkResult true "Event updated successfully.")
          (quiet (write (ensureSchema g) r 1 [new]))
    end.
Proof.
  intros Ho. pose proof (run_getSheet g) as Hsheet. revert Hsheet.
  generalize (ensureSchema g). intros g0 Hsheet Hfm.
  pose proof Hfm as (Hr & _ & _).
  unfold updateEvent, updateEvent_try. rewrite Ho.
  destruct (newValues ev (dataRow g0 r)) as [new |] eqn:Hnew;
    apply try_catch_ok;
    rewrite (bind_ok _ _ _ _ _ Hsheet);
    run_step;
    (destruct (Nat.ltb_spec (lastRow g0) 2) as [? | _]; [lia |]);
    do 2 run_step; fold (dataRows g0);
    rewrite (findIndex_firstMatch o g0 r Hfm);
    rewrite dataRows_lookup by lia;
    change (default [] (Some ?x)) with x;
    replace (r - 2 + 2) with r by lia; rewrite Hnew; [| done].
  run_step.
  rewrite bind_unfold, run_setValues.
  - done.
  - unfold shape_ok. simpl. by rewrite (newValues_length _ _ _ Hnew).
Qed.

Lemma run_deleteEvent (g : grid) (o : Key) (r : nat) :
  firstMatch o (ensureSchema g) r →
  deleteEvent (Some o) (quiet g)
  = Ok (mkResult true "Event deleted.") (quiet (deleteRow r (ensureSchema g))).
Proof.
  pose proof (run_getSheet g) as Hsheet. revert Hsheet.
  generalize (ensureSchema g). intros g0 Hsheet Hfm.
  pose proof Hfm as (Hr & _ & _).
  unfold deleteEvent, deleteEvent_try. apply try_catch_ok.
  rewrite (bind_ok _ _ _ _ _ Hsheet).
  run_step. destruct (Nat.ltb_spec (lastRow g0) 2) as [? | _]; [lia |].
  do 2 run_step. fold (dataRows g0).
  rewrite (findIndex_firstMatch o g0 r Hfm).
  replace (r - 2 + 2) with r by lia. by run_step.
Qed.

Lemma run_deleteEvent_noMatch (g : grid) (o : Key) :
  2 ≤ lastRow (ensureSchema g) →
  noMatch o (ensureSchema g) →
  deleteEvent (Some o) (quiet g)
  = Ok (mkResult false "Event not found.") (quiet (ensureSchema g)).
Proof.
  pose proof (run_getSheet g) as Hsheet. revert Hsheet.
  generalize (ensureSchema g). intros g0 Hsheet Hrows Hno.
  unfold deleteEvent, deleteEvent_try. apply try_catch_ok.
  rewrite (bind_ok _ _ _ _ _ Hsheet).
  run_step. destruct (Nat.ltb_spec (lastRow g0) 2) as [? | _]; [lia |].
  do 2 run_step. fold (dataRows g0).
  by rewrite (findIndex_noMatch o g0 Hno).
Qed.

End Mutations.

Section Mutations_cells.

Import Sheet.

Lemma at_index_dataRow (g : grid) (r j : nat) :
  j < 7 → at_index (dataRow g r) j = cell g r (S j).
Proof.
  intros Hj. unfold at_index, dataRow.
  destruct (lookup_lt_is_Some_2 (row g r (length REQUIRED_HEADERS)) j) as [v Hv].
  { by rewrite length_row. }
  rewrite Hv. simpl. symmetry. by eapply cell_of_row.
Qed.

Lemma cell_write_row (g : grid) (r : nat) (new : list value) (r' c : nat) :
  0 < r → 0 < r' → 0 < c →
  cell (write g r 1 [new]) r' c
  = if decide (r' = r) then default (cell g r' c) (new !! pred c)
    else cell g r' c.
Proof.
  intros Hr Hr' Hc. unfold cell. rewrite cell0_write.
  change (pred 1) with 0. rewrite Nat.sub_0_r.
  destruct (decide (r' = r)) as [-> | Hne].
  - rewrite decide_True by lia. by rewrite Nat.sub_diag.
  - case_decide as Hd; [| done].
    destruct (pred r' - pred r) as [| k] eqn:Hk; [lia | done].
Qed.

Lemma lastRow_write_row (g : grid) (r : nat) (new : list value) (j : nat) (v : value) :
  2 ≤ r ≤ lastRow g → new !! j = Some v → is_blank v = false →
  lastRow (write g r 1 [new]) = lastRow g.
Proof.
  intros Hr Hj Hv.
  destruct (lastRow g) as [| n] eqn:Hlast; [lia |].
  apply lastRow_eq.
  - intros i k Hi. change (cell0 ?g i k) with (cell g (S i) (S k)).
    rewrite cell_write_row, decide_False by lia.
    apply (lastRow_le g (S n)); lia.
  - right. simpl. destruct (decide (S n = r)) as [<- | Hne].
    + exists j. change (cell0 ?g n j) with (cell g (S n) (S j)).
      rewrite cell_write_row, decide_True by lia. simpl. by rewrite Hj.
    + destruct (lastRow_witness g n Hlast) as [k Hk]. exists k.
      change (cell0 ?g n k) with (cell g (S n) (S k)).
      by rewrite cell_write_row, decide_False by lia.
Qed.

Lemma cell_deleteRow (g : grid) (r r' c : nat) :
  0 < r → 0 < r' →
  cell (deleteRow r g) r' c
  = if decide (r' < r) then cell g r' c else cell g (S r') c.
Proof.
  intros Hr Hr'. unfold cell. rewrite cell0_deleteRow.
  destruct r' as [| r']; [lia |]. simpl.
  repeat case_decide; done || lia.
Qed.

Lemma lastRow_deleteRow (g : grid) (r : nat) :
  0 < r < lastRow g → lastRow (deleteRow r g) = lastRow g - 1.
Proof.
  intros Hr. destruct (lastRow g) as [| n] eqn:Hlast; [lia |].
  replace (S n - 1) with n by lia. apply lastRow_eq.
  - intros i j Hi. rewrite cell0_deleteRow, decide_False by lia.
    apply (lastRow_le g (S n)); lia.
  - right. destruct (lastRow_witness g n Hlast) as [j Hj]. exists j.
    rewrite cell0_deleteRow, decide_False by lia.
    by replace (S (pred n)) with n by lia.
Qed.

End Mutations_cells.

(** ** Update *)

Section Update.

Import Sheet.

Lemma or_fallback (a s d : value) :
  Js.truthy a = false → Js.or (Js.or a s) d = Js.or (Js.or s s) d.
Proof.
  intros Ha. unfold Js.or. rewrite Ha.
  destruct (Js.truthy s) eqn:Hs; by rewrite ?Hs.
Qed.

Lemma newValues_falsy_name (event : UpdateData) (cells : list value) :
  Js.truthy (up_name event) = false →
  newValues event cells = newValues (with_name event (at_index cells 1)) cells.
Proof.
  intros Hf. unfold newValues, with_name, with_era, with_timelineName, with_year.
  cbn [up_timelineName up_name up_year up_era up_description original]. by rewrite (or_fallback _ _ _ Hf).
Qed.

Lemma newValues_falsy_era (event : UpdateData) (cells : list value) :
  Js.truthy (up_era event) = false →
  newValues event cells = newValues (with_era event (at_index cells 3)) cells.
Proof.
  intros Hf. unfold newValues, with_name, with_era, with_timelineName, with_year.
  cbn [up_timelineName up_name up_year up_era up_description original]. by rewrite (or_fallback _ _ _ Hf).
Qed.

Lemma newValues_falsy_timelineName (event : UpdateData) (cells : list value) :
  Js.truthy (up_timelineName event) = false →
  newValues event cells
  = newValues (with_timelineName event (at_index cells 0)) cells.
Proof.
  intros Hf. unfold newValues, with_name, with_era, with_timelineName, with_year.
  cbn [up_timelineName up_name up_year up_era up_description original]. by rewrite (or_fallback _ _ _ Hf).
Qed.

Lemma newValues_absent_year (event : UpdateData) (cells : list value) :
  up_year event = VNull ∨ up_year event = VUndef →
  newValues event cells = newValues (with_year event (at_index cells 2)) cells.
Proof.
  intros Hy. unfold newValues, with_name, with_era, with_timelineName, with_year.
  cbn [up_timelineName up_name up_year up_era up_description original].
  assert (Js.nullish (up_year event) (at_index cells 2)
          = Js.nullish (at_index cells 2) (at_index cells 2)) as ->; [| done].
  destruct Hy as [-> | ->]; simpl; by destruct (at_index cells 2).
Qed.

Lemma newValues_empty_year (event : UpdateData) (cells : list value) :
  up_year event = VStr "" → newValues event cells = None.
Proof. intros Hy. unfold newValues. by rewrite Hy. Qed.

(** The cells written when the year to parse, the new one or else the
    stored one, is the number [y]. *)
Lemma newValues_parsed (event : UpdateData) (cells : list value) (y : Z) :
  Js.parseInt (Js.nullish (up_year event) (at_index cells 2)) = Some y →
  ∃ numeric abbrev desc,
    newValues event cells
    = Some [Js.or (Js.or (up_timelineName event) (at_index cells 0))
              (VStr "Timeline 1");
            VStr (Js.toStr (Js.or (Js.or (up_name event) (at_index cells 1))
                              (VStr "")));
            VNum y;
            VStr (Js.toStr (Js.or (Js.or (up_era event) (at_index cells 3))
                              (VStr "CE")));
            numeric; abbrev; desc].
Proof.
  intros Hy. unfold newValues. rewrite Hy. by eexists _, _, _.
Qed.

Lemma or_truthy (a s d : value) :
  Js.truthy a = true → Js.or (Js.or a s) d = a.
Proof. intros Ha. unfold Js.or. by rewrite Ha, Ha. Qed.

Lemma or_falsy (a s d : value) :
  Js.truthy a = false → Js.or (Js.or a s) d = Js.or s d.
Proof. intros Ha. unfold Js.or at 2. by rewrite Ha. Qed.

Lemma or_string (s d : string) :
  Js.or (VStr s) (VStr d) = VStr (if decide (s = "") then d else s).
Proof.
  unfold Js.or. simpl. destruct (String.eqb_spec s ""); by case_decide.
Qed.

End Update.

(** C10: [updateEvent] first runs the schema check, which leaves the
    table [g0] (the table itself when its header is the required one).
    Let row [r] be the topmost row of [g0] matching the original key.

    A falsy new name, era or timeline name counts as absent: the call
    does what it does with the matched row's stored value in its place,
    and so does a null or undefined new year with the stored year.  An
    empty-string year is not absent: the call fails with "Year must be a
    number." and leaves the table [g0].

    When the year to parse, the new year or else, for a null or
    undefined one, the stored year, parses as the safe integer [y], the
    call succeeds and
    row [r] receives [y] as its year (the stored year itself when that
    is a safe integer); where the new timeline name, name or era is
    falsy the row receives the stored value (a stored string stays as it
    is, a blank timeline name or era becoming "Timeline 1" or "CE"), and
    where it is not, the new value. *)
Theorem C10_update_fallbacks (g : grid) (o : Key) (event : UpdateData) :
  original event = Some o →
  ∃ g0,
    getSheet (quiet g) = Ok tt (quiet g0)
    ∧ (headerRow g = VStr <$> REQUIRED_HEADERS → g0 = g)
    ∧ ∀ r,
        firstMatch o g0 r →
        (Js.truthy (up_name event) = false →
         updateEvent (Some event) (quiet g)
         = updateEvent (Some (with_name event (Sheet.cell g0 r 2))) (quiet g))
        ∧ (Js.truthy (up_era event) = false →
           updateEvent (Some event) (quiet g)
           = updateEvent (Some (with_era event (Sheet.cell g0 r 4))) (quiet g))
        ∧ (Js.truthy (up_timelineName event) = false →
           updateEvent (Some event) (quiet g)
           = updateEvent (Some (with_timelineName event (Sheet.cell g0 r 1)))
               (quiet g))
        ∧ (up_year event = VNull ∨ up_year event = VUndef →
           updateEvent (Some event) (quiet g)
           = updateEvent (Some (with_year event (Sheet.cell g0 r 3))) (quiet g))
        ∧ (up_year event = VStr "" →
           updateEvent (Some event) (quiet g)
           = Ok (mkResult false "Year must be a number.") (quiet g0))
        ∧ ∀ y,
            Js.parseInt (Js.nullish (up_year event) (Sheet.cell g0 r 3)) = Some y →
            Js.safe y = true →
            ∃ g',
              updateEvent (Some event) (quiet g)
              = Ok (mkResult true "Event updated successfully.") (quiet g')
              ∧ Sheet.cell g' r 3 = VNum y
              ∧ (up_year event = VNull ∨ up_year event = VUndef →
                 ∀ n, Js.safe n = true → Sheet.cell g0 r 3 = VNum n → y = n)
              ∧ (Js.truthy (up_timelineName event) = false →
                 Sheet.cell g' r 1 = Js.or (Sheet.cell g0 r 1) (VStr "Timeline 1")
                 ∧ ∀ s, Sheet.cell g0 r 1 = VStr s →
                        Sheet.cell g' r 1
                        = VStr (if decide (s = "") then "Timeline 1" else s))
              ∧ (Js.truthy (up_name event) = false →
                 Sheet.cell g' r 2
                 = VStr (Js.toStr (Js.or (Sheet.cell g0 r 2) (VStr "")))
                 ∧ ∀ s, Sheet.cell g0 r 2 = VStr s → Sheet.cell g' r 2 = VStr s)
              ∧ (Js.truthy (up_era event) = false →
                 Sheet.cell g' r 4
                 = VStr (Js.toStr (Js.or (Sheet.cell g0 r 4) (VStr "CE")))
                 ∧ ∀ s, Sheet.cell g0 r 4 = VStr s →
                        Sheet.cell g' r 4 = VStr (if decide (s = "") then "CE" else s))
              ∧ (Js.truthy (up_timelineName event) = true →
                 Sheet.cell g' r 1 = up_timelineName event)
              ∧ (Js.truthy (up_name event) = true →
                 Sheet.cell g' r 2 = VStr (Js.toStr (up_name event)))
              ∧ (Js.truthy (up_era event) = true →
                 Sheet.cell g' r 4 = VStr (Js.toStr (up_era event))).
Proof.
  intros Ho. exists (ensureSchema g).
  split; [apply run_getSheet |]. split; [apply ensureSchema_required |].
  intros r Hfm. pose proof Hfm as (Hr & _ & _).
  split_and!; [intros Hf | intros Hf | intros Hf | intros Hf | intros Hf |].
  - rewrite !(run_updateEvent g _ o r) by done.
    by rewrite (newValues_falsy_name _ _ Hf), at_index_dataRow by lia.
  - rewrite !(run_updateEvent g _ o r) by done.
    by rewrite (newValues_falsy_era _ _ Hf), at_index_dataRow by lia.
  - rewrite !(run_updateEvent g _ o r) by done.
    by rewrite (newValues_falsy_timelineName _ _ Hf), at_index_dataRow by lia.
  - rewrite !(run_updateEvent g _ o r) by done.
    by rewrite (newValues_absent_year _ _ Hf), at_index_dataRow by lia.
  - rewrite (run_updateEvent g _ o r) by done.
    by rewrite (newValues_empty_year _ _ Hf).
  - intros y Hy _.
    destruct (newValues_parsed event (dataRow (ensureSchema g) r) y)
      as (numeric & abbrev & desc & Hnew).
    { by rewrite at_index_dataRow by lia. }
    rewrite !at_index_dataRow in Hnew by lia.
    eexists. split.
    { rewrite (run_updateEvent g event o r) by done. by rewrite Hnew. }
    split_and!; try intros Hf;
      rewrite ?cell_write_row, ?decide_True by lia; cbn [lookup list_lookup pred default].
    + done.
    + intros n Hn Hc. rewrite Hc in Hy.
      assert (Js.nullish (up_year event) (VNum n) = VNum n) as Heq
        by (by destruct Hf as [-> | ->]).
      rewrite Heq, parseInt_num in Hy. by simplify_eq.
    + rewrite (or_falsy _ _ _ Hf). split; [done |].
      intros s ->. apply or_string.
    + rewrite (or_falsy _ _ _ Hf). split; [done |].
      intros s ->. rewrite or_string. simpl. by case_decide; subst.
    + rewrite (or_falsy _ _ _ Hf). split; [done |].
      intros s ->. by rewrite or_string.
    + by rewrite (or_truthy _ _ _ Hf).
    + by rewrite (or_truthy _ _ _ Hf).
    + by rewrite (or_truthy _ _ _ Hf).
Qed.

Lemma C10_update_fallbacks_witness :
  let g := [VStr <$> REQUIRED_HEADERS;
            [VStr "T1"; VStr "X"; VNum 5; VStr "CE"; VNum 5; VStr "X"; VStr "note"]] in
  let o := mkKey (VStr "T1") (VStr "X") (VNum 5) (VStr "CE") in
  updateEvent (Some (mkUpdateData (Some o) VUndef (VStr "") (VStr "") VUndef VUndef))
    (quiet g)
  = Ok (mkResult false "Year must be a number.") (quiet g)
  ∧ ∃ g',
      updateEvent (Some (mkUpdateData (Some o) (VStr "") (VStr "") VNull (VStr "") VUndef))
        (quiet g)
      = Ok (mkResult true "Event updated successfully.") (quiet g')
      ∧ Sheet.cell g' 2 1 = VStr "T1"
      ∧ Sheet.cell g' 2 2 = VStr "X"
      ∧ Sheet.cell g' 2 3 = VNum 5
      ∧ Sheet.cell g' 2 4 = VStr "CE".
Proof.
  intros g o.
  assert (firstMatch o g 2) as Hfm
    by (split_and!; [lia | vm_compute; lia | reflexivity | intros r' Hr'; lia]).
  split.
  - destruct (C10_update_fallbacks g o
                (mkUpdateData (Some o) VUndef (VStr "") (VStr "") VUndef VUndef)
                eq_refl) as (g0 & _ & Hg0 & Hupd).
    assert (g0 = g) as -> by (apply Hg0; reflexivity).
    exact (proj1 (proj2 (proj2 (proj2 (proj2 (Hupd 2 Hfm))))) eq_refl).
  - destruct (C10_update_fallbacks g o
                (mkUpdateData (Some o) (VStr "") (VStr "") VNull (VStr "") VUndef)
                eq_refl) as (g0 & _ & Hg0 & Hupd).
    assert (g0 = g) as -> by (apply Hg0; reflexivity).
    destruct (proj2 (proj2 (proj2 (proj2 (proj2 (Hupd 2 Hfm))))) 5%Z eq_refl
                eq_refl)
      as (g' & Hrun & Hyear & _ & Htl & Hname & Hera & _).
    exists g'. split_and!.
    + exact Hrun.
    + exact (proj2 (Htl eq_refl) "T1" eq_refl).
    + exact (proj2 (Hname eq_refl) "X" eq_refl).
    + exact Hyear.
    + exact (proj2 (Hera eq_refl) "CE" eq_refl).
Defined.

(** What [updateEvent] does with only a new year, on the topmost
    matching row [r] of the table that the schema check leaves. *)
Lemma update_year_first_match (g : grid) (o : Key) (r : nat) (y : Z) :
  let g0 := ensureSchema g in
  firstMatch o g0 r →
  let event := mkUpdateData (Some o) VUndef VUndef (VNum y) VUndef VUndef in
  let era := Js.toStr (Js.or (Sheet.cell g0 r 4) (VStr "CE")) in
  let name := Js.toStr (Js.or (Sheet.cell g0 r 2) (VStr "")) in
  ∃ g',
    updateEvent (Some event) (quiet g)
    = Ok (mkResult true "Event updated successfully.") (quiet g')
    ∧ Sheet.cell g' r 3 = VNum y
    ∧ Sheet.cell g' r 5
      = VNum (if decide (era = "BC") then - Z.abs y else Z.abs y)%Z
    ∧ Sheet.cell g' r 6 = VStr (makeAbbreviation (VStr name))
    ∧ (∀ s, s ≠ "" → Sheet.cell g0 r 1 = VStr s → Sheet.cell g' r 1 = VStr s)
    ∧ (∀ s, s ≠ "" → Sheet.cell g0 r 2 = VStr s → Sheet.cell g' r 2 = VStr s)
    ∧ (∀ s, s ≠ "" → Sheet.cell g0 r 4 = VStr s → Sheet.cell g' r 4 = VStr s)
    ∧ (∀ s, Sheet.cell g0 r 7 = VStr s → Sheet.cell g' r 7 = VStr s)
    ∧ (∀ r' c, 0 < r' → 0 < c → r' ≠ r ∨ 7 < c →
               Sheet.cell g' r' c = Sheet.cell g0 r' c)
    ∧ Sheet.lastRow g' = Sheet.lastRow g0.
Proof.
  intros g0 Hfm event era name. pose proof Hfm as (Hr & _ & _).
  assert (newValues event (dataRow g0 r)
          = Some [Js.or (Sheet.cell g0 r 1) (VStr "Timeline 1"); VStr name; VNum y;
                  VStr era;
                  VNum (if decide (era = "BC") then - Z.abs y else Z.abs y)%Z;
                  VStr (makeAbbreviation (VStr name));
                  VStr (Js.toStr (Js.nullish (Sheet.cell g0 r 7) (VStr "")))])
    as Hnew.
  { unfold newValues, event.
    cbn [up_timelineName up_name up_year up_era up_description original].
    rewrite !at_index_dataRow by lia.
    change (Js.nullish (VNum y) ?x) with (VNum y). rewrite parseInt_num.
    change (Js.or (Js.or VUndef ?x) ?d) with (Js.or x d).
    change (Js.nullish VUndef ?x) with x.
    fold era name. rewrite computeNumericYear_unfold, parseInt_num.
    repeat case_decide; congruence. }
  eexists. split.
  { rewrite (run_updateEvent g event o r) by done. fold g0. by rewrite Hnew. }
  split_and!.
  - by rewrite cell_write_row, decide_True by lia.
  - by rewrite cell_write_row, decide_True by lia.
  - by rewrite cell_write_row, decide_True by lia.
  - intros s Hs Hc. rewrite cell_write_row, decide_True by lia. simpl.
    rewrite Hc. unfold Js.or. simpl.
    by destruct (String.eqb_spec s "").
  - intros s Hs Hc. rewrite cell_write_row, decide_True by lia. simpl.
    unfold name. rewrite Hc. unfold Js.or. simpl.
    by destruct (String.eqb_spec s "").
  - intros s Hs Hc. rewrite cell_write_row, decide_True by lia. simpl.
    unfold era. rewrite Hc. unfold Js.or. simpl.
    by destruct (String.eqb_spec s "").
  - intros s Hc. rewrite cell_write_row, decide_True by lia. simpl.
    by rewrite Hc.
  - intros r' c Hr' Hc Hor. rewrite cell_write_row by lia.
    destruct (decide (r' = r)) as [-> | Hne]; [| done].
    destruct Hor as [? | Hc7]; [done |].
    destruct c as [| [| [| [| [| [| [| [| c]]]]]]]]; done || lia.
  - by apply (lastRow_write_row g0 r _ 2 (VNum y)).
Qed.

(** C5, as the code has it: [updateEvent] first runs the schema check,
    which leaves the table [g0] (the table itself when its header is the
    required one).  When some data row of [g0] matches the original key,
    [updateEvent] with that key and only a new year [y], a safe integer,
    succeeds and works on the topmost matching row [r]: it writes [y] into the
    year cell, the numeric year derived from [y] and the row's era into
    the numericYear cell, and the abbreviation recomputed from the row's
    name into the abbreviation cell; the timeline name, name and era
    cells keep a non-empty string, the description cell keeps a string;
    every other row, and so the row's position, stays as it is. *)
Theorem C5_update_year (g : grid) (o : Key) (y : Z) :
  Js.safe y = true →
  ∃ g0,
    getSheet (quiet g) = Ok tt (quiet g0)
    ∧ (headerRow g = VStr <$> REQUIRED_HEADERS → g0 = g)
    ∧ ∀ r0,
        2 ≤ r0 ≤ Sheet.lastRow g0 →
        matchesKey o (dataRow g0 r0) = true →
        ∃ r g',
          firstMatch o g0 r
          ∧ updateEvent
              (Some (mkUpdateData (Some o) VUndef VUndef (VNum y) VUndef VUndef))
              (quiet g)
            = Ok (mkResult true "Event updated successfully.") (quiet g')
          ∧ Sheet.cell g' r 3 = VNum y
          ∧ Sheet.cell g' r 5
            = VNum (if decide (Js.toStr (Js.or (Sheet.cell g0 r 4) (VStr "CE"))
                               = "BC")
                    then - Z.abs y else Z.abs y)%Z
          ∧ Sheet.cell g' r 6
            = VStr (makeAbbreviation
                      (VStr (Js.toStr (Js.or (Sheet.cell g0 r 2) (VStr "")))))
          ∧ (∀ s, s ≠ "" → Sheet.cell g0 r 1 = VStr s → Sheet.cell g' r 1 = VStr s)
          ∧ (∀ s, s ≠ "" → Sheet.cell g0 r 2 = VStr s → Sheet.cell g' r 2 = VStr s)
          ∧ (∀ s, s ≠ "" → Sheet.cell g0 r 4 = VStr s → Sheet.cell g' r 4 = VStr s)
          ∧ (∀ s, Sheet.cell g0 r 7 = VStr s → Sheet.cell g' r 7 = VStr s)
          ∧ (∀ r' c, 0 < r' → 0 < c → r' ≠ r ∨ 7 < c →
                     Sheet.cell g' r' c = Sheet.cell g0 r' c)
          ∧ Sheet.lastRow g' = Sheet.lastRow g0.
Proof.
  intros _. exists (ensureSchema g).
  split; [apply run_getSheet |]. split; [apply ensureSchema_required |].
  intros r0 Hr0 Hm0.
  destruct (firstMatch_exists o _ r0 Hr0 Hm0) as (r & _ & Hfm).
  destruct (update_year_first_match g o r y Hfm) as (g' & Hg').
  by exists r, g'.
Qed.

Lemma C5_update_year_witness :
  let g := [VStr <$> REQUIRED_HEADERS;
            [VStr "T1"; VStr "X"; VNum 5; VStr "CE"; VNum 5; VStr "X"; VStr "note"]] in
  let o := mkKey (VStr "T1") (VStr "X") (VNum 5) (VStr "CE") in
  ∃ r g',
    firstMatch o g r
    ∧ updateEvent (Some (mkUpdateData (Some o) VUndef VUndef (VNum 10) VUndef VUndef))
        (quiet g)
      = Ok (mkResult true "Event updated successfully.") (quiet g')
    ∧ Sheet.cell g' r 3 = VNum 10.
Proof.
  intros g o.
  destruct (C5_update_year g o 10 eq_refl) as (g0 & _ & Hg0 & Hupd).
  assert (g0 = g) as -> by (apply Hg0; reflexivity).
  destruct (Hupd 2) as (r & g' & Hfm & Hrun & Hyear & _).
  - vm_compute. lia.
  - reflexivity.
  - exists r, g'. split_and!; [exact Hfm | exact Hrun | exact Hyear].
Defined.

(** The claim says that only the year and numericYear cells change, and
    that the era stays: the abbreviation "XX" stored with event "X" is
    overwritten by the recomputed "X", and a blank era becomes "CE". *)
Lemma C5_counterexample :
  let g := [VStr <$> REQUIRED_HEADERS;
            [VStr "T1"; VStr "X"; VNum 5; VStr "CE"; VNum 5; VStr "XX"; VStr "note"];
            [VStr "T1"; VStr "Y"; VNum 7; VStr ""; VNum 7; VStr "Y"; VStr ""]] in
  let o1 := mkKey (VStr "T1") (VStr "X") (VNum 5) (VStr "CE") in
  let o2 := mkKey (VStr "T1") (VStr "Y") (VNum 7) (VStr "") in
  (∃ g',
     updateEvent (Some (mkUpdateData (Some o1) VUndef VUndef (VNum 10) VUndef VUndef))
       (quiet g)
     = Ok (mkResult true "Event updated successfully.") (quiet g')
     ∧ matchesKey o1 (dataRow g 2) = true
     ∧ Sheet.cell g 2 6 = VStr "XX"
     ∧ Sheet.cell g' 2 6 = VStr "X")
  ∧ (∃ g',
       updateEvent (Some (mkUpdateData (Some o2) VUndef VUndef (VNum 10) VUndef VUndef))
         (quiet g)
       = Ok (mkResult true "Event updated successfully.") (quiet g')
       ∧ matchesKey o2 (dataRow g 3) = true
       ∧ Sheet.cell g 3 4 = VStr ""
       ∧ Sheet.cell g' 3 4 = VStr "CE").
Proof.
  split; eexists; (split; [by vm_compute |]); by vm_compute.
Qed.

(** ** Delete *)

(** C6: on a table with data rows, [deleteEvent] first runs the schema
    check, which leaves the table [g0] (the table itself when its header
    is the required one) with as many rows.  When the key matches two
    data rows of [g0] or more, [deleteEvent] removes the topmost
    matching row [r] and nothing else: the rows above keep their place,
    every row below moves up by one, and the number of rows goes down by
    exactly one; when no data row matches, the call fails with "Event
    not found." and the table stays as it is. *)
Theorem C6_delete_first_match (g : grid) (o : Key) :
  2 ≤ Sheet.lastRow g →
  ∃ g0,
    getSheet (quiet g) = Ok tt (quiet g0)
    ∧ (headerRow g = VStr <$> REQUIRED_HEADERS → g0 = g)
    ∧ Sheet.lastRow g0 = Sheet.lastRow g
    ∧ (∀ r1 r2,
         2 ≤ r1 → r1 < r2 → r2 ≤ Sheet.lastRow g0 →
         matchesKey o (dataRow g0 r1) = true →
         matchesKey o (dataRow g0 r2) = true →
         ∃ r g',
           firstMatch o g0 r
           ∧ deleteEvent (Some o) (quiet g)
             = Ok (mkResult true "Event deleted.") (quiet g')
           ∧ Sheet.lastRow g' = Sheet.lastRow g0 - 1
           ∧ (∀ r' c, 0 < r' < r → Sheet.cell g' r' c = Sheet.cell g0 r' c)
           ∧ (∀ r' c, r ≤ r' → Sheet.cell g' r' c = Sheet.cell g0 (S r') c))
    ∧ (noMatch o g0 →
       deleteEvent (Some o) (quiet g)
       = Ok (mkResult false "Event not found.") (quiet g0)).
Proof.
  intros Hrows. exists (ensureSchema g).
  assert (Sheet.lastRow (ensureSchema g) = Sheet.lastRow g) as Hlast
    by (rewrite lastRow_ensureSchema; lia).
  split; [apply run_getSheet |]. split; [apply ensureSchema_required |].
  split; [done |]. split.
  - intros r1 r2 Hr1 Hr12 Hr2 Hm1 _.
    destruct (firstMatch_exists o (ensureSchema g) r1 ltac:(lia) Hm1)
      as (r & Hle & Hfm).
    pose proof Hfm as (Hr & _ & _).
    exists r, (Sheet.deleteRow r (ensureSchema g)). split_and!.
    + done.
    + by apply run_deleteEvent.
    + apply lastRow_deleteRow. lia.
    + intros r' c Hr'. rewrite cell_deleteRow by lia.
      by rewrite decide_True by lia.
    + intros r' c Hr'. rewrite cell_deleteRow by lia.
      by rewrite decide_False by lia.
  - intros Hno. apply run_deleteEvent_noMatch; [lia | done].
Qed.

Lemma C6_delete_first_match_witness :
  let g := [VStr <$> REQUIRED_HEADERS;
            [VStr "T1"; VStr "A"; VNum 1; VStr "CE"; VNum 1; VStr "A"; VStr "kept"];
            [VStr "T1"; VStr "X"; VNum 5; VStr "CE"; VNum 5; VStr "X"; VStr "first"];
            [VStr "T1"; VStr "X"; VStr "5"; VStr "CE"; VNum 5; VStr "X"; VStr "second"]] in
  let o := mkKey (VStr "T1") (VStr "X") (VNum 5) (VStr "CE") in
  let missing := mkKey (VStr "T2") (VStr "X") (VNum 5) (VStr "CE") in
  (∃ r g',
     firstMatch o g r
     ∧ deleteEvent (Some o) (quiet g) = Ok (mkResult true "Event deleted.") (quiet g')
     ∧ Sheet.lastRow g' = 3)
  ∧ deleteEvent (Some missing) (quiet g)
    = Ok (mkResult false "Event not found.") (quiet g).
Proof.
  intros g o missing.
  assert (2 ≤ Sheet.lastRow g) as Hrows by (vm_compute; lia).
  split.
  - destruct (C6_delete_first_match g o Hrows) as (g0 & _ & Hg0 & _ & Hdel & _).
    assert (g0 = g) as -> by (apply Hg0; reflexivity).
    destruct (Hdel 3 4) as (r & g' & Hfm & Hrun & Hlast & _).
    + lia.
    + lia.
    + vm_compute. lia.
    + reflexivity.
    + reflexivity.
    + exists r, g'. split_and!; [exact Hfm | exact Hrun | exact Hlast].
  - destruct (C6_delete_first_match g missing Hrows) as (g0 & _ & Hg0 & _ & _ & Hno).
    assert (g0 = g) as -> by (apply Hg0; reflexivity).
    apply Hno.
    intros r Hr. assert (r = 2 ∨ r = 3 ∨ r = 4) as [-> | [-> | ->]]
      by (vm_compute in Hr; lia); reflexivity.
Defined.

(** ** Sorting *)

Section Sorting.

Context {A : Type} (lt : A → A → bool).

Lemma insert_by_perm (x : A) (l : list A) : insert_by lt x l ≡ₚ x :: l.
Proof.
  induction l as [| y l IH]; simpl; [done |].
  destruct (lt y x); [| done]. rewrite IH. apply Permutation_swap.
Qed.

Lemma sort_by_perm (l : list A) : sort_by lt l ≡ₚ l.
Proof.
  induction l as [| x l IH]; simpl; [done |].
  by rewrite insert_by_perm, IH.
Qed.

(** With an asymmetric comparator the result is ordered: no element is
    strictly before its predecessor. *)
Lemma insert_by_sorted (x : A) (l : list A) :
  (∀ a b, lt a b = true → lt b a = false) →
  Sorted (λ a b, lt b a = false) l →
  Sorted (λ a b, lt b a = false) (insert_by lt x l).
Proof.
  intros Hasym. induction l as [| y l IH]; intros Hs; simpl.
  - by repeat constructor.
  - destruct (lt y x) eqn:Hyx.
    + apply Sorted_inv in Hs as [Hs Hhd]. constructor; [by apply IH |].
      destruct l as [| z l]; simpl.
      * constructor. by apply Hasym.
      * destruct (lt z x); constructor.
        -- by apply HdRel_inv in Hhd.
        -- by apply Hasym.
    + constructor; [done |]. by constructor.
Qed.

Lemma sort_by_sorted (l : list A) :
  (∀ a b, lt a b = true → lt b a = false) →
  Sorted (λ a b, lt b a = false) (sort_by lt l).
Proof.
  intros Hasym. induction l as [| x l IH]; simpl; [constructor |].
  by apply insert_by_sorted.
Qed.

(** Stability: elements that the comparator does not separate keep
    their order. *)
Lemma insert_by_filter (P : A → Prop) `{!∀ a, Decision (P a)} (x : A) (l : list A) :
  (∀ a b, P a → P b → lt a b = false) →
  filter P (insert_by lt x l) = filter P (x :: l).
Proof.
  intros Hsame. induction l as [| y l IH]; simpl; [done |].
  destruct (lt y x) eqn:Hyx; [| done].
  rewrite filter_cons, IH, !filter_cons.
  destruct (decide (P y)) as [Hy | Hy], (decide (P x)) as [Hx | Hx]; try done.
  by rewrite (Hsame y x Hy Hx) in Hyx.
Qed.

Lemma sort_by_filter (P : A → Prop) `{!∀ a, Decision (P a)} (l : list A) :
  (∀ a b, P a → P b → lt a b = false) →
  filter P (sort_by lt l) = filter P l.
Proof.
  intros Hsame. induction l as [| x l IH]; simpl; [done |].
  by rewrite insert_by_filter, !filter_cons, IH.
Qed.

End Sorting.

Section Sorting_ext.

Context {A : Type}.

Lemma insert_by_ext (lt lt' : A → A → bool) (x : A) (l : list A) :
  (∀ y, y ∈ l → lt y x = lt' y x) →
  insert_by lt x l = insert_by lt' x l.
Proof.
  induction l as [| y l IH]; intros Hext; simpl; [done |].
  rewrite <- (Hext y) by apply list_elem_of_here.
  rewrite IH; [done |]. intros z Hz. apply Hext. by apply list_elem_of_further.
Qed.

Lemma sort_by_ext (lt lt' : A → A → bool) (l : list A) :
  (∀ x y, x ∈ l → y ∈ l → lt x y = lt' x y) →
  sort_by lt l = sort_by lt' l.
Proof.
  induction l as [| x l IH]; intros Hext; simpl; [done |].
  rewrite IH.
  - apply insert_by_ext. intros y Hy. apply Hext.
    + apply list_elem_of_further. by rewrite <- (sort_by_perm lt' l).
    + apply list_elem_of_here.
  - intros a b Ha Hb. apply Hext; by apply list_elem_of_further.
Qed.

End Sorting_ext.

(** ** Grouping *)

Section Grouping.

Import Sheet.

Lemma pushEvent_ok (m : gmap string (list Event)) (ev : Event) :
  ev_timelineName ev ∉ inheritedKeys →
  pushEvent m ev
  = inr (<[ev_timelineName ev := default [] (m !! ev_timelineName ev) ++ [ev]]> m).
Proof.
  intros Hk. unfold pushEvent. destruct (m !! ev_timelineName ev); [done |].
  by rewrite bool_decide_eq_false_2.
Qed.

Lemma groupRows_ok (rows : grid) (m0 : gmap string (list Event)) :
  Forall (λ ev, ev_timelineName ev ∉ inheritedKeys) (decodeRow <$> rows) →
  ∃ m, groupRows m0 rows = inr m
       ∧ ∀ k, m !! k
              = pushed (m0 !! k)
                  (filter (λ ev, ev_timelineName ev = k) (decodeRow <$> rows)).
Proof.
  revert m0. induction rows as [| cells rows IH]; intros m0 Hok; simpl.
  - exists m0. split; [done |]. intros k. simpl.
    destruct (m0 !! k); simpl; by rewrite ?app_nil_r.
  - rewrite fmap_cons in Hok. apply Forall_cons in Hok as [Hk Hok].
    rewrite (pushEvent_ok _ _ Hk).
    destruct (IH (<[ev_timelineName (decodeRow cells)
                    := default [] (m0 !! ev_timelineName (decodeRow cells))
                       ++ [decodeRow cells]]> m0) Hok) as (m & -> & Hm).
    exists m. split; [done |]. intros k. rewrite Hm, filter_cons.
    destruct (decide (ev_timelineName (decodeRow cells) = k)) as [<- | Hne].
    + rewrite lookup_insert_eq. unfold pushed. simpl.
      destruct (m0 !! _); simpl; by rewrite <- ?app_assoc.
    + by rewrite lookup_insert_ne.
Qed.

Lemma run_getEventsGrouped (g : grid) :
  getEventsGrouped (quiet g)
  = match groupRows ∅ (dataRows (ensureSchema g)) with
    | inl msg => Throw msg (quiet (ensureSchema g))
    | inr m =>
        Ok (mkGrouped (buildTimelines m) (tl_name <$> buildTimelines m))
          (quiet (ensureSchema g))
    end.
Proof.
  pose proof (run_getSheet g) as Hsheet.
  pose proof (lastRow_ensureSchema g) as Hlast. revert Hsheet Hlast.
  generalize (ensureSchema g). intros g0 Hsheet Hlast.
  unfold getEventsGrouped.
  rewrite (bind_ok _ _ _ _ _ Hsheet). run_step.
  destruct (Nat.ltb_spec (lastRow g0) 2) as [Hlt | Hge].
  - unfold dataRows. replace (lastRow g0 - 1) with 0 by lia.
    rewrite read_rows by lia. simpl.
    unfold buildTimelines, sortedKeys. by rewrite map_to_list_empty.
  - do 2 run_step. fold (dataRows g0). by destruct (groupRows ∅ (dataRows g0)).
Qed.

(** Without data rows the grouped read is empty, whatever the sheet. *)
Lemma run_getEventsGrouped_empty (g : grid) :
  lastRow g < 2 →
  getEventsGrouped (quiet g) = Ok (mkGrouped [] []) (quiet (ensureSchema g)).
Proof.
  intros Hlt. unfold getEventsGrouped.
  rewrite (bind_ok _ _ _ _ _ (run_getSheet g)). run_step.
  rewrite lastRow_ensureSchema.
  by destruct (Nat.ltb_spec (1 `max` lastRow g) 2) as [_ | ?]; [| lia].
Qed.

End Grouping.

Section StringOrder.

Lemma Sorted_weaken {A} (R R' : A → A → Prop) (l : list A) :
  (∀ a b, R a b → R' a b) → Sorted R l → Sorted R' l.
Proof.
  intros HR. induction 1 as [| a l Hs IH Hhd]; constructor; [done |].
  destruct Hhd; constructor. by apply HR.
Qed.

Lemma compare_refl (s : string) : String.compare s s = Eq.
Proof.
  induction s as [| c s IH]; simpl; [done |].
  unfold Ascii.compare. by rewrite N.compare_refl.
Qed.

Lemma ltb_asym (a b : string) : String.ltb a b = true → String.ltb b a = false.
Proof.
  unfold String.ltb. rewrite (String.compare_antisym b a).
  by destruct (String.compare a b).
Qed.

Lemma ltb_false_le (a b : string) : String.ltb b a = false ↔ String.le a b.
Proof.
  unfold String.ltb, String.le, String.leb.
  rewrite (String.compare_antisym b a).
  destruct (String.compare a b); simpl; naive_solver.
Qed.

Lemma ltb_true_le (a b : string) : String.ltb a b = true ↔ String.le a b ∧ a ≠ b.
Proof.
  unfold String.ltb, String.le, String.leb.
  destruct (String.compare a b) eqn:Hc; simpl.
  - apply String.compare_eq_iff in Hc. split; [done |]. by intros [_ ?].
  - split; [| done]. intros _. split; [done |]. intros ->.
    pose proof (compare_refl b). congruence.
  - split; [done |]. by intros [[] _].
Qed.

(** A list without repetition that the default comparator leaves in
    place is strictly ascending. *)
Lemma strictly_sorted (l : list string) :
  Sorted (λ a b, String.ltb b a = false) l → NoDup l →
  StronglySorted (λ a b, String.ltb a b = true) l.
Proof.
  intros Hs Hnd.
  assert (StronglySorted String.le l) as Hss.
  { apply (Sorted_StronglySorted String.le).
    eapply Sorted_weaken; [| exact Hs]. intros a b. by rewrite ltb_false_le. }
  clear Hs. induction Hss as [| a l Hss IH Hall]; [constructor |].
  apply NoDup_cons in Hnd as [Ha Hnd]. constructor; [by apply IH |].
  apply Forall_forall. intros b Hb. apply ltb_true_le. split.
  - by eapply Forall_forall in Hall.
  - intros ->. done.
Qed.

End StringOrder.

Section Grouping_order.

Lemma sortedKeys_spec (m : gmap string (list Event)) :
  StronglySorted (λ a b, String.ltb a b = true) (sortedKeys m)
  ∧ ∀ k, k ∈ sortedKeys m ↔ is_Some (m !! k).
Proof.
  unfold sortedKeys. split.
  - apply strictly_sorted.
    + apply sort_by_sorted, ltb_asym.
    + rewrite sort_by_perm. apply NoDup_fst_map_to_list.
  - intros k. rewrite sort_by_perm, list_elem_of_fmap. split.
    + intros ([k' l] & -> & Hin). apply elem_of_map_to_list in Hin. by eexists.
    + intros [l Hl]. exists (k, l). split; [done |]. by apply elem_of_map_to_list.
Qed.

(** The order in which the keys of the map are listed does not show
    after the sort. *)
Lemma keys_order_immaterial (l l' : list string) :
  l ≡ₚ l' → sort_by String.ltb l = sort_by String.ltb l'.
Proof.
  intros Hperm. apply (Sorted_unique String.le).
  - eapply Sorted_weaken; [| apply sort_by_sorted, ltb_asym].
    intros a b. by rewrite ltb_false_le.
  - eapply Sorted_weaken; [| apply sort_by_sorted, ltb_asym].
    intros a b. by rewrite ltb_false_le.
  - by rewrite !sort_by_perm.
Qed.

Lemma decodeRow_numeric (cells : list value) :
  numericOrAbsent (at_index cells 4) = true →
  ∃ z, ev_numericYear (decodeRow cells) = VNum z.
Proof.
  intros Hn. unfold decodeRow. simpl.
  destruct (at_index cells 4) as [| | | z | s]; simplify_eq/=; eauto.
  apply String.eqb_eq in Hn as ->. eauto.
Qed.

Lemma yearKey_numeric (ev : Event) (z : Z) :
  ev_numericYear ev = VNum z → yearKey ev = z
  ∧ ∀ ev' z', ev_numericYear ev' = VNum z' → before ev ev' = (z <? z')%Z.
Proof.
  intros Hz.
  assert (∀ n, Js.toNumber (Js.or (VNum n) (VNum 0)) = Some n) as Hnum.
  { intros n. unfold Js.or. simpl. destruct (Z.eqb_spec n 0) as [-> | ?]; done. }
  split.
  - unfold yearKey. by rewrite Hz, Hnum.
  - intros ev' z' Hz'. unfold before, compareEvents, Js.sub.
    rewrite Hz, Hz', !Hnum.
    destruct (Z.ltb_spec (z - z') 0), (Z.ltb_spec z z'); done || lia.
Qed.

End Grouping_order.

(** C3, as the code has it: [getEventsGrouped] first runs the schema
    check, which leaves the table [g0] (the table itself when its header
    is the required one), and returns two empty arrays when there is no
    data row.  When the stored numeric years of [g0] are numbers or
    blank and its timeline names are not property names of
    [Object.prototype], the timelines are in strictly ascending
    lexicographic order of their names, one per name that occurs, and
    [timelineNames] lists these names in the same order; the events of
    each timeline are the decoded rows of that name, ascending by
    numeric year, rows of equal year in their original order. *)
Theorem C3_getEventsGrouped (g : grid) :
  ∃ g0,
    getSheet (quiet g) = Ok tt (quiet g0)
    ∧ (headerRow g = VStr <$> REQUIRED_HEADERS → g0 = g)
    ∧ (Sheet.lastRow g < 2 →
       getEventsGrouped (quiet g) = Ok (mkGrouped [] []) (quiet g0))
    ∧ (Forall (λ ev, ev_timelineName ev ∉ inheritedKeys) (decodedRows g0) →
       Forall (λ cells, numericOrAbsent (at_index cells 4) = true) (dataRows g0) →
       ∃ res,
         getEventsGrouped (quiet g) = Ok res (quiet g0)
         ∧ timelineNames res = tl_name <$> timelines res
         ∧ StronglySorted (λ a b, String.ltb a b = true) (timelineNames res)
         ∧ (∀ k, k ∈ timelineNames res
                 ↔ ∃ ev, ev ∈ decodedRows g0 ∧ ev_timelineName ev = k)
         ∧ ∀ t, t ∈ timelines res →
             let group :=
               filter (λ ev, ev_timelineName ev = tl_name t) (decodedRows g0) in
             tl_events t ≡ₚ group
             ∧ Sorted (λ a b, (yearKey a ≤ yearKey b)%Z) (tl_events t)
             ∧ ∀ z, filter (λ ev, yearKey ev = z) (tl_events t)
                    = filter (λ ev, yearKey ev = z) group).
Proof.
  exists (ensureSchema g).
  split; [apply run_getSheet |]. split; [apply ensureSchema_required |].
  split; [apply run_getEventsGrouped_empty |].
  pose proof (run_getEventsGrouped g) as Hgrouped. revert Hgrouped.
  generalize (ensureSchema g). intros g0 Hgrouped Hnames Hyears.
  destruct (groupRows_ok (dataRows g0) ∅ Hnames) as (m & Hrun & Hm).
  fold (decodedRows g0) in Hm.
  assert (∀ k, m !! k
               = match filter (λ ev, ev_timelineName ev = k) (decodedRows g0) with
                 | [] => None
                 | l => Some l
                 end) as Hlookup.
  { intros k. rewrite Hm, lookup_empty. unfold pushed.
    by destruct (filter _ _). }
  assert (Forall (λ ev, ∃ z, ev_numericYear ev = VNum z) (decodedRows g0)) as Hnum.
  { unfold decodedRows. apply Forall_fmap. eapply Forall_impl; [exact Hyears |].
    intros cells. apply decodeRow_numeric. }
  assert (tl_name <$> buildTimelines m = sortedKeys m) as Hnames_eq.
  { unfold buildTimelines. rewrite <- list_fmap_compose.
    generalize (sortedKeys m). intros ks.
    induction ks as [| k ks IH]; [done |]. rewrite fmap_cons. by rewrite IH. }
  destruct (sortedKeys_spec m) as [Hsorted Hkeys].
  eexists. split; [by rewrite Hgrouped, Hrun |].
  simpl. split_and!.
  - done.
  - by rewrite Hnames_eq.
  - intros k. rewrite Hnames_eq, Hkeys, Hlookup. split.
    + intros [l Hl].
      destruct (filter _ _) as [| ev l'] eqn:Hf; [done |].
      assert (ev ∈ filter (λ ev, ev_timelineName ev = k) (decodedRows g0)) as Hin
        by (rewrite Hf; apply list_elem_of_here).
      apply list_elem_of_filter in Hin as [? ?]. eauto.
    + intros (ev & Hin & Hk).
      assert (ev ∈ filter (λ ev, ev_timelineName ev = k) (decodedRows g0)) as Hf
        by by apply list_elem_of_filter.
      destruct (filter _ _); [by apply elem_of_nil in Hf | by eexists].
  - intros t Ht. unfold buildTimelines in Ht.
    apply list_elem_of_fmap in Ht as (k & -> & Hk). simpl.
    set (group := filter (λ ev, ev_timelineName ev = k) (decodedRows g0)).
    assert (default [] (m !! k) = group) as ->.
    { rewrite Hlookup. fold group. by destruct group. }
    assert (Forall (λ ev, ∃ z, ev_numericYear ev = VNum z) group) as Hgnum.
    { apply Forall_forall. intros ev [_ Hev]%list_elem_of_filter.
      by eapply Forall_forall in Hnum. }
    assert (sort_by before group
            = sort_by (λ a b, (yearKey a <? yearKey b)%Z) group) as ->.
    { apply sort_by_ext. intros a b Ha Hb.
      destruct (proj1 (Forall_forall _ _) Hgnum a Ha) as [za Hza].
      destruct (proj1 (Forall_forall _ _) Hgnum b Hb) as [zb Hzb].
      destruct (yearKey_numeric a za Hza) as [-> Hbefore].
      destruct (yearKey_numeric b zb Hzb) as [-> _]. by apply Hbefore. }
    split_and!.
    + apply sort_by_perm.
    + eapply Sorted_weaken; [| apply sort_by_sorted].
      * intros a b Hab. simpl in Hab. lia.
      * intros a b Hab. simpl in *. lia.
    + intros z. apply sort_by_filter. intros a b -> ->. lia.
Qed.

Lemma C3_getEventsGrouped_witness :
  let g := [VStr <$> REQUIRED_HEADERS;
            [VStr "B"; VStr "Exile"; VNum 586; VStr "BC"; VNum (-586); VStr "E"; VStr ""];
            [VStr "A"; VStr "Temple"; VNum 960; VStr "BC"; VStr ""; VStr ""; VStr ""];
            [VStr "B"; VStr "Exodus"; VNum 1446; VStr "BC"; VNum (-1446); VStr "E"; VStr ""];
            [VStr "A"; VStr "David"; VNum 1000; VStr "BC"; VNum (-1000); VStr "D"; VStr ""]] in
  ∃ res,
    getEventsGrouped (quiet g) = Ok res (quiet g)
    ∧ timelineNames res = ["A"; "B"]
    ∧ ∀ t, t ∈ timelines res →
        Sorted (λ a b, (yearKey a ≤ yearKey b)%Z) (tl_events t).
Proof.
  intros g.
  destruct (C3_getEventsGrouped g) as (g0 & _ & Hg0 & _ & Hgrouped).
  assert (g0 = g) as -> by (apply Hg0; reflexivity).
  destruct Hgrouped as (res & Hrun & _ & _ & _ & Hevents).
  - apply (bool_decide_unpack _). by vm_compute.
  - apply (bool_decide_unpack _). by vm_compute.
  - exists res. split_and!; [exact Hrun | | intros t Ht; by apply Hevents].
    assert (getEventsGrouped (quiet g) = Ok res (quiet g)) as Hrun' by exact Hrun.
    vm_compute in Hrun'. injection Hrun' as <-. reflexivity.
Defined.

(** The claim reads a numeric year that is not a number as 0: the
    stored text "abc" compares as [NaN] with every year, so the event
    keeps its place behind year 5, where year 0 would come first. *)
Lemma C3_counterexample :
  let g := [VStr <$> REQUIRED_HEADERS;
            [VStr "T"; VStr "Later"; VNum 5; VStr "CE"; VNum 5; VStr "L"; VStr ""];
            [VStr "T"; VStr "Undated"; VStr "?"; VStr "CE"; VStr "abc"; VStr "U"; VStr ""]] in
  ∃ res t,
    getEventsGrouped (quiet g) = Ok res (quiet g)
    ∧ timelines res = [t]
    ∧ ev_numericYear <$> tl_events t = [VNum 5; VStr "abc"]
    ∧ yearKey <$> tl_events t = [5; 0]%Z.
Proof.
  eexists _, _. split; [by vm_compute |]. split_and!; reflexivity.
Qed.

(** A timeline named like a property of [Object.prototype] makes the
    grouped read fail with a TypeError. *)
Example grouped_inherited_key :
  getEventsGrouped
    (quiet [VStr <$> REQUIRED_HEADERS;
            [VStr "constructor"; VStr "X"; VNum 5; VStr "CE"; VNum 5; VStr "X"]])
  = Throw "map[timelineName].push is not a function"
      (quiet [VStr <$> REQUIRED_HEADERS;
              [VStr "constructor"; VStr "X"; VNum 5; VStr "CE"; VNum 5; VStr "X"]]).
Proof. by vm_compute. Qed.

(** A failing service call, here the third one: the mutation reports
    it, the read lets it through. *)
Example service_failure :
  let w := mkWorld (Some [VStr <$> REQUIRED_HEADERS]) [None; None; Some "Service error"] in
  let w' := mkWorld (Some [VStr <$> REQUIRED_HEADERS]) [] in
  addEvent (Some (mkEventData VUndef (VStr "Battle") (VStr "100") (VStr "BC") VUndef)) w
  = Ok (mkResult false "Error adding event: Service error") w'
  ∧ deleteEvent (Some (mkKey (VStr "T") (VStr "X") (VNum 1) (VStr "CE"))) w
    = Ok (mkResult false "Error deleting event: Service error") w'
  ∧ getEventsGrouped w = Throw "Service error" w'
  ∧ getTimelineNames w = Throw "Service error" w'.
Proof. by vm_compute. Qed.

Example addEvent_ex1 :
  addEvent (Some (mkEventData VUndef (VStr "Battle") (VStr "100") (VStr "BC") VUndef))
    (quiet [VStr <$> REQUIRED_HEADERS])
  = Ok (mkResult true "Event 'Battle' added to 'Timeline 1'.")
      (quiet [VStr <$> REQUIRED_HEADERS;
              [VStr "Timeline 1"; VStr "Battle"; VNum 100; VStr "BC"; VNum (-100);
               VStr "B"; VStr ""]]).
Proof. by vm_compute. Qed.

(** * Further properties of the script *)

(** ** The schema check on any sheet *)

Section Schema_general.

Import Sheet.

Lemma normalized_nonblank (v : value) :
  Js.trim (Js.toStr (Js.or v (VStr ""))) ≠ "" → is_blank v = false.
Proof.
  destruct v as [| | b | n | s]; try done.
  destruct s; [done | done].
Qed.

Lemma length_normalized (l : list value) : length (normalized l) = length l.
Proof. apply length_fmap. Qed.

Lemma schema_cells (g : grid) (j : nat) :
  normalized (headerRow g) = REQUIRED_HEADERS → j < 7 →
  is_blank (cell g 1 (S j)) = false.
Proof.
  intros Hh Hj.
  destruct (lookup_lt_is_Some_2 (headerRow g) j) as [v Hv].
  { unfold headerRow. by rewrite length_row. }
  rewrite (cell_of_row g 1 (length REQUIRED_HEADERS) j v Hv).
  apply normalized_nonblank.
  assert (normalized (headerRow g) !! j = REQUIRED_HEADERS !! j) as Hj'
    by (rewrite Hh; reflexivity).
  unfold normalized in Hj'. rewrite list_lookup_fmap, Hv in Hj'. simpl in Hj'.
  do 7 (destruct j as [| j]; [simpl in Hj'; by injection Hj' as -> |]). lia.
Qed.

Lemma ensureSchema_fix (g : grid) :
  normalized (headerRow g) = REQUIRED_HEADERS → ensureSchema g = g.
Proof.
  intros Hh. unfold ensureSchema.
  pose proof (lastRow_gt g 0 0 (schema_cells g 0 Hh ltac:(lia))) as Hrow.
  pose proof (lastColumn_gt g 0 6 (schema_cells g 6 Hh ltac:(lia))) as Hcol.
  destruct (Nat.eqb_spec (lastRow g) 0) as [? | _]; [lia |].
  rewrite Hh.
  change (isOld REQUIRED_HEADERS) with false.
  change (headersDiffer REQUIRED_HEADERS) with false. cbv iota. cbn [orb].
  by destruct (Nat.ltb_spec (lastColumn g) (length REQUIRED_HEADERS)) as [Hlt | _];
    [simpl in Hlt; lia |].
Qed.

Lemma headersDiffer_false (h : list string) :
  length h = 7 → headersDiffer h = false → h = REQUIRED_HEADERS.
Proof.
  intros Hlen Hd.
  do 7 (destruct h as [| ? h]; [done |]). destruct h; [| done].
  unfold headersDiffer in Hd. cbn -[String.eqb] in Hd.
  repeat (apply orb_false_elim in Hd as [?%negb_false_iff%String.eqb_eq Hd]).
  by simplify_eq.
Qed.

Lemma header_filled (g : grid) (n : nat) (v : value) :
  headerRow (write (write g 1 1 [requiredCells]) 2 1 (replicate n [v]))
  = VStr <$> REQUIRED_HEADERS.
Proof.
  apply row_ext; [done |]. intros j x Hj.
  pose proof (lookup_lt_Some _ _ _ Hj) as Hlt. simpl in Hlt.
  unfold cell. simpl.
  rewrite cell0_fill_column, decide_False by lia.
  rewrite cell0_write_header, decide_True by lia.
  fold requiredCells in Hj. by rewrite Hj.
Qed.

Lemma header_ensureSchema (g : grid) :
  normalized (headerRow (ensureSchema g)) = REQUIRED_HEADERS.
Proof.
  unfold ensureSchema.
  destruct (lastRow g =? 0); [by rewrite header_written |].
  destruct (isOld _).
  { destruct (0 <? _); [by rewrite header_filled | by rewrite header_written]. }
  destruct (headersDiffer _) eqn:Hd; cbn [orb]; [by rewrite header_written |].
  destruct (_ <? _); [by rewrite header_written |].
  apply headersDiffer_false; [| done].
  unfold headerRow. by rewrite length_normalized, length_row.
Qed.

Lemma lastColumn_ensureSchema (g : grid) : 7 ≤ lastColumn (ensureSchema g).
Proof.
  apply (lastColumn_gt _ 0 6).
  apply (schema_cells _ 6 (header_ensureSchema g)). lia.
Qed.

Lemma getSheet_fix (g : grid) :
  normalized (headerRow g) = REQUIRED_HEADERS →
  getSheet (quiet g) = Ok tt (quiet g).
Proof. intros Hh. by rewrite run_getSheet, ensureSchema_fix. Qed.

End Schema_general.

(** X1: when the service does not fail, [getSheet] leaves the sheet
    exactly as it is if and only if the first seven header cells,
    trimmed, are the required labels. *)
Theorem getSheet_unchanged_iff (g : grid) :
  getSheet (quiet g) = Ok tt (quiet g)
  ↔ normalized (headerRow g) = REQUIRED_HEADERS.
Proof.
  split; [| apply getSheet_fix].
  rewrite run_getSheet. unfold quiet. intros Hrun.
  assert (ensureSchema g = g) as Hfix by by simplify_eq.
  rewrite <- Hfix. apply header_ensureSchema.
Qed.

(** X2: on every sheet [getSheet] returns, when the service does not
    fail, with a sheet whose trimmed header labels are the required
    ones, that has at least seven columns and as many rows as before (one
    row when there was none); a second call changes nothing. *)
Theorem getSheet_establishes_schema (g : grid) :
  ∃ g0,
    getSheet (quiet g) = Ok tt (quiet g0)
    ∧ normalized (headerRow g0) = REQUIRED_HEADERS
    ∧ Sheet.lastRow g0 = 1 `max` Sheet.lastRow g
    ∧ 7 ≤ Sheet.lastColumn g0
    ∧ getSheet (quiet g0) = Ok tt (quiet g0).
Proof.
  exists (ensureSchema g). split_and!.
  - apply run_getSheet.
  - apply header_ensureSchema.
  - apply lastRow_ensureSchema.
  - apply lastColumn_ensureSchema.
  - apply getSheet_idempotent.
Qed.

(** X3: a missing sheet is created with the header row, and on a sheet
    without content [getSheet] writes the header: the sheet then holds
    the required header and nothing else (one row, seven columns). *)
Theorem getSheet_empty_sheet :
  getSheet (mkWorld None []) = Ok tt (quiet [VStr <$> REQUIRED_HEADERS])
  ∧ ∀ g, Sheet.lastRow g = 0 →
      ∃ g0,
        getSheet (quiet g) = Ok tt (quiet g0)
        ∧ headerRow g0 = VStr <$> REQUIRED_HEADERS
        ∧ Sheet.lastRow g0 = 1
        ∧ Sheet.lastColumn g0 = 7.
Proof.
  split; [by vm_compute |]. intros g Hrows.
  exists (Sheet.write g 1 1 [requiredCells]). split_and!.
  - rewrite run_getSheet. unfold ensureSchema. by rewrite Hrows.
  - apply header_written.
  - rewrite lastRow_header_written, Hrows. done.
  - apply lastColumn_eq.
    + intros i j Hj. rewrite cell0_write_header, decide_False by lia.
      apply (lastRow_le g 0); lia.
    + right. exists 0. by rewrite cell0_write_header.
Qed.

(** X4: when the first six trimmed header labels are not the legacy
    ones, [getSheet] writes at most the seven header cells: every cell
    outside row 1, columns 1 to 7, keeps its value, so the data rows
    are neither shifted nor filled in. *)
Theorem getSheet_repairs_header_only (g : grid) :
  isOld (normalized (headerRow g)) = false →
  ∃ g0,
    getSheet (quiet g) = Ok tt (quiet g0)
    ∧ normalized (headerRow g0) = REQUIRED_HEADERS
    ∧ Sheet.lastRow g0 = 1 `max` Sheet.lastRow g
    ∧ ∀ r c, 0 < r → 0 < c → r ≠ 1 ∨ 7 < c →
             Sheet.cell g0 r c = Sheet.cell g r c.
Proof.
  intros Hold. exists (ensureSchema g). split_and!.
  - apply run_getSheet.
  - apply header_ensureSchema.
  - apply lastRow_ensureSchema.
  - intros r c Hr Hc Hrc. unfold ensureSchema. rewrite Hold.
    assert (Sheet.cell (Sheet.write g 1 1 [requiredCells]) r c = Sheet.cell g r c)
      as Hw.
    { unfold Sheet.cell. rewrite cell0_write_header, decide_False; [done | lia]. }
    destruct (_ =? _); [done |]. by destruct (_ || _).
Qed.

Lemma getSheet_repairs_header_only_witness :
  let g := [[VStr "Name"; VStr "When"];
            [VStr "T"; VStr "X"; VNum 5; VStr "CE"; VNum 5; VStr "X"; VStr ""]] in
  ∃ g0,
    getSheet (quiet g) = Ok tt (quiet g0)
    ∧ normalized (headerRow g0) = REQUIRED_HEADERS
    ∧ Sheet.lastRow g0 = 2
    ∧ ∀ r c, 0 < r → 0 < c → r ≠ 1 ∨ 7 < c →
             Sheet.cell g0 r c = Sheet.cell g r c.
Proof.
  intros g. apply (getSheet_repairs_header_only g). reflexivity.
Defined.

(** X5: the legacy layout is recognised by the first six header
    labels, trimmed, whatever lies to their right; the migration then
    writes the required header, puts "Timeline 1" in front of every
    data row and moves every old cell, the header cells beyond the
    sixth included, one column to the right. *)
Theorem getSheet_migrates_trimmed_legacy (g : grid) (n : nat) :
  isOld (normalized (headerRow g)) = true →
  Sheet.lastRow g = S n →
  ∃ g0,
    getSheet (quiet g) = Ok tt (quiet g0)
    ∧ headerRow g0 = VStr <$> REQUIRED_HEADERS
    ∧ Sheet.lastRow g0 = S n
    ∧ (∀ r, 2 ≤ r ≤ S n → Sheet.cell g0 r 1 = VStr "Timeline 1")
    ∧ (∀ r c, 2 ≤ r → 1 ≤ c → Sheet.cell g0 r (S c) = Sheet.cell g r c)
    ∧ (∀ c, 7 ≤ c → Sheet.cell g0 1 (S c) = Sheet.cell g 1 c).
Proof.
  intros Hold Hlast.
  pose proof (lastRow_migrating g n Hlast) as Hlast'.
  exists (ensureSchema g). split; [apply run_getSheet |].
  unfold ensureSchema. rewrite Hlast, Hold, Hlast'.
  change (S n =? 0) with false. cbv iota.
  replace (S n - 1) with n by lia.
  destruct n as [| n].
  - change (0 <? 0) with false. cbv iota. split_and!.
    + apply header_written.
    + done.
    + intros r Hr. lia.
    + intros r c Hr Hc. unfold Sheet.cell.
      rewrite cell0_write_header, decide_False by lia.
      rewrite cell0_insertColumn. by destruct c; [lia |].
    + intros c Hc. unfold Sheet.cell. cbn [pred].
      rewrite cell0_write_header, decide_False by lia.
      rewrite cell0_insertColumn. by destruct c; [lia |].
  - change (0 <? S n) with true. cbv iota. split_and!.
    + apply header_filled.
    + by apply lastRow_column_filled.
    + intros r Hr. unfold Sheet.cell. cbn [pred].
      rewrite cell0_fill_column, decide_True; [done | lia].
    + intros r c Hr Hc. unfold Sheet.cell. cbn [pred].
      rewrite cell0_fill_column, decide_False by lia.
      rewrite cell0_write_header, decide_False by lia.
      rewrite cell0_insertColumn. by destruct c; [lia |].
    + intros c Hc. unfold Sheet.cell. cbn [pred].
      rewrite cell0_fill_column, decide_False by lia.
      rewrite cell0_write_header, decide_False by lia.
      rewrite cell0_insertColumn. by destruct c; [lia |].
Qed.

Lemma getSheet_migrates_trimmed_legacy_witness :
  let g := [[VStr " EventName"; VStr "Year "; VStr "Era"; VStr "NumericYear";
             VStr "Abbreviation"; VStr "Description"; VStr "Source"];
            [VStr "Exodus"; VNum 1446; VStr "BC"; VNum (-1446); VStr "E";
             VStr "left Egypt"; VStr "Ex 12"]] in
  ∃ g0,
    getSheet (quiet g) = Ok tt (quiet g0)
    ∧ headerRow g0 = VStr <$> REQUIRED_HEADERS
    ∧ Sheet.cell g0 1 8 = VStr "Source"
    ∧ Sheet.cell g0 2 1 = VStr "Timeline 1"
    ∧ Sheet.cell g0 2 8 = VStr "Ex 12".
Proof.
  intros g.
  destruct (getSheet_migrates_trimmed_legacy g 1)
    as (g0 & Hrun & Hh & _ & Htl & Hcells & Hrest).
  - reflexivity.
  - reflexivity.
  - exists g0. split_and!; [exact Hrun | exact Hh | | |].
    + by rewrite Hrest by lia.
    + apply Htl. lia.
    + by rewrite Hcells by lia.
Defined.

(** ** Data rows under a write *)

Section Rows.

Import Sheet.

Lemma row_cells_eq (g g' : grid) (r r' width : nat) :
  (∀ c, 0 < c ≤ width → cell g r c = cell g' r' c) →
  row g r width = row g' r' width.
Proof.
  intros Hc. apply row_ext; [apply length_row |]. intros j v Hj.
  pose proof (lookup_lt_Some _ _ _ Hj) as Hlt. rewrite length_row in Hlt.
  rewrite Hc by lia. by eapply cell_of_row.
Qed.

Lemma dataRow_write_row (g : grid) (r : nat) (new : list value) :
  0 < r → length new = 7 → dataRow (write g r 1 [new]) r = new.
Proof.
  intros Hr Hlen. apply row_ext; [done |]. intros j v Hj.
  rewrite cell_write_row, decide_True by lia. simpl. by rewrite Hj.
Qed.

Lemma dataRow_write_other (g : grid) (r r' : nat) (new : list value) :
  0 < r → 0 < r' → r' ≠ r → dataRow (write g r 1 [new]) r' = dataRow g r'.
Proof.
  intros Hr Hr' Hne. apply row_cells_eq. intros c Hc.
  by rewrite cell_write_row, decide_False by lia.
Qed.

Lemma dataRow_deleteRow (g : grid) (r r' : nat) :
  0 < r → 0 < r' →
  dataRow (deleteRow r g) r' = dataRow g (if decide (r' < r) then r' else S r').
Proof.
  intros Hr Hr'. apply row_cells_eq. intros c Hc.
  rewrite cell_deleteRow by lia. by case_decide.
Qed.

Lemma lastRow_append (g : grid) (new : list value) (j : nat) (v : value) :
  new !! j = Some v → is_blank v = false →
  lastRow (write g (S (lastRow g)) 1 [new]) = S (lastRow g).
Proof.
  intros Hj Hv. apply lastRow_eq.
  - intros i k Hi. change (cell0 ?g i k) with (cell g (S i) (S k)).
    rewrite cell_write_row, decide_False by lia.
    apply (lastRow_le g (lastRow g)); lia.
  - right. exists j. simpl.
    change (cell0 ?x (lastRow g) j) with (cell x (S (lastRow g)) (S j)).
    rewrite cell_write_row, decide_True by lia. simpl. by rewrite Hj.
Qed.

Lemma dataRows_append (g : grid) (new : list value) (j : nat) (v : value) :
  0 < lastRow g → length new = 7 →
  new !! j = Some v → is_blank v = false →
  dataRows (write g (S (lastRow g)) 1 [new]) = dataRows g ++ [new].
Proof.
  intros Hrow Hlen Hj Hv. rewrite !dataRows_rows.
  rewrite (lastRow_append g new j v Hj Hv).
  replace (S (lastRow g) - 1) with (S (lastRow g - 1)) by lia.
  rewrite seq_S, fmap_app. simpl. f_equal.
  - apply list_fmap_ext. intros i k Hk.
    apply lookup_seq in Hk as [-> Hk]. apply dataRow_write_other; lia.
  - f_equal. replace (S (S (lastRow g - 1))) with (S (lastRow g)) by lia.
    apply dataRow_write_row; [lia | done].
Qed.

Lemma dataRows_write_row (g : grid) (r : nat) (new : list value) (j : nat) (v : value) :
  2 ≤ r ≤ lastRow g → length new = 7 →
  new !! j = Some v → is_blank v = false →
  dataRows (write g r 1 [new]) = <[r - 2 := new]> (dataRows g).
Proof.
  intros Hr Hlen Hj Hv. rewrite !dataRows_rows.
  rewrite (lastRow_write_row g r new j v Hr Hj Hv).
  apply list_eq. intros i.
  destruct (decide (i < lastRow g - 1)) as [Hi | Hi].
  - rewrite list_lookup_fmap, lookup_seq_lt by done. simpl.
    destruct (decide (i = r - 2)) as [-> | Hne].
    + rewrite list_lookup_insert_eq by (rewrite length_fmap, length_seq; lia).
      f_equal. replace (S (S (r - 2))) with r by lia.
      apply dataRow_write_row; [lia | done].
    + rewrite list_lookup_insert_ne by done.
      rewrite list_lookup_fmap, lookup_seq_lt by done. simpl. f_equal.
      apply dataRow_write_other; lia.
  - rewrite lookup_ge_None_2 by (rewrite length_fmap, length_seq; lia).
    symmetry. apply lookup_ge_None_2.
    rewrite length_insert, length_fmap, length_seq. lia.
Qed.

(** Deleting a row that is not the last one. *)
Lemma dataRows_deleteRow (g : grid) (r : nat) :
  2 ≤ r < lastRow g →
  dataRows (deleteRow r g) = delete (r - 2) (dataRows g).
Proof.
  intros Hr. rewrite !dataRows_rows.
  rewrite lastRow_deleteRow by lia.
  apply list_eq. intros i.
  destruct (decide (i < lastRow g - 1 - 1)) as [Hi | Hi].
  - rewrite list_lookup_fmap, lookup_seq_lt by done. simpl.
    rewrite dataRow_deleteRow by lia.
    destruct (decide (i < r - 2)) as [Hlt | Hge].
    + rewrite list_lookup_delete_lt by done.
      rewrite list_lookup_fmap, lookup_seq_lt by lia. simpl.
      by rewrite decide_True by lia.
    + rewrite list_lookup_delete_ge by lia.
      rewrite list_lookup_fmap, lookup_seq_lt by lia. simpl.
      by rewrite decide_False by lia.
  - rewrite lookup_ge_None_2 by (rewrite length_fmap, length_seq; lia).
    symmetry. apply lookup_ge_None_2.
    rewrite length_delete; rewrite ?length_fmap, ?length_seq; [lia |].
    apply lookup_lt_is_Some_2. rewrite length_fmap, length_seq. lia.
Qed.

Lemma headerRow_write_row (g : grid) (r : nat) (new : list value) :
  2 ≤ r → headerRow (write g r 1 [new]) = headerRow g.
Proof. intros Hr. apply (dataRow_write_other g r 1 new); lia. Qed.

Lemma headerRow_deleteRow (g : grid) (r : nat) :
  2 ≤ r → headerRow (deleteRow r g) = headerRow g.
Proof.
  intros Hr. change (headerRow ?g) with (dataRow g 1).
  rewrite dataRow_deleteRow by lia. by rewrite decide_True by lia.
Qed.

End Rows.

(** ** Adding *)

Section Add.

Import Sheet.

Lemma truthy_string (s : string) : Js.truthy (VStr s) = true ↔ s ≠ "".
Proof.
  simpl. destruct (String.eqb_spec s ""); simpl; split; done.
Qed.

Lemma run_addEvent (g : grid) (ed : EventData) (y : Z) :
  requestName ed ≠ "" →
  Js.parseInt (ed_year ed) = Some y →
  addEvent (Some ed) (quiet g)
  = Ok (mkResult true
          ("Event '" +:+ requestName ed +:+ "' added to '"
             +:+ requestTimeline ed +:+ "'."))
      (quiet (write (ensureSchema g) (S (lastRow (ensureSchema g))) 1
                [appendedRow ed y])).
Proof.
  intros Hname Hyear. unfold addEvent, addEvent_try. apply try_catch_ok.
  fold (requestName ed) (requestTimeline ed) (requestEra ed)
    (requestDescription ed).
  apply truthy_string in Hname. rewrite Hname, Hyear. cbn [negb].
  rewrite (bind_ok _ _ _ _ _ (run_getSheet g)). run_step. run_step.
  unfold appendedRow. rewrite computeNumericYear_unfold, parseInt_num.
  repeat case_decide; congruence.
Qed.

Lemma run_addEvent_noName (w : World) (ed : EventData) :
  requestName ed = "" →
  addEvent (Some ed) w = Ok (mkResult false "Missing event name.") w.
Proof.
  intros Hname. unfold addEvent, addEvent_try, try_catch.
  fold (requestName ed). by rewrite Hname.
Qed.

Lemma run_addEvent_badYear (w : World) (ed : EventData) :
  requestName ed ≠ "" → Js.parseInt (ed_year ed) = None →
  addEvent (Some ed) w = Ok (mkResult false "Year must be a number.") w.
Proof.
  intros Hname%truthy_string Hyear. unfold addEvent, addEvent_try, try_catch.
  fold (requestName ed). by rewrite Hname, Hyear.
Qed.

End Add.

(** X6: [addEvent] rejects a missing request, a request whose name is
    blank after trimming and, the name being there, a year that does not
    parse, before it calls the spreadsheet service: the world, sheet and
    fault plan alike, is the one it was called in. *)
Theorem addEvent_rejects_without_service (w : World) (ed : EventData) :
  addEvent None w = Ok (mkResult false "No event data.") w
  ∧ (requestName ed = "" →
     addEvent (Some ed) w = Ok (mkResult false "Missing event name.") w)
  ∧ (requestName ed ≠ "" → Js.parseInt (ed_year ed) = None →
     addEvent (Some ed) w = Ok (mkResult false "Year must be a number.") w).
Proof.
  split_and!; [done | apply run_addEvent_noName | apply run_addEvent_badYear].
Qed.

(** X7: on a sheet under the required header, [addEvent] with a plain
    request (no field holds a number that is not a safe integer, and the
    name is ASCII text), a name that is not blank and a year that parses
    as the safe integer [y] succeeds and appends one row behind the last
    row: the timeline name (default "Timeline
    1"), the trimmed name, the parsed year, the era (default "CE"), the
    sign-corrected numeric year, the abbreviation of the trimmed name
    and the description.  Every other cell keeps its value, so the
    data rows are the former ones followed by the new one. *)
Theorem addEvent_appends (g : grid) (ed : EventData) (y : Z) :
  normalized (headerRow g) = REQUIRED_HEADERS →
  plainRequest ed = true →
  requestName ed ≠ "" →
  Js.parseInt (ed_year ed) = Some y →
  Js.safe y = true →
  ∃ g',
    addEvent (Some ed) (quiet g)
    = Ok (mkResult true
            ("Event '" +:+ requestName ed +:+ "' added to '"
               +:+ requestTimeline ed +:+ "'."))
        (quiet g')
    ∧ Sheet.lastRow g' = S (Sheet.lastRow g)
    ∧ dataRow g' (S (Sheet.lastRow g))
      = [VStr (requestTimeline ed); VStr (requestName ed); VNum y;
         VStr (requestEra ed);
         VNum (if decide (requestEra ed = "BC") then - Z.abs y else Z.abs y)%Z;
         VStr (makeAbbreviation (VStr (requestName ed)));
         VStr (requestDescription ed)]
    ∧ dataRows g' = dataRows g ++ [dataRow g' (S (Sheet.lastRow g))]
    ∧ ∀ r c, 0 < r → 0 < c → r ≠ S (Sheet.lastRow g) ∨ 7 < c →
             Sheet.cell g' r c = Sheet.cell g r c.
Proof.
  intros Hh _ Hname Hyear _.
  pose proof (lastRow_gt g 0 0 (schema_cells g 0 Hh ltac:(lia))) as Hrow.
  eexists. split; [by rewrite (run_addEvent g ed y), ensureSchema_fix |].
  assert (dataRow (Sheet.write g (S (Sheet.lastRow g)) 1 [appendedRow ed y])
            (S (Sheet.lastRow g)) = appendedRow ed y) as Hnew
    by (apply dataRow_write_row; [lia | done]).
  split_and!.
  - by apply (lastRow_append g _ 2 (VNum y)).
  - exact Hnew.
  - rewrite Hnew. by apply (dataRows_append g _ 2 (VNum y)).
  - intros r c Hr Hc Hrc. rewrite cell_write_row by lia.
    destruct (decide (r = S (Sheet.lastRow g))) as [-> | Hne]; [| done].
    destruct Hrc as [? | Hc7]; [done |].
    destruct c as [| [| [| [| [| [| [| [| c]]]]]]]]; done || lia.
Qed.

Lemma addEvent_appends_witness :
  let g := [VStr <$> REQUIRED_HEADERS;
            [VStr "T1"; VStr "X"; VNum 5; VStr "CE"; VNum 5; VStr "X"; VStr "note"]] in
  let ed := mkEventData VUndef (VStr "  First Temple ") (VStr "960 or so")
              (VStr "BC") VUndef in
  ∃ g',
    addEvent (Some ed) (quiet g)
    = Ok (mkResult true "Event 'First Temple' added to 'Timeline 1'.") (quiet g')
    ∧ Sheet.lastRow g' = 3
    ∧ dataRow g' 3
      = [VStr "Timeline 1"; VStr "First Temple"; VNum 960; VStr "BC";
         VNum (-960); VStr "FT"; VStr ""].
Proof.
  intros g ed.
  destruct (addEvent_appends g ed 960) as (g' & Hrun & Hlast & Hrow & _).
  - reflexivity.
  - reflexivity.
  - by vm_compute.
  - reflexivity.
  - reflexivity.
  - exists g'. split_and!; [exact Hrun | exact Hlast | exact Hrow].
Defined.

(** ** Outcomes of update and delete *)

Section Update_delete_failures.

Import Sheet.

Lemma required_rows (g : grid) :
  normalized (headerRow g) = REQUIRED_HEADERS → 0 < lastRow g.
Proof. intros Hh. apply (lastRow_gt g 0 0), (schema_cells g 0 Hh). lia. Qed.

Lemma run_updateEvent_empty (g : grid) (ev : UpdateData) (o : Key) :
  original ev = Some o → lastRow g < 2 →
  updateEvent (Some ev) (quiet g)
  = Ok (mkResult false "No events to update.") (quiet (ensureSchema g)).
Proof.
  intros Ho Hrows. unfold updateEvent, updateEvent_try. rewrite Ho.
  apply try_catch_ok. rewrite (bind_ok _ _ _ _ _ (run_getSheet g)). run_step.
  rewrite lastRow_ensureSchema.
  by destruct (Nat.ltb_spec (1 `max` lastRow g) 2) as [_ | ?]; [| lia].
Qed.

Lemma run_updateEvent_noMatch (g : grid) (ev : UpdateData) (o : Key) :
  original ev = Some o →
  2 ≤ lastRow (ensureSchema g) →
  noMatch o (ensureSchema g) →
  updateEvent (Some ev) (quiet g)
  = Ok (mkResult false "Event not found for update.") (quiet (ensureSchema g)).
Proof.
  intros Ho. pose proof (run_getSheet g) as Hsheet. revert Hsheet.
  generalize (ensureSchema g). intros g0 Hsheet Hrows Hno.
  unfold updateEvent, updateEvent_try. rewrite Ho. apply try_catch_ok.
  rewrite (bind_ok _ _ _ _ _ Hsheet).
  run_step. destruct (Nat.ltb_spec (lastRow g0) 2) as [? | _]; [lia |].
  do 2 run_step. fold (dataRows g0).
  by rewrite (findIndex_noMatch o g0 Hno).
Qed.

Lemma run_deleteEvent_empty (g : grid) (o : Key) :
  lastRow g < 2 →
  deleteEvent (Some o) (quiet g)
  = Ok (mkResult false "No events to delete.") (quiet (ensureSchema g)).
Proof.
  intros Hrows. unfold deleteEvent, deleteEvent_try.
  apply try_catch_ok. rewrite (bind_ok _ _ _ _ _ (run_getSheet g)). run_step.
  rewrite lastRow_ensureSchema.
  by destruct (Nat.ltb_spec (1 `max` lastRow g) 2) as [_ | ?]; [| lia].
Qed.

(** A key either has a topmost matching data row or matches none. *)
Lemma firstMatch_or_noMatch (o : Key) (g : grid) :
  (∃ r, firstMatch o g r) ∨ noMatch o g.
Proof.
  destruct (findIndex o (dataRows g)) as [idx |] eqn:Hfind.
  - left. exists (idx + 2). by apply findIndex_Some.
  - right. intros r Hr. apply not_true_is_false. intros Hm.
    destruct (firstMatch_exists o g r Hr Hm) as (r' & _ & Hfm).
    by rewrite (findIndex_firstMatch o g r' Hfm) in Hfind.
Qed.

Lemma firstMatch_unique (o : Key) (g : grid) (r r' : nat) :
  firstMatch o g r → firstMatch o g r' → r = r'.
Proof.
  intros (Hr & Hm & Hfirst) (Hr' & Hm' & Hfirst').
  destruct (Nat.lt_total r r') as [Hlt | [? | Hlt]]; [| done |].
  - rewrite Hfirst' in Hm by lia. done.
  - rewrite Hfirst in Hm' by lia. done.
Qed.

Lemma newValues_year (ev : UpdateData) (cells new : list value) :
  newValues ev cells = Some new → ∃ y, new !! 2 = Some (VNum y).
Proof.
  unfold newValues. destruct (Js.parseInt _) as [y |]; intros; simplify_eq.
  by exists y.
Qed.

End Update_delete_failures.

Section Outcomes.

Import Sheet.

Lemma addEvent_cases (g : grid) (eventData : option EventData) :
  normalized (headerRow g) = REQUIRED_HEADERS →
  ∃ res g',
    addEvent eventData (quiet g) = Ok res (quiet g')
    ∧ (g' = g
       ∨ ∃ ed y, eventData = Some ed
                 ∧ g' = write g (S (lastRow g)) 1 [appendedRow ed y]).
Proof.
  intros Hh. destruct eventData as [ed |]; [| by eexists _, _; split; [| left]].
  destruct (decide (requestName ed = "")) as [Hname | Hname].
  { eexists _, _. split; [by apply run_addEvent_noName | by left]. }
  destruct (Js.parseInt (ed_year ed)) as [y |] eqn:Hyear.
  - eexists _, _. split.
    + by rewrite (run_addEvent g ed y), ensureSchema_fix.
    + right. by exists ed, y.
  - eexists _, _. split; [by apply run_addEvent_badYear | by left].
Qed.

Lemma updateEvent_cases (g : grid) (event : option UpdateData) :
  normalized (headerRow g) = REQUIRED_HEADERS →
  ∃ res g',
    updateEvent event (quiet g) = Ok res (quiet g')
    ∧ ((g' = g ∧ success res = false)
       ∨ ∃ ev o r new,
           event = Some ev ∧ original ev = Some o ∧ firstMatch o g r
           ∧ newValues ev (dataRow g r) = Some new
           ∧ g' = write g r 1 [new] ∧ success res = true).
Proof.
  intros Hh. pose proof (ensureSchema_fix g Hh) as Hfix.
  destruct event as [ev |];
    [| eexists _, _; split; [reflexivity | left; by split]].
  destruct (original ev) as [o |] eqn:Ho.
  2:{ eexists _, _. split;
        [unfold updateEvent, updateEvent_try, try_catch; by rewrite Ho
        | left; by split]. }
  destruct (firstMatch_or_noMatch o g) as [[r Hfm] | Hno].
  - pose proof (run_updateEvent g ev o r Ho) as Hrun.
    rewrite Hfix in Hrun. specialize (Hrun Hfm).
    destruct (newValues ev (dataRow g r)) as [new |] eqn:Hnew.
    + eexists _, _. split; [exact Hrun |]. right. by exists ev, o, r, new.
    + eexists _, _. split; [exact Hrun |]. left. by split.
  - destruct (decide (lastRow g < 2)) as [Hlt | Hge].
    + eexists _, _. split;
        [by rewrite (run_updateEvent_empty g ev o Ho Hlt), Hfix | left; by split].
    + eexists _, _. split;
        [rewrite (run_updateEvent_noMatch g ev o Ho); rewrite Hfix;
           [done | lia | done]
        | left; by split].
Qed.

Lemma deleteEvent_cases (g : grid) (params : option Key) :
  normalized (headerRow g) = REQUIRED_HEADERS →
  ∃ res g',
    deleteEvent params (quiet g) = Ok res (quiet g')
    ∧ ((g' = g ∧ success res = false)
       ∨ ∃ o r, params = Some o ∧ firstMatch o g r
                ∧ g' = deleteRow r g ∧ success res = true).
Proof.
  intros Hh. pose proof (ensureSchema_fix g Hh) as Hfix.
  destruct params as [o |];
    [| eexists _, _; split; [reflexivity | left; by split]].
  destruct (firstMatch_or_noMatch o g) as [[r Hfm] | Hno].
  - pose proof (run_deleteEvent g o r) as Hrun.
    rewrite Hfix in Hrun. specialize (Hrun Hfm).
    eexists _, _. split; [exact Hrun |]. right. by exists o, r.
  - destruct (decide (lastRow g < 2)) as [Hlt | Hge].
    + eexists _, _. split;
        [by rewrite (run_deleteEvent_empty g o Hlt), Hfix | left; by split].
    + eexists _, _. split;
        [rewrite (run_deleteEvent_noMatch g o); rewrite Hfix; [done | lia | done]
        | left; by split].
Qed.

Lemma lastRow_deleteRow_le (g : grid) (r : nat) :
  0 < r ≤ lastRow g → lastRow (deleteRow r g) ≤ lastRow g - 1.
Proof.
  intros Hr. apply lastRow_le. intros i j Hi.
  rewrite cell0_deleteRow. case_decide; apply (lastRow_le g (lastRow g)); lia.
Qed.

Lemma Forall_dataRows_deleteRow (P : list value → Prop) (g : grid) (r : nat) :
  2 ≤ r ≤ lastRow g →
  Forall P (dataRows g) → Forall P (dataRows (deleteRow r g)).
Proof.
  intros Hr HP. pose proof (lastRow_deleteRow_le g r ltac:(lia)) as Hle.
  rewrite Forall_lookup in HP. apply Forall_lookup.
  intros i cells [Hi ->]%dataRows_lookup_Some.
  rewrite dataRow_deleteRow by lia. case_decide.
  - apply (HP i). apply dataRows_lookup. lia.
  - apply (HP (S i)). rewrite dataRows_lookup by lia. do 2 f_equal.
Qed.

Lemma derivedCells_appendedRow (ed : EventData) (y : Z) :
  derivedCells (appendedRow ed y).
Proof.
  split; [| done]. unfold appendedRow, at_index. simpl.
  rewrite computeNumericYear_unfold, parseInt_num.
  repeat case_decide; congruence.
Qed.

Lemma derivedCells_newValues (ev : UpdateData) (cells new : list value) :
  newValues ev cells = Some new → derivedCells new.
Proof.
  unfold newValues. destruct (Js.parseInt _) as [y |]; intros; simplify_eq.
  by split.
Qed.

End Outcomes.

(** X8: [updateEvent] without a request or without original
    identifiers fails with "Missing original identifiers." in the world
    it was called in; under the required header it fails with "No
    events to update." when there is no data row and with "Event not
    found for update." when no data row matches the key, whatever the
    new values are, and leaves the sheet as it is. *)
Theorem updateEvent_failures :
  (∀ w, updateEvent None w
        = Ok (mkResult false "Missing original identifiers.") w)
  ∧ (∀ w ev, original ev = None →
             updateEvent (Some ev) w
             = Ok (mkResult false "Missing original identifiers.") w)
  ∧ ∀ g ev o,
      normalized (headerRow g) = REQUIRED_HEADERS →
      original ev = Some o →
      (Sheet.lastRow g < 2 →
       updateEvent (Some ev) (quiet g)
       = Ok (mkResult false "No events to update.") (quiet g))
      ∧ (2 ≤ Sheet.lastRow g → noMatch o g →
         updateEvent (Some ev) (quiet g)
         = Ok (mkResult false "Event not found for update.") (quiet g)).
Proof.
  split_and!; [done | |].
  - intros w ev Ho. unfold updateEvent, updateEvent_try, try_catch.
    by rewrite Ho.
  - intros g ev o Hh Ho. pose proof (ensureSchema_fix g Hh) as Hfix. split.
    + intros Hlt. by rewrite (run_updateEvent_empty g ev o Ho Hlt), Hfix.
    + intros Hge Hno.
      rewrite (run_updateEvent_noMatch g ev o Ho); rewrite Hfix; done.
Qed.

(** X9: [deleteEvent] without parameters fails with "No delete
    parameters." in the world it was called in; under the required
    header and without data rows it fails with "No events to delete."
    and leaves the sheet as it is. *)
Theorem deleteEvent_failures :
  (∀ w, deleteEvent None w = Ok (mkResult false "No delete parameters.") w)
  ∧ ∀ g o,
      normalized (headerRow g) = REQUIRED_HEADERS →
      Sheet.lastRow g < 2 →
      deleteEvent (Some o) (quiet g)
      = Ok (mkResult false "No events to delete.") (quiet g).
Proof.
  split; [done |]. intros g o Hh Hlt.
  by rewrite (run_deleteEvent_empty g o Hlt), ensureSchema_fix.
Qed.

(** X10: on a sheet under the required header [updateEvent] returns
    for every request; the header and the number of rows stay, every
    row other than the topmost row matching the original key keeps all
    its cells, and a failed update leaves the whole sheet as it is. *)
Theorem updateEvent_frame (g : grid) (event : option UpdateData) :
  normalized (headerRow g) = REQUIRED_HEADERS →
  ∃ res g',
    updateEvent event (quiet g) = Ok res (quiet g')
    ∧ (success res = false → g' = g)
    ∧ normalized (headerRow g') = REQUIRED_HEADERS
    ∧ Sheet.lastRow g' = Sheet.lastRow g
    ∧ ∀ r c, 0 < r → 0 < c →
        (∀ ev o, event = Some ev → original ev = Some o → ¬ firstMatch o g r) →
        Sheet.cell g' r c = Sheet.cell g r c.
Proof.
  intros Hh.
  destruct (updateEvent_cases g event Hh) as (res & g' & Hrun & Hcases).
  exists res, g'. split; [done |].
  destruct Hcases as [[-> Hres] | (ev & o & r & new & -> & Ho & Hfm & Hnew & -> & Hres)].
  { by repeat split. }
  pose proof Hfm as (Hr & _ & _).
  destruct (newValues_year _ _ _ Hnew) as [y Hy].
  split_and!.
  - by rewrite Hres.
  - by rewrite headerRow_write_row by lia.
  - by apply (lastRow_write_row g r new 2 (VNum y)).
  - intros r' c Hr' Hc Hnot. rewrite cell_write_row by lia.
    rewrite decide_False; [done |]. intros ->. by apply (Hnot ev o).
Qed.

Lemma updateEvent_frame_witness :
  let g := [VStr <$> REQUIRED_HEADERS;
            [VStr "T1"; VStr "A"; VNum 1; VStr "CE"; VNum 1; VStr "A"; VStr "kept"];
            [VStr "T1"; VStr "X"; VNum 5; VStr "CE"; VNum 5; VStr "X"; VStr "note"]] in
  let o := mkKey (VStr "T1") (VStr "X") (VNum 5) (VStr "CE") in
  let event := mkUpdateData (Some o) (VStr "T2") (VStr "Y") (VStr "7") (VStr "BC")
                 (VStr "") in
  ∃ res g',
    updateEvent (Some event) (quiet g) = Ok res (quiet g')
    ∧ Sheet.lastRow g' = 3
    ∧ dataRow g' 2 = dataRow g 2.
Proof.
  intros g o event.
  destruct (updateEvent_frame g (Some event)) as (res & g' & Hrun & _ & _ & Hlast & Hcells).
  - reflexivity.
  - exists res, g'. split_and!; [exact Hrun | exact Hlast |].
    apply row_cells_eq. intros c Hc. apply Hcells; [lia | lia |].
    intros ev o' [= <-] [= <-] (_ & Hm & _). vm_compute in Hm. discriminate Hm.
Defined.

(** X11: an update whose year resolves to an integer writes the
    description it is given, the empty string included (which clears the
    stored text, unlike an empty name, era or timeline name); only an
    undefined or null description keeps the stored text. *)
Theorem updateEvent_description
    (g : grid) (ev : UpdateData) (o : Key) (r : nat) (y : Z) :
  normalized (headerRow g) = REQUIRED_HEADERS →
  original ev = Some o →
  firstMatch o g r →
  Js.parseInt (Js.nullish (up_year ev) (Sheet.cell g r 3)) = Some y →
  ∃ g',
    updateEvent (Some ev) (quiet g)
    = Ok (mkResult true "Event updated successfully.") (quiet g')
    ∧ (∀ d, up_description ev = VStr d → Sheet.cell g' r 7 = VStr d)
    ∧ (up_description ev = VUndef ∨ up_description ev = VNull →
       ∀ s, Sheet.cell g r 7 = VStr s → Sheet.cell g' r 7 = VStr s).
Proof.
  intros Hh Ho Hfm Hy. pose proof Hfm as (Hr & _ & _).
  pose proof (run_updateEvent g ev o r Ho) as Hrun.
  rewrite (ensureSchema_fix g Hh) in Hrun. specialize (Hrun Hfm).
  unfold newValues in Hrun. rewrite !at_index_dataRow in Hrun by lia.
  rewrite Hy in Hrun. eexists. split; [exact Hrun |]. split.
  - intros d Hd. rewrite cell_write_row, decide_True by lia. simpl.
    by rewrite Hd.
  - intros Hd s Hs. rewrite cell_write_row, decide_True by lia. simpl.
    rewrite Hs. by destruct Hd as [-> | ->].
Qed.

Lemma updateEvent_description_witness :
  let g := [VStr <$> REQUIRED_HEADERS;
            [VStr "T1"; VStr "X"; VNum 5; VStr "CE"; VNum 5; VStr "X"; VStr "note"]] in
  let o := mkKey (VStr "T1") (VStr "X") (VNum 5) (VStr "CE") in
  (∃ g', updateEvent
           (Some (mkUpdateData (Some o) VUndef VUndef VUndef VUndef (VStr "")))
           (quiet g)
         = Ok (mkResult true "Event updated successfully.") (quiet g')
         ∧ Sheet.cell g' 2 7 = VStr "")
  ∧ (∃ g', updateEvent
             (Some (mkUpdateData (Some o) VUndef VUndef VUndef VUndef VNull))
             (quiet g)
           = Ok (mkResult true "Event updated successfully.") (quiet g')
           ∧ Sheet.cell g' 2 7 = VStr "note").
Proof.
  intros g o.
  assert (firstMatch o g 2) as Hfm.
  { split_and!; [lia | vm_compute; lia | reflexivity | intros r' Hr'; lia]. }
  split.
  - destruct (updateEvent_description g
                (mkUpdateData (Some o) VUndef VUndef VUndef VUndef (VStr ""))
                o 2 5 eq_refl eq_refl Hfm eq_refl) as (g' & Hrun & Hd & _).
    exists g'. split; [exact Hrun | by apply Hd].
  - destruct (updateEvent_description g
                (mkUpdateData (Some o) VUndef VUndef VUndef VUndef VNull)
                o 2 5 eq_refl eq_refl Hfm eq_refl) as (g' & Hrun & _ & Hd).
    exists g'. split; [exact Hrun |]. apply Hd; [by right | reflexivity].
Defined.

(** X12: an update that gives a timeline name, a name in ASCII text,
    an era (none empty), a year that parses as the safe integer [y] and
    a description overwrites the matched row with these values, the numeric year derived from [y]
    and the era, and the abbreviation of the name; the stored cells
    play no part, and the name is stored as given, without trimming. *)
Theorem updateEvent_replaces_row
    (g : grid) (ev : UpdateData) (o : Key) (r : nat)
    (tl nm e d : string) (y : Z) :
  normalized (headerRow g) = REQUIRED_HEADERS →
  original ev = Some o →
  firstMatch o g r →
  up_timelineName ev = VStr tl → tl ≠ "" →
  up_name ev = VStr nm → nm ≠ "" → Js.is_ascii nm = true →
  Js.parseInt (up_year ev) = Some y → Js.safe y = true →
  up_era ev = VStr e → e ≠ "" →
  up_description ev = VStr d →
  ∃ g',
    updateEvent (Some ev) (quiet g)
    = Ok (mkResult true "Event updated successfully.") (quiet g')
    ∧ dataRow g' r
      = [VStr tl; VStr nm; VNum y; VStr e;
         VNum (if decide (e = "BC") then - Z.abs y else Z.abs y)%Z;
         VStr (makeAbbreviation (VStr nm)); VStr d].
Proof.
  intros Hh Ho Hfm Htl Htl' Hnm Hnm' _ Hy _ He He' Hd.
  pose proof Hfm as (Hr & _ & _).
  pose proof (run_updateEvent g ev o r Ho) as Hrun.
  rewrite (ensureSchema_fix g Hh) in Hrun. specialize (Hrun Hfm).
  assert (newValues ev (dataRow g r)
          = Some [VStr tl; VStr nm; VNum y; VStr e;
                  VNum (if decide (e = "BC") then - Z.abs y else Z.abs y)%Z;
                  VStr (makeAbbreviation (VStr nm)); VStr d]) as Hnew.
  { unfold newValues. rewrite Htl, Hnm, He, Hd.
    assert (∀ s x, s ≠ "" → Js.or (VStr s) x = VStr s) as Hor.
    { intros s x Hs. unfold Js.or. simpl. by destruct (String.eqb_spec s ""). }
    rewrite !Hor by done.
    assert (Js.nullish (up_year ev) (at_index (dataRow g r) 2) = up_year ev) as ->.
    { by destruct (up_year ev). }
    rewrite Hy. simpl. rewrite computeNumericYear_unfold, parseInt_num.
    repeat case_decide; congruence. }
  rewrite Hnew in Hrun. eexists. split; [exact Hrun |].
  apply dataRow_write_row; [lia | done].
Qed.

Lemma updateEvent_replaces_row_witness :
  let g := [VStr <$> REQUIRED_HEADERS;
            [VStr "T1"; VStr "X"; VNum 5; VStr "CE"; VNum 5; VStr "X"; VStr "note"]] in
  let o := mkKey (VStr "T1") (VStr "X") (VNum 5) (VStr "CE") in
  let ev := mkUpdateData (Some o) (VStr "T2") (VStr " second  temple") (VStr "516")
              (VStr "BC") (VStr "") in
  ∃ g',
    updateEvent (Some ev) (quiet g)
    = Ok (mkResult true "Event updated successfully.") (quiet g')
    ∧ dataRow g' 2
      = [VStr "T2"; VStr " second  temple"; VNum 516; VStr "BC"; VNum (-516);
         VStr "ST"; VStr ""].
Proof.
  intros g o ev.
  apply (updateEvent_replaces_row g ev o 2 "T2" " second  temple" "BC" "" 516);
    try reflexivity; try done.
  split_and!; [lia | vm_compute; lia | reflexivity | intros r' Hr'; lia].
Defined.

(** ** Operations in sequence *)

Section Compositions.

Import Sheet.

Lemma dataRows_ext (g g' : grid) :
  lastRow g' = lastRow g →
  (∀ r c, 2 ≤ r ≤ lastRow g → 0 < c ≤ 7 → cell g' r c = cell g r c) →
  dataRows g' = dataRows g.
Proof.
  intros Hlast Hcells. rewrite !dataRows_rows, Hlast.
  apply list_fmap_ext. intros i k [-> Hk]%lookup_seq.
  apply row_cells_eq. intros c Hc. apply Hcells; [lia | done].
Qed.

Lemma noMatch_deleteRow (o : Key) (g : grid) (r : nat) :
  firstMatch o g r →
  (∀ r', 2 ≤ r' ≤ lastRow g → r' ≠ r → matchesKey o (dataRow g r') = false) →
  noMatch o (deleteRow r g).
Proof.
  intros (Hr & _ & _) Honly r' Hr'.
  pose proof (lastRow_deleteRow_le g r ltac:(lia)) as Hle.
  rewrite dataRow_deleteRow by lia. case_decide; apply Honly; lia.
Qed.

Lemma matchesKey_requestKey (ed : EventData) (y : Z) :
  matchesKey (requestKey ed y) (appendedRow ed y) = true.
Proof.
  unfold matchesKey, requestKey, appendedRow, at_index. simpl.
  by rewrite !String.eqb_refl.
Qed.

End Compositions.

(** X13: when exactly one data row matches the key, [deleteEvent]
    removes it, no row of the resulting sheet matches the key, and the
    same call repeated fails: with "Event not found.", or with "No events
    to delete." when no data row is left. *)
Theorem deleteEvent_only_match_then_missing (g : grid) (o : Key) (r : nat) :
  normalized (headerRow g) = REQUIRED_HEADERS →
  firstMatch o g r →
  (∀ r', 2 ≤ r' ≤ Sheet.lastRow g → r' ≠ r →
         matchesKey o (dataRow g r') = false) →
  ∃ g',
    deleteEvent (Some o) (quiet g)
    = Ok (mkResult true "Event deleted.") (quiet g')
    ∧ noMatch o g'
    ∧ deleteEvent (Some o) (quiet g')
      = Ok (mkResult false
              (if Sheet.lastRow g' <? 2 then "No events to delete."
               else "Event not found."))
          (quiet g').
Proof.
  intros Hh Hfm Honly. pose proof Hfm as (Hr & _ & _).
  exists (Sheet.deleteRow r g).
  assert (normalized (headerRow (Sheet.deleteRow r g)) = REQUIRED_HEADERS) as Hh'
    by (by rewrite headerRow_deleteRow by lia).
  pose proof (noMatch_deleteRow o g r Hfm Honly) as Hno.
  split_and!; [| done |].
  - by rewrite (run_deleteEvent g o r); rewrite ensureSchema_fix.
  - destruct (Nat.ltb_spec (Sheet.lastRow (Sheet.deleteRow r g)) 2) as [Hlt | Hge].
    + by rewrite (run_deleteEvent_empty _ o Hlt), ensureSchema_fix.
    + by rewrite (run_deleteEvent_noMatch _ o); rewrite ensureSchema_fix.
Qed.

Lemma deleteEvent_only_match_then_missing_witness :
  let g := [VStr <$> REQUIRED_HEADERS;
            [VStr "T1"; VStr "A"; VNum 1; VStr "CE"; VNum 1; VStr "A"; VStr ""];
            [VStr "T1"; VStr "X"; VNum 5; VStr "CE"; VNum 5; VStr "X"; VStr ""]] in
  let o := mkKey (VStr "T1") (VStr "X") (VStr "5") (VStr "CE") in
  ∃ g',
    deleteEvent (Some o) (quiet g) = Ok (mkResult true "Event deleted.") (quiet g')
    ∧ deleteEvent (Some o) (quiet g')
      = Ok (mkResult false "Event not found.") (quiet g').
Proof.
  intros g o.
  destruct (deleteEvent_only_match_then_missing g o 3) as (g' & Hrun & _ & Hagain).
  - reflexivity.
  - split_and!; [lia | vm_compute; lia | reflexivity |].
    intros r' Hr'. by assert (r' = 2) as -> by lia.
  - intros r' Hr' Hne.
    assert (r' = 2) as -> by (vm_compute in Hr'; lia). reflexivity.
  - exists g'. split; [exact Hrun |].
    assert (deleteEvent (Some o) (quiet g)
            = Ok (mkResult true "Event deleted.") (quiet g')) as Hrun'
      by exact Hrun.
    vm_compute in Hrun'. injection Hrun' as <-. exact Hagain.
Defined.

(** X14: an event added by [addEvent] under identifiers that matched no
    row before is removed again by [deleteEvent] with these identifiers:
    the sheet then has the rows it had before the two calls. *)
Theorem addEvent_then_deleteEvent (g : grid) (ed : EventData) (y : Z) :
  normalized (headerRow g) = REQUIRED_HEADERS →
  requestName ed ≠ "" →
  Js.parseInt (ed_year ed) = Some y →
  noMatch (requestKey ed y) g →
  ∃ res g1 g2,
    addEvent (Some ed) (quiet g) = Ok res (quiet g1)
    ∧ success res = true
    ∧ deleteEvent (Some (requestKey ed y)) (quiet g1)
      = Ok (mkResult true "Event deleted.") (quiet g2)
    ∧ Sheet.lastRow g2 = Sheet.lastRow g
    ∧ (∀ r c, 0 < r ≤ Sheet.lastRow g → 0 < c →
              Sheet.cell g2 r c = Sheet.cell g r c)
    ∧ dataRows g2 = dataRows g.
Proof.
  intros Hh Hname Hyear Hno.
  pose proof (required_rows g Hh) as Hrow.
  set (L := Sheet.lastRow g) in *.
  set (g1 := Sheet.write g (S L) 1 [appendedRow ed y]).
  assert (Sheet.lastRow g1 = S L) as Hlast1
    by by apply (lastRow_append g _ 2 (VNum y)).
  assert (normalized (headerRow g1) = REQUIRED_HEADERS) as Hh1
    by (unfold g1; by rewrite headerRow_write_row by lia).
  assert (firstMatch (requestKey ed y) g1 (S L)) as Hfm.
  { split_and!; [lia | lia | |].
    - unfold g1. rewrite dataRow_write_row by (done || lia).
      apply matchesKey_requestKey.
    - intros r' Hr'. unfold g1. rewrite dataRow_write_other by lia.
      apply Hno. lia. }
  assert (∀ r c, 0 < r ≤ L → 0 < c →
            Sheet.cell (Sheet.deleteRow (S L) g1) r c = Sheet.cell g r c)
    as Hcells.
  { intros r c Hr Hc. rewrite cell_deleteRow, decide_True by lia.
    unfold g1. by rewrite cell_write_row, decide_False by lia. }
  assert (Sheet.lastRow (Sheet.deleteRow (S L) g1) = L) as Hlast2.
  { apply lastRow_eq.
    - intros i j Hi. rewrite cell0_deleteRow, decide_False by (simpl; lia).
      change (Sheet.cell0 ?x (S i) j) with (Sheet.cell x (S (S i)) (S j)).
      unfold g1. rewrite cell_write_row, decide_False by lia.
      apply (lastRow_le g L); [done | lia].
    - right. destruct L as [| n] eqn:HL; [lia |].
      destruct (lastRow_witness g n HL) as [j Hj]. exists j. simpl.
      change (Sheet.cell0 ?x n j) with (Sheet.cell x (S n) (S j)) in *.
      by rewrite Hcells by lia. }
  eexists _, g1, (Sheet.deleteRow (S L) g1). split_and!.
  - by rewrite (run_addEvent g ed y), ensureSchema_fix.
  - done.
  - by rewrite (run_deleteEvent g1 _ (S L)); rewrite ensureSchema_fix.
  - done.
  - done.
  - apply dataRows_ext; [done |]. intros r c Hr Hc. apply Hcells; lia.
Qed.

Lemma addEvent_then_deleteEvent_witness :
  let g := [VStr <$> REQUIRED_HEADERS;
            [VStr "T1"; VStr "X"; VNum 5; VStr "CE"; VNum 5; VStr "X"; VStr "note"]] in
  let ed := mkEventData (VStr "T1") (VStr "Y") (VNum 7) VUndef VUndef in
  ∃ res g1 g2,
    addEvent (Some ed) (quiet g) = Ok res (quiet g1)
    ∧ deleteEvent (Some (mkKey (VStr "T1") (VStr "Y") (VNum 7) (VStr "CE")))
        (quiet g1)
      = Ok (mkResult true "Event deleted.") (quiet g2)
    ∧ dataRows g2 = dataRows g.
Proof.
  intros g ed.
  destruct (addEvent_then_deleteEvent g ed 7)
    as (res & g1 & g2 & Hadd & _ & Hdel & _ & _ & Hrows).
  - reflexivity.
  - by vm_compute.
  - reflexivity.
  - intros r Hr. assert (r = 2) as -> by (vm_compute in Hr; lia). reflexivity.
  - exists res, g1, g2. split_and!; [exact Hadd | exact Hdel | exact Hrows].
Defined.

(** X15: the mutations keep the derived columns in step: on a sheet
    under the required header whose data rows hold the numeric year
    derived from their year and era and the abbreviation of their name,
    [addEvent], [updateEvent] and [deleteEvent] return, for every
    argument, with a sheet of the same kind. *)
Theorem mutations_keep_derived_cells (g : grid) :
  normalized (headerRow g) = REQUIRED_HEADERS →
  Forall derivedCells (dataRows g) →
  (∀ eventData, ∃ res g',
     addEvent eventData (quiet g) = Ok res (quiet g')
     ∧ normalized (headerRow g') = REQUIRED_HEADERS
     ∧ Forall derivedCells (dataRows g'))
  ∧ (∀ event, ∃ res g',
       updateEvent event (quiet g) = Ok res (quiet g')
       ∧ normalized (headerRow g') = REQUIRED_HEADERS
       ∧ Forall derivedCells (dataRows g'))
  ∧ (∀ params, ∃ res g',
       deleteEvent params (quiet g) = Ok res (quiet g')
       ∧ normalized (headerRow g') = REQUIRED_HEADERS
       ∧ Forall derivedCells (dataRows g')).
Proof.
  intros Hh Hrows. pose proof (required_rows g Hh) as Hrow. split_and!.
  - intros eventData.
    destruct (addEvent_cases g eventData Hh)
      as (res & g' & Hrun & [-> | (ed & y & -> & ->)]);
      exists res; eexists; (split; [exact Hrun |]); [done |].
    split; [by rewrite headerRow_write_row by lia |].
    rewrite (dataRows_append g _ 2 (VNum y)) by done.
    apply Forall_app. split; [done |].
    apply Forall_singleton, derivedCells_appendedRow.
  - intros event.
    destruct (updateEvent_cases g event Hh)
      as (res & g' & Hrun
          & [[-> _] | (ev & o & r & new & -> & Ho & Hfm & Hnew & -> & _)]);
      exists res; eexists; (split; [exact Hrun |]); [done |].
    pose proof Hfm as (Hr & _ & _).
    destruct (newValues_year _ _ _ Hnew) as [y Hy].
    split; [by rewrite headerRow_write_row by lia |].
    rewrite (dataRows_write_row g r new 2 (VNum y))
      by (done || by eapply newValues_length).
    apply Forall_insert; [done |]. by eapply derivedCells_newValues.
  - intros params.
    destruct (deleteEvent_cases g params Hh)
      as (res & g' & Hrun & [[-> _] | (o & r & -> & Hfm & -> & _)]);
      exists res; eexists; (split; [exact Hrun |]); [done |].
    pose proof Hfm as (Hr & _ & _).
    split; [by rewrite headerRow_deleteRow by lia |].
    by apply Forall_dataRows_deleteRow.
Qed.

Lemma mutations_keep_derived_cells_witness :
  let g := [VStr <$> REQUIRED_HEADERS;
            [VStr "T1"; VStr "First Temple"; VNum 960; VStr "BC"; VNum (-960);
             VStr "FT"; VStr ""]] in
  ∃ res g',
    updateEvent
      (Some (mkUpdateData
               (Some (mkKey (VStr "T1") (VStr "First Temple") (VNum 960) (VStr "BC")))
               VUndef (VStr "Second Temple") (VNum 516) VUndef VUndef))
      (quiet g)
    = Ok res (quiet g')
    ∧ Forall derivedCells (dataRows g').
Proof.
  intros g.
  destruct (mutations_keep_derived_cells g) as (_ & Hupd & _).
  - reflexivity.
  - apply Forall_singleton. by split.
  - destruct (Hupd (Some (mkUpdateData
               (Some (mkKey (VStr "T1") (VStr "First Temple") (VNum 960) (VStr "BC")))
               VUndef (VStr "Second Temple") (VNum 516) VUndef VUndef)))
      as (res & g' & Hrun & _ & Hd).
    by exists res, g'.
Defined.

(** ** Reading *)

Section Reading.

Import Sheet.

Lemma names_buildTimelines (m : gmap string (list Event)) :
  tl_name <$> buildTimelines m = sortedKeys m.
Proof.
  unfold buildTimelines. rewrite <- list_fmap_compose.
  generalize (sortedKeys m). intros ks.
  induction ks as [| k ks IH]; [done |]. rewrite fmap_cons. by rewrite IH.
Qed.

Lemma grouped_result (g : grid) :
  normalized (headerRow g) = REQUIRED_HEADERS →
  Forall (λ ev, ev_timelineName ev ∉ inheritedKeys) (decodedRows g) →
  ∃ m,
    getEventsGrouped (quiet g)
    = Ok (mkGrouped (buildTimelines m) (sortedKeys m)) (quiet g)
    ∧ ∀ k, m !! k
           = match filter (λ ev, ev_timelineName ev = k) (decodedRows g) with
             | [] => None
             | l => Some l
             end.
Proof.
  intros Hh Hnames.
  destruct (groupRows_ok (dataRows g) ∅ Hnames) as (m & Hrun & Hm).
  exists m. split.
  - rewrite run_getEventsGrouped, (ensureSchema_fix g Hh), Hrun.
    by rewrite names_buildTimelines.
  - intros k. rewrite Hm, lookup_empty. unfold pushed.
    fold (decodedRows g). by destruct (filter _ _).
Qed.

Lemma group_lookup (m : gmap string (list Event)) (l : list Event) :
  (∀ k, m !! k
        = match filter (λ ev, ev_timelineName ev = k) l with
          | [] => None
          | l' => Some l'
          end) →
  (∀ k, k ∈ sortedKeys m ↔ ∃ ev, ev ∈ l ∧ ev_timelineName ev = k)
  ∧ ∀ k, k ∈ sortedKeys m →
         default [] (m !! k) = filter (λ ev, ev_timelineName ev = k) l.
Proof.
  intros Hm. destruct (sortedKeys_spec m) as [_ Hkeys]. split.
  - intros k. rewrite Hkeys, Hm. split.
    + intros [l' Hl'].
      destruct (filter _ _) as [| ev l''] eqn:Hf; [done |].
      assert (ev ∈ filter (λ ev, ev_timelineName ev = k) l) as Hin
        by (rewrite Hf; apply list_elem_of_here).
      apply list_elem_of_filter in Hin as [? ?]. eauto.
    + intros (ev & Hin & Hk).
      assert (ev ∈ filter (λ ev, ev_timelineName ev = k) l) as Hf
        by by apply list_elem_of_filter.
      destruct (filter _ _); [by apply elem_of_nil in Hf | by eexists].
  - intros k _. rewrite Hm. by destruct (filter _ _).
Qed.

(** Splitting a list into the groups of its keys loses nothing. *)
Lemma concat_groups {A} (key : A → string) (ks : list string) (l : list A) :
  NoDup ks → (∀ x, x ∈ l → key x ∈ ks) →
  concat ((λ k, filter (λ x, key x = k) l) <$> ks) ≡ₚ l.
Proof.
  revert l. induction ks as [| k ks IH]; intros l Hnd Hin.
  - destruct l as [| x l]; [done |].
    specialize (Hin x ltac:(left)). by apply elem_of_nil in Hin.
  - apply NoDup_cons in Hnd as [Hk Hnd]. rewrite fmap_cons. simpl.
    assert (∀ x, x ∈ filter (λ x, ¬ key x = k) l → key x ∈ ks) as Hin'.
    { intros x [Hx Hxl]%list_elem_of_filter.
      specialize (Hin x Hxl). apply elem_of_cons in Hin as [? | ?]; done. }
    etrans; [| apply (filter_app_complement (λ x, key x = k) l)].
    apply Permutation_app_head.
    etrans; [| apply (IH (filter (λ x, ¬ key x = k) l) Hnd Hin')].
    assert ((λ k0, filter (λ x, key x = k0) l) <$> ks
            = (λ k0, filter (λ x, key x = k0) (filter (λ x, ¬ key x = k) l)) <$> ks)
      as ->; [| done].
    apply Forall_fmap_ext, Forall_forall. intros k' Hk'.
    rewrite list_filter_filter. apply list_filter_iff.
    intros x. split; [| by intros []]. intros <-. split; [done |].
    intros Heq. apply Hk. by rewrite <- Heq.
Qed.

Lemma concat_fmap_perm {A B} (f f' : A → list B) (l : list A) :
  (∀ x, x ∈ l → f x ≡ₚ f' x) → concat (f <$> l) ≡ₚ concat (f' <$> l).
Proof.
  induction l as [| x l IH]; intros Hf; [done |]. rewrite !fmap_cons. simpl.
  rewrite (Hf x) by left. apply Permutation_app_head, IH.
  intros x' Hx'. apply Hf. by right.
Qed.

Lemma groupRows_inherited (rows : grid) (m : gmap string (list Event)) :
  (∀ k, k ∈ inheritedKeys → m !! k = None) →
  Exists (λ ev, ev_timelineName ev ∈ inheritedKeys) (decodeRow <$> rows) →
  groupRows m rows = inl "map[timelineName].push is not a function".
Proof.
  revert m. induction rows as [| cells rows IH]; intros m Hm Hex; simpl.
  { by apply Exists_nil in Hex. }
  rewrite fmap_cons in Hex. unfold pushEvent.
  destruct (decide (ev_timelineName (decodeRow cells) ∈ inheritedKeys))
    as [Hin | Hnot].
  - by rewrite (Hm _ Hin), bool_decide_eq_true_2.
  - apply Exists_cons in Hex as [? | Hex]; [done |].
    destruct (m !! _) eqn:Hk; [| rewrite bool_decide_eq_false_2 by done];
      apply IH; try done; intros k Hin;
      (rewrite lookup_insert_ne; [by apply Hm | by intros <-]).
Qed.

Lemma pretty_nonempty (n : Z) : pretty n ≠ "".
Proof.
  intros Hn. pose proof (parseInt_num n) as Hp.
  unfold Js.parseInt in Hp. simpl in Hp. by rewrite Hn in Hp.
Qed.

Lemma requestTimeline_nonempty (ed : EventData) : requestTimeline ed ≠ "".
Proof.
  unfold requestTimeline, Js.or.
  destruct (ed_timelineName ed) as [| | [] | n | s]; try done; simpl.
  - destruct (Z.eqb_spec n 0); simpl; [done | apply pretty_nonempty].
  - by destruct (String.eqb_spec s "").
Qed.

Lemma or_empty (s : string) : Js.or (VStr s) (VStr "") = VStr s.
Proof. unfold Js.or. simpl. by destruct (String.eqb_spec s "") as [-> | ?]. Qed.

Lemma decodeRow_appendedRow (ed : EventData) (y : Z) :
  decodeRow (appendedRow ed y) = requestEvent ed y.
Proof.
  pose proof (requestTimeline_nonempty ed) as Htl.
  unfold decodeRow, appendedRow, requestEvent, at_index. simpl.
  rewrite !or_empty. f_equal.
  - unfold Js.or. by destruct (Js.truthy _).
  - unfold Js.or. simpl. by destruct (String.eqb_spec (requestTimeline ed) "").
Qed.

End Reading.

(** X16: on a sheet under the required header whose timeline names are
    not property names of [Object.prototype], [getTimelineNames] returns
    the timeline names of the data rows (a blank one read as
    "Untitled"), each once, in strictly ascending order; the numeric
    years play no part. *)
Theorem getTimelineNames_spec (g : grid) :
  normalized (headerRow g) = REQUIRED_HEADERS →
  Forall (λ ev, ev_timelineName ev ∉ inheritedKeys) (decodedRows g) →
  ∃ names,
    getTimelineNames (quiet g) = Ok names (quiet g)
    ∧ StronglySorted (λ a b, String.ltb a b = true) names
    ∧ NoDup names
    ∧ ∀ k, k ∈ names ↔ ∃ ev, ev ∈ decodedRows g ∧ ev_timelineName ev = k.
Proof.
  intros Hh Hnames.
  destruct (grouped_result g Hh Hnames) as (m & Hrun & Hm).
  exists (sortedKeys m). split_and!.
  - unfold getTimelineNames. by rewrite (bind_ok _ _ _ _ _ Hrun).
  - apply sortedKeys_spec.
  - unfold sortedKeys. rewrite sort_by_perm. apply NoDup_fst_map_to_list.
  - apply (group_lookup m _ Hm).
Qed.

Lemma getTimelineNames_spec_witness :
  let g := [VStr <$> REQUIRED_HEADERS;
            [VStr "Kings"; VStr "David"; VNum 1000; VStr "BC"; VNum (-1000); VStr "D"; VStr ""];
            [VStr ""; VStr "Flood"; VStr "?"; VStr ""; VStr ""; VStr ""; VStr ""];
            [VStr "Exile"; VStr "Return"; VNum 538; VStr "BC"; VNum (-538); VStr "R"; VStr ""];
            [VStr "Kings"; VStr "Saul"; VNum 1050; VStr "BC"; VNum (-1050); VStr "S"; VStr ""]] in
  getTimelineNames (quiet g) = Ok ["Exile"; "Kings"; "Untitled"] (quiet g).
Proof.
  intros g.
  destruct (getTimelineNames_spec g) as (names & Hrun & _).
  - reflexivity.
  - apply (bool_decide_unpack _). by vm_compute.
  - assert (getTimelineNames (quiet g) = Ok names (quiet g)) as Hrun' by exact Hrun.
    vm_compute in Hrun'. injection Hrun' as <-. exact Hrun.
Defined.

(** X17: the grouped read loses and invents nothing, whatever the
    numeric years hold: the events of all timelines together are the
    decoded data rows, up to order; no timeline is empty, and every
    event sits in the timeline of its name. *)
Theorem getEventsGrouped_keeps_every_event (g : grid) :
  normalized (headerRow g) = REQUIRED_HEADERS →
  Forall (λ ev, ev_timelineName ev ∉ inheritedKeys) (decodedRows g) →
  ∃ res,
    getEventsGrouped (quiet g) = Ok res (quiet g)
    ∧ concat (tl_events <$> timelines res) ≡ₚ decodedRows g
    ∧ ∀ t, t ∈ timelines res →
        tl_events t ≠ []
        ∧ Forall (λ ev, ev_timelineName ev = tl_name t) (tl_events t).
Proof.
  intros Hh Hnames.
  destruct (grouped_result g Hh Hnames) as (m & Hrun & Hm).
  destruct (group_lookup m _ Hm) as [Hkeys Hgroup].
  eexists. split; [exact Hrun |]. simpl. split.
  - rewrite <- (concat_groups ev_timelineName (sortedKeys m) (decodedRows g)).
    + unfold buildTimelines. rewrite <- list_fmap_compose.
      apply concat_fmap_perm. intros k Hk. simpl.
      by rewrite sort_by_perm, (Hgroup k Hk).
    + unfold sortedKeys. rewrite sort_by_perm. apply NoDup_fst_map_to_list.
    + intros ev Hev. apply Hkeys. eauto.
  - intros t (k & -> & Hk)%list_elem_of_fmap. simpl.
    rewrite (Hgroup k Hk). split.
    + apply Hkeys in Hk as (ev & Hev & Hname). intros Hnil.
      assert (ev ∈ sort_by before
                      (filter (λ ev, ev_timelineName ev = k) (decodedRows g)))
        as Hin by (rewrite sort_by_perm; by apply list_elem_of_filter).
      rewrite Hnil in Hin. by apply elem_of_nil in Hin.
    + apply Forall_forall. intros ev Hev. rewrite sort_by_perm in Hev.
      by apply list_elem_of_filter in Hev as [? _].
Qed.

Lemma getEventsGrouped_keeps_every_event_witness :
  let g := [VStr <$> REQUIRED_HEADERS;
            [VStr "B"; VStr "Later"; VNum 5; VStr "CE"; VNum 5; VStr "L"; VStr ""];
            [VStr "A"; VStr "Undated"; VStr "?"; VStr "CE"; VStr "abc"; VStr "U"; VStr ""];
            [VStr "B"; VStr "Early"; VNum 2; VStr "CE"; VNum 2; VStr "E"; VStr ""]] in
  ∃ res,
    getEventsGrouped (quiet g) = Ok res (quiet g)
    ∧ length (concat (tl_events <$> timelines res)) = 3.
Proof.
  intros g.
  destruct (getEventsGrouped_keeps_every_event g) as (res & Hrun & Hperm & _).
  - reflexivity.
  - apply (bool_decide_unpack _). by vm_compute.
  - exists res. split; [exact Hrun |]. by rewrite Hperm.
Defined.

(** X18: a data row whose timeline name is a property name of
    [Object.prototype] ("constructor", "toString", ...) makes
    [getEventsGrouped], and with it [getTimelineNames], end with a
    TypeError; the sheet stays as it is. *)
Theorem getEventsGrouped_inherited_name (g : grid) :
  normalized (headerRow g) = REQUIRED_HEADERS →
  Exists (λ ev, ev_timelineName ev ∈ inheritedKeys) (decodedRows g) →
  getEventsGrouped (quiet g)
  = Throw "map[timelineName].push is not a function" (quiet g)
  ∧ getTimelineNames (quiet g)
    = Throw "map[timelineName].push is not a function" (quiet g).
Proof.
  intros Hh Hex.
  assert (getEventsGrouped (quiet g)
          = Throw "map[timelineName].push is not a function" (quiet g)) as Hrun.
  { rewrite run_getEventsGrouped, (ensureSchema_fix g Hh).
    by rewrite (groupRows_inherited (dataRows g) ∅). }
  split; [done |]. unfold getTimelineNames. by rewrite bind_unfold, Hrun.
Qed.

Lemma getEventsGrouped_inherited_name_witness :
  let g := [VStr <$> REQUIRED_HEADERS;
            [VStr "Kings"; VStr "David"; VNum 1000; VStr "BC"; VNum (-1000); VStr "D"; VStr ""];
            [VStr "toString"; VStr "X"; VNum 5; VStr "CE"; VNum 5; VStr "X"; VStr ""]] in
  getEventsGrouped (quiet g)
  = Throw "map[timelineName].push is not a function" (quiet g)
  ∧ getTimelineNames (quiet g)
    = Throw "map[timelineName].push is not a function" (quiet g).
Proof.
  intros g. apply (getEventsGrouped_inherited_name g); [reflexivity |].
  apply Exists_cons_tl, Exists_cons_hd. apply (bool_decide_unpack _). by vm_compute.
Defined.

(** X19: an event added by [addEvent], with a plain request and a
    year that parses as the safe integer [y], is read back by
    [getEventsGrouped]: the data rows decode to the former events
    followed by the new one, and the timeline of its name holds the
    event with the values that were stored. *)
Theorem addEvent_then_getEventsGrouped (g : grid) (ed : EventData) (y : Z) :
  normalized (headerRow g) = REQUIRED_HEADERS →
  plainRequest ed = true →
  requestName ed ≠ "" →
  Js.parseInt (ed_year ed) = Some y →
  Js.safe y = true →
  Forall (λ ev, ev_timelineName ev ∉ inheritedKeys) (decodedRows g) →
  requestTimeline ed ∉ inheritedKeys →
  ∃ res g1 grouped t,
    addEvent (Some ed) (quiet g) = Ok res (quiet g1)
    ∧ decodedRows g1 = decodedRows g ++ [requestEvent ed y]
    ∧ getEventsGrouped (quiet g1) = Ok grouped (quiet g1)
    ∧ t ∈ timelines grouped
    ∧ tl_name t = requestTimeline ed
    ∧ requestEvent ed y ∈ tl_events t.
Proof.
  intros Hh _ Hname Hyear _ Hnames Htl.
  pose proof (required_rows g Hh) as Hrow.
  set (g1 := Sheet.write g (S (Sheet.lastRow g)) 1 [appendedRow ed y]).
  assert (normalized (headerRow g1) = REQUIRED_HEADERS) as Hh1
    by (unfold g1; by rewrite headerRow_write_row by lia).
  assert (decodedRows g1 = decodedRows g ++ [requestEvent ed y]) as Hrows.
  { unfold decodedRows, g1.
    rewrite (dataRows_append g _ 2 (VNum y)) by done.
    by rewrite fmap_app, <- decodeRow_appendedRow. }
  assert (Forall (λ ev, ev_timelineName ev ∉ inheritedKeys) (decodedRows g1))
    as Hnames1.
  { rewrite Hrows. apply Forall_app. split; [done |]. by apply Forall_singleton. }
  destruct (grouped_result g1 Hh1 Hnames1) as (m & Hrun & Hm).
  destruct (group_lookup m _ Hm) as [Hkeys Hgroup].
  assert (requestEvent ed y ∈ decodedRows g1) as Hin
    by (rewrite Hrows; apply elem_of_app; right; left).
  assert (requestTimeline ed ∈ sortedKeys m) as Hk
    by (apply (proj2 (Hkeys _)); eauto).
  eexists _, g1, _,
    (mkTimeline (requestTimeline ed)
       (sort_by before (default [] (m !! requestTimeline ed)))).
  split_and!.
  - by rewrite (run_addEvent g ed y), ensureSchema_fix.
  - done.
  - exact Hrun.
  - simpl. unfold buildTimelines. apply list_elem_of_fmap. by eexists.
  - done.
  - simpl. rewrite sort_by_perm, (Hgroup _ Hk). by apply list_elem_of_filter.
Qed.

Lemma addEvent_then_getEventsGrouped_witness :
  let g := [VStr <$> REQUIRED_HEADERS;
            [VStr "T1"; VStr "X"; VNum 5; VStr "CE"; VNum 5; VStr "X"; VStr "note"]] in
  let ed := mkEventData (VStr "T1") (VStr " Exodus ") (VStr "1446") (VStr "BC")
              (VStr "left Egypt") in
  ∃ res g1 grouped t,
    addEvent (Some ed) (quiet g) = Ok res (quiet g1)
    ∧ getEventsGrouped (quiet g1) = Ok grouped (quiet g1)
    ∧ t ∈ timelines grouped
    ∧ tl_name t = "T1"
    ∧ mkEvent (VStr "Exodus") (VNum 1446) (VStr "BC") (VNum (-1446)) (VStr "E")
        (VStr "left Egypt") "T1" ∈ tl_events t.
Proof.
  intros g ed.
  destruct (addEvent_then_getEventsGrouped g ed 1446)
    as (res & g1 & grouped & t & Hadd & _ & Hread & Ht & Hname & Hev).
  - reflexivity.
  - reflexivity.
  - by vm_compute.
  - reflexivity.
  - reflexivity.
  - apply (bool_decide_unpack _). by vm_compute.
  - apply (bool_decide_unpack _). by vm_compute.
  - exists res, g1, grouped, t.
    split_and!; [exact Hadd | exact Hread | exact Ht | exact Hname | exact Hev].
Defined.

(** ** The derived values *)

Section Abbreviation_more.

Lemma makeAbbreviation_words (name : string) :
  makeAbbreviation (VStr name) = Js.join (firstUpper <$> words name).
Proof.
  unfold makeAbbreviation. simpl.
  destruct (String.eqb_spec name "") as [-> | Hne]; [done |]. simpl.
  unfold Js.split_ws. rewrite split_ws_go_words by done.
  fold (words (Js.trim name)). by rewrite words_trim.
Qed.

Lemma words_go_nonempty (tok s : string) :
  Forall (λ w, w ≠ "") (words_go tok s).
Proof.
  assert (∀ t, Forall (λ w, w ≠ "") (flush t)) as Hflush.
  { intros [| c t]; [constructor | by repeat constructor]. }
  revert tok. induction s as [| c s IH]; intros tok; simpl; [apply Hflush |].
  destruct (Js.is_space c); [| apply IH].
  apply Forall_app. split; [apply Hflush | apply IH].
Qed.

Lemma length_join_firstUpper (ws : list string) :
  Forall (λ w, w ≠ "") ws →
  String.length (Js.join (firstUpper <$> ws)) = length ws.
Proof.
  induction 1 as [| w ws Hw _ IH]; [done |].
  destruct w as [| c w]; [done |]. rewrite fmap_cons.
  change (S (String.length (Js.join (firstUpper <$> ws))) = S (length ws)).
  by rewrite IH.
Qed.

End Abbreviation_more.

(** X20: the abbreviation of a name in ASCII text has one character
    for each word of the name, so it is empty exactly when the name has
    no word.  (Outside ASCII the upper-casing of one character may yield
    several.) *)
Theorem makeAbbreviation_one_letter_per_word (name : string) :
  Js.is_ascii name = true →
  String.length (makeAbbreviation (VStr name)) = length (words name)
  ∧ (makeAbbreviation (VStr name) = "" ↔ words name = []).
Proof.
  intros _. rewrite makeAbbreviation_words.
  pose proof (length_join_firstUpper (words name) (words_go_nonempty _ _)) as Hlen.
  split; [done |]. split.
  - intros Hempty. rewrite Hempty in Hlen. by destruct (words name).
  - by intros ->.
Qed.

(** X21: a numeric year derived from a plain year that is a safe
    integer is a fixed point of its own derivation (deriving it again
    from the stored value and the same era gives the same number); it is
    at most 0 when the era is exactly "BC" and at least 0 otherwise. *)
Theorem computeNumericYear_stable (year era : value) :
  Js.plain year = true →
  Js.safe (computeNumericYear year era) = true →
  computeNumericYear (VNum (computeNumericYear year era)) era
  = computeNumericYear year era
  ∧ (era = VStr "BC" → (computeNumericYear year era ≤ 0)%Z)
  ∧ (era ≠ VStr "BC" → (0 ≤ computeNumericYear year era)%Z).
Proof.
  intros _ _. rewrite !computeNumericYear_unfold, parseInt_num.
  destruct (Js.parseInt year) as [y |]; case_decide; split_and!; try done; lia.
Qed.

Lemma makeAbbreviation_one_letter_per_word_witness :
  String.length (makeAbbreviation (VStr "  dead sea   scrolls ")) = 3
  ∧ makeAbbreviation (VStr "   ") = "".
Proof.
  split.
  - exact (proj1 (makeAbbreviation_one_letter_per_word "  dead sea   scrolls "
                    eq_refl)).
  - exact (proj2 (proj2 (makeAbbreviation_one_letter_per_word "   " eq_refl))
             eq_refl).
Defined.

Lemma computeNumericYear_stable_witness :
  computeNumericYear (VNum (-586)) (VStr "BC") = (-586)%Z
  ∧ computeNumericYear (VNum 586) (VStr "CE") = 586%Z.
Proof.
  split.
  - exact (proj1 (computeNumericYear_stable (VStr "586 BC") (VStr "BC")
                    eq_refl eq_refl)).
  - exact (proj1 (computeNumericYear_stable (VNum (-586)) (VStr "CE")
                    eq_refl eq_refl)).
Defined.

(** ** Service failures under the required header *)

Section Keeps.

Import Sheet.

Context (g : grid).

Lemma keeps_pure {A} (a : A) (Q : A → option grid → Prop) :
  Q a (Some g) → keeps g (pure a) Q.
Proof. by intros HQ fs. Qed.

Lemma keeps_throw {A} (msg : string) (Q : A → option grid → Prop) :
  keeps g (throw msg) Q.
Proof. by intros fs. Qed.

Lemma keeps_weaken {A} (m : M A) (Q Q' : A → option grid → Prop) :
  keeps g m Q → (∀ a s, Q a s → Q' a s) → keeps g m Q'.
Proof.
  intros Hm HQ fs. specialize (Hm fs).
  destruct (m _); [by apply HQ | done].
Qed.

(** The continuation may run on a changed sheet, as long as what it
    does there is fine. *)
Lemma keeps_bind_any {A B} (m : M A) (k : A → M B)
    (Q' : A → option grid → Prop) (Q : B → option grid → Prop) :
  keeps g m Q' →
  (∀ a s fs, Q' a s →
     match k a (mkWorld s fs) with
     | Ok b w' => Q b (sheet w')
     | Throw _ w' => sheet w' = Some g
     end) →
  keeps g (bind m k) Q.
Proof.
  intros Hm Hk fs. unfold bind. specialize (Hm fs).
  destruct (m _) as [a [s fs'] | msg w']; [| done]. by apply Hk.
Qed.

Lemma keeps_bind {A B} (m : M A) (k : A → M B)
    (P : A → Prop) (Q : B → option grid → Prop) :
  keeps g m (λ a s, s = Some g ∧ P a) →
  (∀ a, P a → keeps g (k a) Q) →
  keeps g (bind m k) Q.
Proof.
  intros Hm Hk. eapply keeps_bind_any; [exact Hm |].
  intros a s fs [-> Ha]. by apply Hk.
Qed.

Lemma keeps_tick : keeps g tick (λ _ s, s = Some g ∧ True).
Proof. intros [| [msg |] fs]; by simpl. Qed.

Lemma keeps_call {A} (f : grid → string + A * grid) (a : A) (g' : grid) :
  f g = inr (a, g') → keeps g (call f) (λ x s, s = Some g' ∧ x = a).
Proof.
  intros Hf. unfold call. eapply keeps_bind; [apply keeps_tick |].
  intros _ _ fs. simpl. by rewrite Hf.
Qed.

Lemma keeps_getSheetByName :
  keeps g Service.getSheetByName (λ b s, s = Some g ∧ b = true).
Proof.
  unfold Service.getSheetByName. eapply keeps_bind; [apply keeps_tick |].
  by intros _ _ fs.
Qed.

Lemma keeps_getRange (r c nr nc : nat) :
  0 < r → 0 < c → 0 < nr → 0 < nc →
  keeps g (Service.getRange r c nr nc)
    (λ rg s, s = Some g ∧ rg = mkRange r c nr nc).
Proof.
  intros. apply keeps_call. destruct r, c, nr, nc; done || lia.
Qed.

Lemma keeps_getSheet :
  normalized (headerRow g) = REQUIRED_HEADERS →
  keeps g getSheet (λ _ s, s = Some g ∧ True).
Proof.
  intros Hh.
  pose proof (lastRow_gt g 0 0 (schema_cells g 0 Hh ltac:(lia))) as Hrow.
  pose proof (lastColumn_gt g 0 6 (schema_cells g 6 Hh ltac:(lia))) as Hcol.
  unfold getSheet, Service.getActiveSpreadsheet.
  eapply keeps_bind; [apply keeps_tick | intros _ _].
  eapply keeps_bind; [apply keeps_getSheetByName | intros ? ->].
  eapply (keeps_bind _ _ (λ _, True)); [by apply (keeps_pure tt) | intros _ _].
  eapply keeps_bind; [by apply keeps_call | intros ? ->].
  eapply keeps_bind; [by apply keeps_call | intros ? ->].
  destruct (Nat.eqb_spec (lastRow g) 0) as [? | _]; [lia |].
  eapply keeps_bind; [apply keeps_getRange; simpl; lia | intros ? ->].
  eapply keeps_bind; [by apply keeps_call | intros ? ->].
  rewrite headers_read by lia. rewrite Hh.
  change (isOld REQUIRED_HEADERS) with false.
  change (headersDiffer REQUIRED_HEADERS) with false. cbv iota.
  eapply (keeps_bind _ _ (λ b, b = (lastColumn g <? length REQUIRED_HEADERS))).
  - eapply keeps_bind; [by apply keeps_call | intros ? ->].
    by apply keeps_pure.
  - intros b ->.
    destruct (Nat.ltb_spec (lastColumn g) (length REQUIRED_HEADERS)) as [Hlt | _];
      [simpl in Hlt; lia |].
    by apply keeps_pure.
Qed.

End Keeps.

Section Keeps_script.

Import Sheet.

Context (g : grid) (Hh : normalized (headerRow g) = REQUIRED_HEADERS).

Lemma keeps_getEventsGrouped :
  keeps g getEventsGrouped (λ _ s, s = Some g).
Proof.
  unfold getEventsGrouped.
  eapply keeps_bind; [by apply keeps_getSheet | intros _ _].
  eapply keeps_bind; [by apply keeps_call | intros ? ->].
  destruct (Nat.ltb_spec (lastRow g) 2) as [Hlt | Hge]; [by apply keeps_pure |].
  eapply keeps_bind; [apply keeps_getRange; simpl; lia | intros ? ->].
  eapply keeps_bind; [by apply keeps_call | intros ? ->].
  destruct (groupRows _ _); [apply keeps_throw | by apply keeps_pure].
Qed.

Lemma keeps_getTimelineNames :
  keeps g getTimelineNames (λ _ s, s = Some g).
Proof.
  unfold getTimelineNames.
  eapply (keeps_bind _ _ _ (λ _, True)).
  - eapply keeps_weaken; [apply keeps_getEventsGrouped | done].
  - intros grouped _. by apply keeps_pure.
Qed.

(** The last step of a mutation: one write, then the success result. *)
Lemma keeps_write_last (m : M unit) (g' : grid) (res : Result) :
  keeps g m (λ x s, s = Some g' ∧ x = tt) →
  success res = true →
  keeps g (bind m (λ _, pure res)) (unchangedOnFailure g).
Proof.
  intros Hm Hres. eapply keeps_bind_any; [exact Hm |].
  intros _ s fs _. simpl. unfold unchangedOnFailure. by rewrite Hres.
Qed.

Lemma keeps_addEvent_try (eventData : option EventData) :
  keeps g (addEvent_try eventData) (unchangedOnFailure g).
Proof.
  unfold addEvent_try. destruct eventData as [ed |]; [| by apply keeps_pure].
  destruct (negb _); [by apply keeps_pure |].
  destruct (Js.parseInt _) as [y |]; [| by apply keeps_pure].
  eapply keeps_bind; [by apply keeps_getSheet | intros _ _].
  eapply keeps_write_last; [by apply keeps_call | done].
Qed.

Lemma keeps_updateEvent_try (event : option UpdateData) :
  keeps g (updateEvent_try event) (unchangedOnFailure g).
Proof.
  unfold updateEvent_try. destruct event as [ev |]; [| by apply keeps_pure].
  destruct (original ev) as [o |]; [| by apply keeps_pure].
  eapply keeps_bind; [by apply keeps_getSheet | intros _ _].
  eapply keeps_bind; [by apply keeps_call | intros ? ->].
  destruct (Nat.ltb_spec (lastRow g) 2) as [Hlt | Hge]; [by apply keeps_pure |].
  eapply keeps_bind; [apply keeps_getRange; simpl; lia | intros ? ->].
  eapply keeps_bind; [by apply keeps_call | intros ? ->].
  destruct (findIndex _ _) as [idx |]; [| by apply keeps_pure].
  destruct (newValues _ _) as [new |] eqn:Hnew; [| by apply keeps_pure].
  eapply keeps_bind; [apply keeps_getRange; simpl; lia | intros ? ->].
  eapply keeps_write_last; [| done].
  apply keeps_call. unfold shape_ok. simpl.
  by rewrite (newValues_length _ _ _ Hnew).
Qed.

Lemma keeps_deleteEvent_try (params : option Key) :
  keeps g (deleteEvent_try params) (unchangedOnFailure g).
Proof.
  unfold deleteEvent_try. destruct params as [o |]; [| by apply keeps_pure].
  eapply keeps_bind; [by apply keeps_getSheet | intros _ _].
  eapply keeps_bind; [by apply keeps_call | intros ? ->].
  destruct (Nat.ltb_spec (lastRow g) 2) as [Hlt | Hge]; [by apply keeps_pure |].
  eapply keeps_bind; [apply keeps_getRange; simpl; lia | intros ? ->].
  eapply keeps_bind; [by apply keeps_call | intros ? ->].
  destruct (findIndex _ _) as [idx |]; [| by apply keeps_pure].
  eapply keeps_write_last; [| done].
  apply keeps_call. by replace (idx + 2) with (S (S idx)) by lia.
Qed.

Lemma keeps_try_catch (body : M Result) (prefix : string) (fs : list (option string)) :
  keeps g body (unchangedOnFailure g) →
  ∃ res w',
    try_catch body (λ msg, pure (mkResult false (prefix +:+ msg)))
      (mkWorld (Some g) fs)
    = Ok res w'
    ∧ (success res = false → sheet w' = Some g).
Proof.
  intros Hbody. specialize (Hbody fs). unfold try_catch.
  destruct (body _) as [res w' | msg w']; by eexists _, _.
Qed.

End Keeps_script.

(** X22: under the required header [getEventsGrouped] and
    [getTimelineNames] never write: whatever the fault plan, and whether
    they return or throw, the sheet they leave is the sheet they
    found. *)
Theorem reads_never_write (g : grid) (fs : list (option string)) :
  normalized (headerRow g) = REQUIRED_HEADERS →
  sheet (outcomeWorld (getEventsGrouped (mkWorld (Some g) fs))) = Some g
  ∧ sheet (outcomeWorld (getTimelineNames (mkWorld (Some g) fs))) = Some g.
Proof.
  intros Hh. split.
  - pose proof (keeps_getEventsGrouped g Hh fs) as H. by destruct (getEventsGrouped _).
  - pose proof (keeps_getTimelineNames g Hh fs) as H. by destruct (getTimelineNames _).
Qed.

Lemma reads_never_write_witness :
  let g := [VStr <$> REQUIRED_HEADERS;
            [VStr "T1"; VStr "X"; VNum 5; VStr "CE"; VNum 5; VStr "X"; VStr "note"]] in
  let fs := [None; None; None; None; None; None; None; None; Some "Service error"] in
  getEventsGrouped (mkWorld (Some g) fs) = Throw "Service error" (quiet g)
  ∧ sheet (outcomeWorld (getEventsGrouped (mkWorld (Some g) fs))) = Some g.
Proof.
  intros g fs. split; [by vm_compute |].
  apply (reads_never_write g fs). reflexivity.
Defined.

(** X23: under the required header a mutation that reports
    [{success: false}] has changed nothing: for every fault plan and
    every argument [addEvent], [updateEvent] and [deleteEvent] return a
    result, and when it is a failure the sheet is the one they found. *)
Theorem failed_mutation_leaves_sheet (g : grid) (fs : list (option string)) :
  normalized (headerRow g) = REQUIRED_HEADERS →
  (∀ eventData, ∃ res w',
     addEvent eventData (mkWorld (Some g) fs) = Ok res w'
     ∧ (success res = false → sheet w' = Some g))
  ∧ (∀ event, ∃ res w',
       updateEvent event (mkWorld (Some g) fs) = Ok res w'
       ∧ (success res = false → sheet w' = Some g))
  ∧ (∀ params, ∃ res w',
       deleteEvent params (mkWorld (Some g) fs) = Ok res w'
       ∧ (success res = false → sheet w' = Some g)).
Proof.
  intros Hh. split_and!.
  - intros eventData. by apply keeps_try_catch, keeps_addEvent_try.
  - intros event. by apply keeps_try_catch, keeps_updateEvent_try.
  - intros params. by apply keeps_try_catch, keeps_deleteEvent_try.
Qed.

Lemma failed_mutation_leaves_sheet_witness :
  let g := [VStr <$> REQUIRED_HEADERS;
            [VStr "T1"; VStr "X"; VNum 5; VStr "CE"; VNum 5; VStr "X"; VStr "note"]] in
  let fs := [None; None; None; None; None; None; None; None; None; None; None;
             Some "Service error"] in
  let o := mkKey (VStr "T1") (VStr "X") (VNum 5) (VStr "CE") in
  ∃ res w',
    updateEvent (Some (mkUpdateData (Some o) VUndef VUndef (VNum 10) VUndef VUndef))
      (mkWorld (Some g) fs)
    = Ok res w'
    ∧ res = mkResult false "Error updating event: Service error"
    ∧ sheet w' = Some g.
Proof.
  intros g fs o.
  destruct (failed_mutation_leaves_sheet g fs) as (_ & Hupd & _); [reflexivity |].
  destruct (Hupd (Some (mkUpdateData (Some o) VUndef VUndef (VNum 10) VUndef VUndef)))
    as (res & w' & Hrun & Hsheet).
  assert (res = mkResult false "Error updating event: Service error") as Hres.
  { assert (updateEvent
              (Some (mkUpdateData (Some o) VUndef VUndef (VNum 10) VUndef VUndef))
              (mkWorld (Some g) fs) = Ok res w') as Hrun' by exact Hrun.
    vm_compute in Hrun'. by injection Hrun' as <- _. }
  exists res, w'. split_and!; [exact Hrun | exact Hres |].
  apply Hsheet. by rewrite Hres.
Defined.

(** ** Service failures during a migration *)

Section Faults.

Import Sheet.

Lemma tick_None (s : option grid) (fs : list (option string)) :
  tick (mkWorld s (None :: fs)) = Ok tt (mkWorld s fs).
Proof. reflexivity. Qed.

Lemma tick_Some (s : option grid) (msg : string) (fs : list (option string)) :
  tick (mkWorld s (Some msg :: fs)) = Throw msg (mkWorld s fs).
Proof. reflexivity. Qed.

Lemma call_None {A} (f : grid → string + A * grid) (g : grid) fs :
  call f (mkWorld (Some g) (None :: fs))
  = match f g with
    | inl msg => Throw msg (mkWorld (Some g) fs)
    | inr (a, g') => Ok a (mkWorld (Some g') fs)
    end.
Proof. reflexivity. Qed.

Lemma call_Some {A} (f : grid → string + A * grid) (g : grid) msg fs :
  call f (mkWorld (Some g) (Some msg :: fs)) = Throw msg (mkWorld (Some g) fs).
Proof. reflexivity. Qed.

Lemma getSheetByName_None (g : grid) fs :
  Service.getSheetByName (mkWorld (Some g) (None :: fs))
  = Ok true (mkWorld (Some g) fs).
Proof. reflexivity. Qed.

Lemma getRange_None (g : grid) (r c nr nc : nat) fs :
  0 < r → 0 < c → 0 < nr → 0 < nc →
  Service.getRange r c nr nc (mkWorld (Some g) (None :: fs))
  = Ok (mkRange r c nr nc) (mkWorld (Some g) fs).
Proof.
  intros. unfold Service.getRange. rewrite call_None.
  destruct r, c, nr, nc; done || lia.
Qed.

Lemma getRange_Some (g : grid) (r c nr nc : nat) msg fs :
  Service.getRange r c nr nc (mkWorld (Some g) (Some msg :: fs))
  = Throw msg (mkWorld (Some g) fs).
Proof. reflexivity. Qed.

Lemma setValues_None (g : grid) (rg : Range) (vss : grid) fs :
  shape_ok rg vss = true →
  Service.setValues rg vss (mkWorld (Some g) (None :: fs))
  = Ok tt (mkWorld (Some (write g (rg_row rg) (rg_col rg) vss)) fs).
Proof. intros H. unfold Service.setValues. by rewrite call_None, H. Qed.

Lemma setValues_Some (g : grid) (rg : Range) (vss : grid) msg fs :
  Service.setValues rg vss (mkWorld (Some g) (Some msg :: fs))
  = Throw msg (mkWorld (Some g) fs).
Proof. reflexivity. Qed.

Lemma lastRow_insertColumn (g : grid) :
  lastRow (insertColumn 1 g) = lastRow g.
Proof.
  apply lastRow_eq.
  - intros i j Hi. rewrite cell0_insertColumn. destruct j; [done |].
    apply (lastRow_le g (lastRow g)); lia.
  - destruct (lastRow g) as [| n] eqn:Hlast; [by left | right].
    destruct (lastRow_witness g n Hlast) as [j Hj]. exists (S j).
    by rewrite cell0_insertColumn.
Qed.

Lemma header_insertColumn (g : grid) :
  row g 1 6 = VStr <$> OLD_HEADERS →
  headerRow (insertColumn 1 g) = VStr "" :: (VStr <$> OLD_HEADERS).
Proof.
  intros Hold. apply row_ext; [done |]. intros j v Hj.
  unfold cell. simpl. rewrite cell0_insertColumn.
  destruct j as [| j]; [by simplify_eq/= |]. simpl in Hj.
  change (cell0 g 0 j) with (cell g 1 (S j)).
  apply (cell_of_row g 1 6). by rewrite Hold.
Qed.

End Faults.

(** One step of a run under a fault plan. *)
Ltac fault_step :=
  rewrite ?bind_unfold;
  first
    [ rewrite tick_None
    | rewrite tick_Some
    | rewrite getSheetByName_None
    | rewrite getRange_None by (simpl; lia)
    | rewrite getRange_Some
    | rewrite setValues_None by done
    | rewrite setValues_Some
    | rewrite call_None
    | rewrite call_Some
    | rewrite run_pure ];
  cbv beta iota.

Section Migration_prefix.

Import Sheet.

(** The calls of a migration up to the inserted column, under a fault
    plan that lets them through. *)
Lemma getSheet_legacy_prefix (g : grid) (n : nat) (fs : list (option string)) :
  row g 1 6 = VStr <$> OLD_HEADERS →
  lastRow g = S n →
  getSheet (mkWorld (Some g) (replicate 7 None ++ fs))
  = (rg <- Service.getRange 1 1 1 (length REQUIRED_HEADERS);
     Service.setValues rg [VStr <$> REQUIRED_HEADERS];;
     lastRow' <- Service.getLastRow;
     let dataRows := (lastRow' - 1)%nat in
     if (0 <? dataRows)%nat then
       rg <- Service.getRange 2 1 dataRows 1;
       Service.setValue rg (VStr "Timeline 1")
     else pure tt)%script
      (mkWorld (Some (insertColumn 1 g)) fs).
Proof.
  intros Hold Hlast. destruct (legacy_header g Hold) as [x Hh].
  unfold getSheet, Service.getActiveSpreadsheet, Service.getLastRow,
    Service.getLastColumn, Service.getValues, Service.insertColumnBefore.
  simpl replicate. simpl app.
  do 4 fault_step. fault_step. rewrite Hlast.
  change (S n =? 0) with false. cbv iota.
  do 2 fault_step. rewrite headers_read by lia. rewrite Hh.
  assert (isOld (normalized ((VStr <$> OLD_HEADERS) ++ [x])) = true) as ->
    by reflexivity.
  fault_step. reflexivity.
Qed.

End Migration_prefix.

Section Interrupted.

Import Sheet.

(** Where a migration stops when the call after the inserted column
    with index [k] fails: before or after the header is written. *)
Lemma getSheet_legacy_interrupted (g : grid) (n k : nat) (msg : string) :
  row g 1 6 = VStr <$> OLD_HEADERS →
  lastRow g = S (S n) →
  k < 5 →
  getSheet (mkWorld (Some g) (replicate (7 + k) None ++ [Some msg]))
  = Throw msg
      (quiet (if k <? 2 then insertColumn 1 g
              else write (insertColumn 1 g) 1 1 [requiredCells])).
Proof.
  intros Hold Hlast Hk.
  rewrite replicate_add, <- (assoc_L app).
  rewrite (getSheet_legacy_prefix g (S n) _ Hold Hlast).
  pose proof (lastRow_migrating g (S n) Hlast) as Hlast'.
  unfold requiredCells in Hlast'.
  unfold Service.getLastRow, Service.setValue.
  destruct k as [| [| [| [| [| k]]]]]; [| | | | | lia]; simpl replicate; simpl app.
  - by fault_step.
  - by do 2 fault_step.
  - by do 3 fault_step.
  - do 3 fault_step. cbn [rg_row rg_col]. rewrite Hlast'.
    change (0 <? S (S n) - 1) with true. cbv iota. by fault_step.
  - do 3 fault_step. cbn [rg_row rg_col]. rewrite Hlast'.
    change (0 <? S (S n) - 1) with true. cbv iota. by do 2 fault_step.
Qed.

Lemma ensureSchema_inserted (g : grid) (n : nat) :
  row g 1 6 = VStr <$> OLD_HEADERS →
  lastRow g = S n →
  ensureSchema (insertColumn 1 g) = write (insertColumn 1 g) 1 1 [requiredCells].
Proof.
  intros Hold Hlast. unfold ensureSchema.
  rewrite lastRow_insertColumn, Hlast, (header_insertColumn g Hold).
  reflexivity.
Qed.

End Interrupted.

(** X24: a migration is not atomic.  When, on a legacy sheet with data
    rows, the first [k] service calls succeed and the next one fails,
    for [k] from 7 (the column is inserted) to 11 (before the
    placeholder is written), [getSheet] throws; the next call, with no
    failure, ends with the required header over data rows whose first
    cell is empty, the old cells one column to the right, and no later
    call fills in "Timeline 1". *)
Theorem interrupted_migration_is_not_resumed
    (g : grid) (n k : nat) (msg : string) :
  Sheet.row g 1 6 = VStr <$> OLD_HEADERS →
  Sheet.lastRow g = S (S n) →
  7 ≤ k ≤ 11 →
  ∃ g1 g2,
    getSheet (mkWorld (Some g) (replicate k None ++ [Some msg]))
    = Throw msg (quiet g1)
    ∧ getSheet (quiet g1) = Ok tt (quiet g2)
    ∧ getSheet (quiet g2) = Ok tt (quiet g2)
    ∧ headerRow g2 = VStr <$> REQUIRED_HEADERS
    ∧ Sheet.lastRow g2 = S (S n)
    ∧ (∀ r, 2 ≤ r → Sheet.cell g2 r 1 = VStr "")
    ∧ (∀ r c, 2 ≤ r → 1 ≤ c → Sheet.cell g2 r (S c) = Sheet.cell g r c).
Proof.
  intros Hold Hlast Hk.
  set (g2 := Sheet.write (Sheet.insertColumn 1 g) 1 1 [requiredCells]).
  assert (getSheet (quiet g2) = Ok tt (quiet g2)) as Hfix
    by apply getSheet_required, header_written.
  exists (if k - 7 <? 2 then Sheet.insertColumn 1 g else g2), g2. split_and!.
  - replace k with (7 + (k - 7)) at 1 by lia.
    apply (getSheet_legacy_interrupted g n); [done | done | lia].
  - destruct (k - 7 <? 2); [| done].
    by rewrite run_getSheet, (ensureSchema_inserted g (S n)).
  - done.
  - apply header_written.
  - by apply lastRow_migrating.
  - intros r Hr. unfold Sheet.cell, g2.
    rewrite cell0_write_header, decide_False by lia.
    by rewrite cell0_insertColumn.
  - intros r c Hr Hc. unfold Sheet.cell, g2.
    rewrite cell0_write_header, decide_False by lia.
    rewrite cell0_insertColumn. by destruct c; [lia |].
Qed.

Lemma interrupted_migration_is_not_resumed_witness :
  let g := [VStr <$> OLD_HEADERS;
            [VStr "Exodus"; VNum 1446; VStr "BC"; VNum (-1446); VStr "E";
             VStr "left Egypt"]] in
  ∃ g1 g2,
    getSheet (mkWorld (Some g) (replicate 8 None ++ [Some "Service error"]))
    = Throw "Service error" (quiet g1)
    ∧ getSheet (quiet g1) = Ok tt (quiet g2)
    ∧ dataRow g2 2
      = [VStr ""; VStr "Exodus"; VNum 1446; VStr "BC"; VNum (-1446); VStr "E";
         VStr "left Egypt"].
Proof.
  intros g.
  destruct (interrupted_migration_is_not_resumed g 0 8 "Service error")
    as (g1 & g2 & Hrun & Hretry & _ & _ & _ & Hblank & Hcells).
  - reflexivity.
  - reflexivity.
  - lia.
  - exists g1, g2. split_and!; [exact Hrun | exact Hretry |].
    apply row_ext; [done |]. intros j v Hj.
    destruct j as [| j]; [rewrite Hblank by lia; by simplify_eq/= |].
    rewrite Hcells by lia.
    do 6 (destruct j as [| j]; [by simplify_eq/= |]). done.
Defined.
